(** * Coverage tracks for single-cell ATAC-seq: a model of [notebooks/coverage.py]

    The development embeds the functions of [coverage.py] as Rocq functions
    and states the properties of the coverage pipeline over them.

    Conventions.
    - Python integers are [Z].  Values held in a fixed-width column or
      computed inside the CUDA kernel are [Z] with the wrap-around written
      out ([wrap32], [wrap64]).
    - A Python exception is [Raised e]; a device store or load outside its
      array, which CUDA leaves undefined, is [Undefined].
    - Text is [string]; every character stands for the code point of the
      same number (0..255).
    - Dataframes are lists of typed rows, or records of typed columns where
      the source works column by column.  Objects that are mutated in place
      live in a store and are named by their location. *)

From Stdlib Require Import ZArith Lia List Permutation Sorted Ascii String.
From stdpp Require Import base tactics option list strings pretty.

Open Scope Z_scope.

(* ===================================================================== *)
(** * Part I: definitions                                                *)
(* ===================================================================== *)

(** ** Outcomes of a computation *)

Inductive exn :=
  | ValueError
  | OverflowError
  | ZeroDivisionError
  | KeyError
  | IndexError.

Inductive result (A : Type) :=
  | Ok (a : A)
  | Raised (e : exn)
  | Undefined.
Arguments Ok {A} a.
Arguments Raised {A} e.
Arguments Undefined {A}.

Definition result_bind {A B} (m : result A) (k : A → result B) : result B :=
  match m with
  | Ok a => k a
  | Raised e => Raised e
  | Undefined => Undefined
  end.

Notation "'let*' x ':=' m 'in' k" := (result_bind m (fun x => k))
  (at level 10, x pattern, m at level 100, k at level 200).

(** [for x in xs: acc = body(x, acc)], stopping at the first failure. *)
Fixpoint for_each {A S} (body : A → S → result S) (xs : list A) (s : S) : result S :=
  match xs with
  | [] => Ok s
  | x :: xs' => let* s' := body x s in for_each body xs' s'
  end.

(** ** Fixed-width integers *)

Definition wrap (w : Z) (x : Z) : Z := (x + 2 ^ (w - 1)) mod 2 ^ w - 2 ^ (w - 1).
Definition wrap32 : Z → Z := wrap 32.
Definition wrap64 : Z → Z := wrap 64.

Definition is_int32 (x : Z) : Prop := - 2 ^ 31 <= x < 2 ^ 31.
Definition is_int64 (x : Z) : Prop := - 2 ^ 63 <= x < 2 ^ 63.

(** ** Python's [range(lo, hi, step)] *)

Definition range_len (lo hi step : Z) : Z :=
  if 0 <? step then (if lo <? hi then (hi - lo - 1) / step + 1 else 0)
  else (if hi <? lo then (lo - hi - 1) / (- step) + 1 else 0).

Definition range_from (lo step : Z) (n : nat) : list Z :=
  map (fun k => lo + Z.of_nat k * step) (seq 0 n).

Definition py_range (lo hi step : Z) : result (list Z) :=
  if step =? 0 then Raised ValueError
  else Ok (range_from lo step (Z.to_nat (range_len lo hi step))).

(** ** Device arrays

    numba indexes an array with a signed integer: a negative index counts
    from the end; after that adjustment nothing checks the index against
    the array's bounds. *)

Definition norm_index {A} (a : list A) (j : Z) : Z :=
  if j <? 0 then j + Z.of_nat (length a) else j.

Definition in_bounds {A} (a : list A) (j : Z) : bool :=
  (0 <=? norm_index a j) && (norm_index a j <? Z.of_nat (length a)).

Definition array_get (a : list Z) (j : Z) : result Z :=
  if in_bounds a j then
    match a !! Z.to_nat (norm_index a j) with
    | Some v => Ok v
    | None => Undefined
    end
  else Undefined.

(** A store into an [int32] column keeps the low 32 bits of the value. *)
Definition array_set (a : list Z) (j v : Z) : result (list Z) :=
  if in_bounds a j then Ok (<[Z.to_nat (norm_index a j) := wrap32 v]> a)
  else Undefined.

(** ** The kernel [expand_interval] *)

(** The three output columns [interval_start], [interval_end] and
    [interval_index]. *)
Record columns := Columns {
  interval_start : list Z;
  interval_end : list Z;
  interval_index : list Z
}.

(** One round of the inner loop, [for j in range(first_index, end_index[i], step)];
    the loop carries [chrom_start] beside the columns. *)
Definition expand_step (index : list Z) (i : Z) (j : Z) (st : Z * columns)
  : result (Z * columns) :=
  let '(chrom_start, out) := st in
  let* istart := array_set (interval_start out) j chrom_start in
  let chrom_start := wrap64 (chrom_start + 1) in
  let* iend := array_set (interval_end out) j chrom_start in
  let* row := array_get index i in
  let* iindex := array_set (interval_index out) j row in
  Ok (chrom_start, Columns istart iend iindex).

(** The body of the outer loop for one row [i]. *)
Definition expand_row (start end_ index end_index : list Z) (step : Z)
    (i : Z) (out : columns) : result columns :=
  let* end_index_i := array_get end_index i in
  let* end_i := array_get end_ i in
  let* start_i := array_get start i in
  let first_index := wrap64 (end_index_i - wrap64 (end_i - start_i)) in
  let chrom_start := start_i in
  let* js := py_range first_index end_index_i step in
  let* st := for_each (expand_step index i) js (chrom_start, out) in
  Ok (snd st).

(** What one thread runs:
    [for i in range(cuda.threadIdx.x, start.size, cuda.blockDim.x)]. *)
Definition expand_interval (threadIdx blockDim : Z)
    (start end_ index end_index : list Z) (out : columns) (step : Z)
  : result columns :=
  let* rows := py_range threadIdx (Z.of_nat (length start)) blockDim in
  for_each (expand_row start end_ index end_index step) rows out.

(** [kernel.forall(ntasks)(args)]: nothing is launched for no task;
    otherwise [ceil(ntasks / tpb)] blocks of [tpb] threads run the kernel,
    [tpb] being the block size the driver's occupancy calculator picks.
    The kernel never reads [blockIdx], so every block repeats the same
    work.  The model runs the blocks, and the threads of a block, one
    after the other. *)
Definition block_threads (tpb : Z) : list Z := range_from 0 1 (Z.to_nat tpb).

Definition forall_launch (tpb ntasks : Z)
    (kernel : Z → Z → columns → result columns) (out : columns)
  : result columns :=
  if ntasks =? 0 then Ok out
  else
    let griddim := (ntasks + tpb - 1) / tpb in
    for_each (fun _block out =>
                for_each (fun tid out => kernel tid tpb out) (block_threads tpb) out)
             (range_from 0 1 (Z.to_nat griddim)) out.

(** ** Fragment lengths and their running sums *)

Definition sum_Z (l : list Z) : Z := foldr Z.add 0 l.

(** [end - start], row by row, as the kernel computes it. *)
Definition fragment_lengths (start end_ : list Z) : list Z :=
  zip_with (fun s e => e - s) start end_.

(** The sum of the first [i] entries. *)
Definition psum (l : list Z) (i : nat) : Z := sum_Z (take i l).

(** The inclusive cumulative sum, over the integers. *)
Fixpoint inclusive_cumsum_from (acc : Z) (l : list Z) : list Z :=
  match l with
  | [] => []
  | x :: l' => (acc + x) :: inclusive_cumsum_from (acc + x) l'
  end.
Definition inclusive_cumsum : list Z → list Z := inclusive_cumsum_from 0.

(** The kernel as [get_coverages] launches it, for a block size [tpb]. *)
Definition launch_expand_interval (tpb : Z)
    (start end_ index end_index : list Z) (out : columns) (step : Z)
  : result columns :=
  forall_launch tpb (Z.of_nat (length start))
    (fun tid bdim o => expand_interval tid bdim start end_ index end_index o step)
    out.

(** Row [i] has been expanded in [out]: for every base [k] of the fragment,
    slot [end_index[i] - len[i] + k] holds the unit interval
    [start[i] + k, start[i] + k + 1) and the row's index. *)
Definition row_expanded (start end_ index end_index : list Z) (out : columns)
    (i : nat) : Prop :=
  ∀ s e r ei k,
    start !! i = Some s → end_ !! i = Some e → index !! i = Some r →
    end_index !! i = Some ei → 0 <= k < e - s →
    interval_start out !! Z.to_nat (ei - (e - s) + k) = Some (s + k) ∧
    interval_end out !! Z.to_nat (ei - (e - s) + k) = Some (s + k + 1) ∧
    interval_index out !! Z.to_nat (ei - (e - s) + k) = Some r.

(** The same, with the row's index as an [int32] column stores it. *)
Definition row_stored (start end_ index end_index : list Z) (out : columns)
    (i : nat) : Prop :=
  ∀ s e r ei k,
    start !! i = Some s → end_ !! i = Some e → index !! i = Some r →
    end_index !! i = Some ei → 0 <= k < e - s →
    interval_start out !! Z.to_nat (ei - (e - s) + k) = Some (s + k) ∧
    interval_end out !! Z.to_nat (ei - (e - s) + k) = Some (s + k + 1) ∧
    interval_index out !! Z.to_nat (ei - (e - s) + k) = Some (wrap32 r).

(** The three columns agree at slot [j]. *)
Definition same_slot (out out' : columns) (j : nat) : Prop :=
  interval_start out' !! j = interval_start out !! j ∧
  interval_end out' !! j = interval_end out !! j ∧
  interval_index out' !! j = interval_index out !! j.

Definition same_size (out out' : columns) : Prop :=
  length (interval_start out') = length (interval_start out) ∧
  length (interval_end out') = length (interval_end out) ∧
  length (interval_index out') = length (interval_index out).

(** Every column has room for [n] slots. *)
Definition has_room (out : columns) (n : Z) : Prop :=
  n <= Z.of_nat (length (interval_start out)) ∧
  n <= Z.of_nat (length (interval_end out)) ∧
  n <= Z.of_nat (length (interval_index out)).

(** [body] run on [x] completes, keeps the rows that are expanded and
    expands the rows that [covers x] names, whenever [good x] and the
    columns have room for every fragment. *)
Definition fills (start end_ index : list Z) {A}
    (body : A → columns → result columns)
    (good : A → Prop) (covers : A → nat → Prop) : Prop :=
  ∀ x out,
    good x → has_room out (sum_Z (fragment_lengths start end_)) →
    ∃ out', body x out = Ok out' ∧ same_size out out' ∧
      (∀ i, row_stored start end_ index
              (inclusive_cumsum (fragment_lengths start end_)) out i →
            row_stored start end_ index
              (inclusive_cumsum (fragment_lengths start end_)) out' i) ∧
      (∀ i, covers x i →
            row_stored start end_ index
              (inclusive_cumsum (fragment_lengths start end_)) out' i).

(** ** Dataframes of [get_coverages] *)

(** A row of the [reads] dataframe: a fragment with its cell, its number
    in the query result, its length and the cluster of its cell. *)
Module Reads.
Record row := Row {
  chrom : string;
  start : Z;
  end_ : Z;
  cell : string;
  row_num : Z;
  len : Z;
  cluster : Z
}.
End Reads.

(** A row of [reads] once the columns [start] and [end] are dropped. *)
Module Meta.
Record row := Row {
  chrom : string;
  cell : string;
  row_num : Z;
  len : Z;
  cluster : Z
}.
End Meta.

(** A row of [expanded_coverage] after the merge with [reads]. *)
Module Merged.
Record row := Row {
  start : Z;
  end_ : Z;
  row_num : Z;
  chrom : string;
  cell : string;
  len : Z;
  cluster : Z
}.
End Merged.

(** A row of [summed_coverage]: the keys of a group and, in each other
    column, the number of rows of the group. *)
Module Summed.
Record row := Row {
  chrom : string;
  start : Z;
  end_ : Z;
  cluster : Z;
  row_num : Z;
  cell : Z;
  len : Z
}.
End Summed.

(** A numpy array of two dimensions. *)
Record array2 (V : Type) := Array2 {
  shape0 : nat;
  shape1 : nat;
  data : list (list V)
}.
Arguments Array2 {V} shape0 shape1 data.
Arguments shape0 {V} a.
Arguments shape1 {V} a.
Arguments data {V} a.

(** ** The store

    The dataframes that [get_coverages] receives, copies or changes in
    place are objects of a store; a location is an index into it. *)

Inductive frame :=
  | ReadsFrame (rows : list Reads.row)
  | MetaFrame (rows : list Meta.row)
  | ExpandedFrame (cols : columns).

Definition loc := nat.
Definition store := list frame.

Inductive outcome (A : Type) :=
  | Done (a : A) (σ : store)
  | Failed (e : exn) (σ : store)
  | Undef.
Arguments Done {A} a σ.
Arguments Failed {A} e σ.
Arguments Undef {A}.

Definition M (A : Type) : Type := store → outcome A.

Definition ret {A} (a : A) : M A := fun σ => Done a σ.

Definition bind {A B} (m : M A) (k : A → M B) : M B :=
  fun σ =>
    match m σ with
    | Done a σ' => k a σ'
    | Failed e σ' => Failed e σ'
    | Undef => Undef
    end.

Notation "'do' x '←' m ';' k" := (bind m (fun x => k))
  (at level 10, x pattern, m at level 100, k at level 200).

(** A computation without effect on the store. *)
Definition lift {A} (r : result A) : M A :=
  fun σ =>
    match r with
    | Ok a => Done a σ
    | Raised e => Failed e σ
    | Undefined => Undef
    end.

Definition new_frame (f : frame) : M loc := fun σ => Done (length σ) (σ ++ [f]).

Definition write_frame (l : loc) (f : frame) : M unit :=
  fun σ => Done tt (<[l := f]> σ).

(** Reading the columns of [reads] off an object that has them. *)
Definition reads_rows (l : loc) : M (list Reads.row) :=
  fun σ =>
    match σ !! l with
    | Some (ReadsFrame rows) => Done rows σ
    | _ => Failed KeyError σ
    end.

Definition meta_rows (l : loc) : M (list Meta.row) :=
  fun σ =>
    match σ !! l with
    | Some (MetaFrame rows) => Done rows σ
    | _ => Failed KeyError σ
    end.

Definition expanded_cols (l : loc) : M columns :=
  fun σ =>
    match σ !! l with
    | Some (ExpandedFrame cols) => Done cols σ
    | _ => Failed KeyError σ
    end.

(** ** Library operations used by [get_coverages] *)

(** [np.zeros(n)]: a negative size is a [ValueError], a size that does not
    fit a machine word an [OverflowError]. *)
Definition np_zeros (n : Z) : result (list Z) :=
  if n <? 0 then Raised ValueError
  else if 2 ^ 63 <=? n then Raised OverflowError
  else Ok (replicate (Z.to_nat n) 0).

(** [np.zeros(shape=(r, c))]. *)
Definition np_zeros2 (r : nat) (c : Z) : result (array2 Z) :=
  let* row := np_zeros c in
  Ok (Array2 r (Z.to_nat c) (replicate r row)).

(** [sort_values(by='row_num').reset_index(drop=True)]: the rows in
    ascending order of [row_num]. *)
Fixpoint insert_by_row_num (r : Reads.row) (l : list Reads.row) : list Reads.row :=
  match l with
  | [] => [r]
  | r' :: l' =>
      if Reads.row_num r <? Reads.row_num r' then r :: l
      else r' :: insert_by_row_num r l'
  end.

Definition sort_by_row_num (l : list Reads.row) : list Reads.row :=
  foldr insert_by_row_num [] l.

(** [sorted(np.unique(values))]: the distinct values in ascending order. *)
Fixpoint insert_unique (x : Z) (l : list Z) : list Z :=
  match l with
  | [] => [x]
  | y :: l' =>
      if x <? y then x :: l
      else if x =? y then l
      else y :: insert_unique x l'
  end.

Definition sorted_unique (l : list Z) : list Z := foldr insert_unique [] l.

(** [Series.cumsum()]: the running sum, held in 64 bits. *)
Fixpoint cumsum_from (acc : Z) (l : list Z) : list Z :=
  match l with
  | [] => []
  | x :: l' => wrap64 (acc + x) :: cumsum_from (wrap64 (acc + x)) l'
  end.
Definition cumsum : list Z → list Z := cumsum_from 0.

(** [reads.drop(['start', 'end'])] on one row. *)
Definition drop_coords (r : Reads.row) : Meta.row :=
  Meta.Row (Reads.chrom r) (Reads.cell r) (Reads.row_num r) (Reads.len r)
           (Reads.cluster r).

(** The rows of the three columns of [expanded_coverage]. *)
Definition expanded_rows (cols : columns) : list (Z * Z * Z) :=
  zip (zip (interval_start cols) (interval_end cols)) (interval_index cols).

(** [expanded_coverage.merge(reads, on='row_num')]: every pair of a row of
    [expanded_coverage] and a row of [reads] with the same [row_num]. *)
Definition merge_on_row_num (left : list (Z * Z * Z)) (right : list Meta.row)
  : list Merged.row :=
  flat_map
    (fun '(s, e, n) =>
       map (fun m => Merged.Row s e n (Meta.chrom m) (Meta.cell m)
                                (Meta.len m) (Meta.cluster m))
           (filter (fun m => Meta.row_num m = n) right))
    left.

(** [groupby(['chrom', 'start', 'end', 'cluster'], as_index=False).count()]:
    one row per distinct key, holding the number of rows with that key.
    cudf does not fix the order of the rows of a merge or of a group-by;
    the model lists the groups in the order [remove_dups] leaves the keys. *)
Definition group_key (r : Merged.row) : string * Z * Z * Z :=
  (Merged.chrom r, Merged.start r, Merged.end_ r, Merged.cluster r).

Definition group_size (rows : list Merged.row) (k : string * Z * Z * Z) : Z :=
  Z.of_nat (length (filter (fun r => group_key r = k) rows)).

Definition groupby_count (rows : list Merged.row) : list Summed.row :=
  map (fun '(c, s, e, cl) =>
         let n := group_size rows (c, s, e, cl) in
         Summed.Row c s e cl n n n)
      (remove_dups (map group_key rows)).

(** [x[i][coords] = values]: the assignments in order, a later one to the
    same position replacing an earlier one. *)
Definition assign_at (row : list Z) (coords values : list Z) : list Z :=
  foldl (fun row '(c, v) => <[Z.to_nat c := v]> row) row (zip coords values).

(** The body of [for (i, cluster) in enumerate(clusters)].  The
    coordinates are computed in 64 bits. *)
Definition fill_cluster (summed_coverage : list Summed.row) (start end_ pad : Z)
    (x : list (list Z)) (i : nat) (cluster : Z) : list (list Z) :=
  let df_group := filter (fun g => Summed.cluster g = cluster) summed_coverage in
  let coords := map (fun g => wrap64 (wrap64 (Summed.start g - start) + pad)) df_group in
  let values := map Summed.row_num df_group in
  let ind := fun c => bool_decide (0 <= c) && bool_decide (c < end_ - start + 2 * pad) in
  let selected := filter (fun cv => ind (fst cv) = true) (zip coords values) in
  match x !! i with
  | Some row => <[i := assign_at row (map fst selected) (map snd selected)]> x
  | None => x
  end.

(** The rows of [x] that [get_coverages] returns, from the content of
    [summed_coverage]. *)
Definition fill_clusters (summed_coverage : list Summed.row) (start end_ pad : Z)
    (clusters : list Z) (x : list (list Z)) : list (list Z) :=
  foldl (fun x '(i, cluster) => fill_cluster summed_coverage start end_ pad x i cluster)
        x (imap (fun i c => (i, c)) clusters).

(** ** [get_coverages] *)

(** [tpb] is the block size of the kernel launch. *)
Definition get_coverages (tpb : Z) (reads_orig : loc) (chrom : string)
    (start end_ pad : Z) : M (array2 Z) :=
  (* reads = reads_orig.copy() *)
  do rows ← reads_rows reads_orig;
  do reads ← new_frame (ReadsFrame rows);
  (* reads = reads.sort_values(by='row_num').reset_index(drop=True) *)
  do rows ← reads_rows reads;
  do reads ← new_frame (ReadsFrame (sort_by_row_num rows));
  (* List all clusters *)
  do rows ← reads_rows reads;
  let clusters := sorted_unique (map Reads.cluster rows) in
  let num_clusters := length clusters in
  (* Get total window length *)
  let window_size := end_ - start + 2 * pad in
  (* Create expanded coverage dataframe *)
  let expanded_coverage_size := wrap64 (sum_Z (map Reads.len rows)) in
  do c_start ← lift (np_zeros window_size);
  do c_end ← lift (np_zeros window_size);
  do c_row_num ← lift (np_zeros window_size);
  do expanded_coverage ← new_frame (ExpandedFrame (Columns c_start c_end c_row_num));
  do cols ← expanded_cols expanded_coverage;
  do cols ← lift (launch_expand_interval tpb
                    (map Reads.start rows) (map Reads.end_ rows)
                    (map Reads.row_num rows) (cumsum (map Reads.len rows))
                    cols 1);
  do _ ← write_frame expanded_coverage (ExpandedFrame cols);
  (* reads.drop(['start', 'end'], inplace=True) *)
  do rows ← reads_rows reads;
  do _ ← write_frame reads (MetaFrame (map drop_coords rows));
  (* expanded_coverage = expanded_coverage.merge(reads, on='row_num') *)
  do cols ← expanded_cols expanded_coverage;
  do meta ← meta_rows reads;
  let merged := merge_on_row_num (expanded_rows cols) meta in
  (* Get summed coverage at each position *)
  let summed_coverage := groupby_count merged in
  (* Create empty array *)
  do x ← lift (np_zeros2 num_clusters window_size);
  (* Iterate over clusters to add coverage values *)
  ret (Array2 (shape0 x) (shape1 x)
         (fill_clusters summed_coverage start end_ pad clusters (data x))).

(** ** The coverage a track should hold *)

(** The number of fragments of cluster [c] whose half-open interval
    [start, end) contains the coordinate [g]. *)
Definition coverage_at (rows : list Reads.row) (c g : Z) : Z :=
  Z.of_nat (length (filter
    (fun r => Reads.cluster r = c ∧ Reads.start r <= g < Reads.end_ r) rows)).

(** A row of [reads] as [read_fragments] makes it: 32-bit coordinates and
    a length [end - start] that is not negative. *)
Definition fragment_row (r : Reads.row) : Prop :=
  is_int32 (Reads.start r) ∧ is_int32 (Reads.end_ r) ∧
  Reads.len r = Reads.end_ r - Reads.start r ∧ 0 <= Reads.len r.

(** ** What a computation guarantees

    [wp m Q E U σ]: run from [σ], [m] returns a value and a store that
    satisfy [Q], or raises in a store that satisfies [E]; [U] holds if the
    run is undefined. *)
Definition wp {A} (m : M A) (Q : A → store → Prop) (E : store → Prop) (U : Prop)
    (σ : store) : Prop :=
  match m σ with
  | Done a σ' => Q a σ'
  | Failed _ σ' => E σ'
  | Undef => U
  end.

(** ** numpy operations used by [reshape_with_padding] and [atacworks_denoise] *)

(** A numpy array of three dimensions. *)
Record array3 (V : Type) := Array3 {
  dim0 : nat;
  dim1 : nat;
  dim2 : nat;
  cells : list (list (list V))
}.
Arguments Array3 {V} dim0 dim1 dim2 cells.
Arguments dim0 {V} a.
Arguments dim1 {V} a.
Arguments dim2 {V} a.
Arguments cells {V} a.

(** [data] holds [shape0] rows of [shape1] values. *)
Definition well_shaped {V} (a : array2 V) : Prop :=
  length (data a) = shape0 a ∧ Forall (fun row => length row = shape1 a) (data a).

(** A bound of a slice, brought inside [0, n]: a negative bound counts
    from the end. *)
Definition clip_bound (n x : Z) : Z :=
  if x <? 0 then Z.max (x + n) 0 else Z.min x n.

(** [l[lo:hi]]. *)
Definition py_slice {V} (l : list V) (lo hi : Z) : list V :=
  let n := Z.of_nat (length l) in
  take (Z.to_nat (clip_bound n hi - clip_bound n lo)) (drop (Z.to_nat (clip_bound n lo)) l).

(** [a[i, lo:hi]]; the row index is one a loop over [range(shape[0])] gives. *)
Definition row_slice {V} (a : array2 V) (i : nat) (lo hi : Z) : list V :=
  match data a !! i with
  | Some row => py_slice row lo hi
  | None => []
  end.

(** [np.zeros(shape=(r, c))] for values of type [V]. *)
Definition np_zeros_shape {V} (zero : V) (r c : Z) : result (array2 V) :=
  if (r <? 0) || (c <? 0) then Raised ValueError
  else if (2 ^ 63 <=? r) || (2 ^ 63 <=? c) then Raised OverflowError
  else Ok (Array2 (Z.to_nat r) (Z.to_nat c)
             (replicate (Z.to_nat r) (replicate (Z.to_nat c) zero))).

(** [np.stack(rows)] of one-dimensional arrays: there must be one at
    least, and all of one length. *)
Definition np_stack {V} (rows : list (list V)) : result (array2 V) :=
  match rows with
  | [] => Raised ValueError
  | r :: rs =>
      if forallb (fun r' => (length r' =? length r)%nat) rs
      then Ok (Array2 (length rows) (length r) rows)
      else Raised ValueError
  end.

(** Broadcasting an array to the shape [(r, c)]: a dimension of the array
    must be the one asked for, or 1. *)
Definition broadcast_row {V} (c : nat) (row : list V) : result (list V) :=
  if (length row =? c)%nat then Ok row
  else match row with
       | [v] => Ok (replicate c v)
       | _ => Raised ValueError
       end.

Fixpoint broadcast_rows {V} (c : nat) (rows : list (list V)) : result (list (list V)) :=
  match rows with
  | [] => Ok []
  | row :: rows' =>
      let* row' := broadcast_row c row in
      let* rows'' := broadcast_rows c rows' in
      Ok (row' :: rows'')
  end.

Definition broadcast_to {V} (r c : nat) (value : array2 V) : result (list (list V)) :=
  if negb ((shape1 value =? c)%nat || (shape1 value =? 1)%nat) then Raised ValueError
  else
    let* rows := broadcast_rows c (data value) in
    if (shape0 value =? r)%nat then Ok rows
    else match rows with
         | [row] => Ok (replicate r row)
         | _ => Raised ValueError
         end.

(** [target[lo:hi, :] = value]. *)
Definition assign_rows {V} (target : array2 V) (lo hi : Z) (value : array2 V)
  : result (array2 V) :=
  let n := Z.of_nat (shape0 target) in
  let first := Z.to_nat (clip_bound n lo) in
  let count := Z.to_nat (clip_bound n hi - clip_bound n lo) in
  let* rows := broadcast_to count (shape1 target) value in
  Ok (Array2 (shape0 target) (shape1 target)
        (take first (data target) ++ rows ++ drop (first + count) (data target))).

(** [int(a / b)]: the quotient, rounded towards zero.  (The source goes
    through a float; the two agree while [a] is below 2^53.) *)
Definition int_div (a b : Z) : result Z :=
  if b =? 0 then Raised ZeroDivisionError else Ok (Z.quot a b).

(** ** [reshape_with_padding] *)

Definition reshape_with_padding {V} (zero : V) (coverage : array2 V)
    (interval_size pad : Z) : result (array2 V) :=
  let num_clusters := Z.of_nat (shape0 coverage) in
  let padded_interval_size := interval_size + 2 * pad in
  let* n_intervals := int_div (Z.of_nat (shape1 coverage) - 2 * pad) interval_size in
  let* interval_starts :=
    if n_intervals =? 1 then Ok [0]
    else py_range 0 (Z.of_nat (shape1 coverage) - padded_interval_size)
                  (interval_size + pad) in
  let* reshaped_coverage :=
    np_zeros_shape zero (num_clusters * n_intervals) padded_interval_size in
  for_each
    (fun i reshaped_coverage =>
       let* reshaped_cluster_coverage :=
         np_stack (map (fun start =>
                          row_slice coverage i start (start + padded_interval_size))
                       interval_starts) in
       assign_rows reshaped_coverage
         (Z.of_nat i * n_intervals) ((Z.of_nat i + 1) * n_intervals)
         reshaped_cluster_coverage)
    (seq 0 (shape0 coverage)) reshaped_coverage.

(** The windows the padded intervals are: window [j] of a row starts at
    [j * interval_size] and is [interval_size + 2 * pad] long. *)
Definition padded_window {V} (coverage : array2 V) (interval_size pad : Z)
    (i j : nat) : list V :=
  row_slice coverage i (Z.of_nat j * interval_size)
            (Z.of_nat j * interval_size + interval_size + 2 * pad).

(** ** [atacworks_denoise] *)

(** [np.stack(heads, axis=-1)]: the heads must have one shape; cell
    [(n, p, k)] of the result is cell [(n, p)] of head [k]. *)
Definition same_shape {V} (a b : array2 V) : bool :=
  (shape0 a =? shape0 b)%nat && (shape1 a =? shape1 b)%nat.

Definition stack_last {V} (heads : list (array2 V)) : result (array3 V) :=
  match heads with
  | [] => Raised ValueError
  | h :: hs =>
      if forallb (same_shape h) hs then
        Ok (Array3 (shape0 h) (shape1 h) (length heads)
              (map (fun n =>
                      map (fun p =>
                             omap (fun head =>
                                     match data head !! n with
                                     | Some row => row !! p
                                     | None => None
                                     end) heads)
                          (seq 0 (shape1 h)))
                   (seq 0 (shape0 h))))
      else Raised ValueError
  end.

(** [pred[:, center, :]] for a list of positions along the second axis;
    a position outside the axis is an [IndexError]. *)
Definition take_positions {V} (a : array3 V) (center : list Z) : result (array3 V) :=
  if forallb (fun p => in_bounds (seq 0 (dim1 a)) p) center then
    Ok (Array3 (dim0 a) (length center) (dim2 a)
          (map (fun plane =>
                  omap (fun p => plane !! Z.to_nat (norm_index (seq 0 (dim1 a)) p)) center)
               (cells a)))
  else Raised IndexError.

(** Rows of [c] values cut from a flat list. *)
Fixpoint chunks {V} (fuel c : nat) (l : list V) : list (list V) :=
  match fuel with
  | O => []
  | S fuel' => take c l :: chunks fuel' c (drop c l)
  end.

(** [pred.reshape((a, b, c))] where [a] and [c] are sizes of arrays and
    [b] is computed: [b = -1] asks numpy to infer the dimension, another
    negative [b] or a shape of another size is a [ValueError]. *)
Definition reshape3 {V} (x : array3 V) (a : nat) (b : Z) (c : nat) : result (array3 V) :=
  let flat := concat (concat (cells x)) in
  let size := length flat in
  let* b' :=
    if b =? -1 then
      (if ((a * c =? 0)%nat) then Raised ValueError
       else if (size mod (a * c) =? 0)%nat then Ok (size / (a * c))%nat
       else Raised ValueError)
    else if b <? 0 then Raised ValueError
    else Ok (Z.to_nat b) in
  if (a * b' * c =? size)%nat then
    Ok (Array3 a b' c (chunks a b' (chunks (a * b') c flat)))
  else Raised ValueError.

(** [model] stands for the conversion to a tensor, the forward pass of the
    network and the conversion of each output head to a numpy array. *)
Definition atacworks_denoise {V} (zero : V) (coverage : array2 V)
    (model : array2 V → list (array2 V)) (interval_size pad : Z)
  : result (array3 V) :=
  let* input_arr := reshape_with_padding zero coverage interval_size pad in
  let pred := model input_arr in
  let* pred := stack_last pred in
  let* center := py_range pad (Z.of_nat (dim1 pred) - pad) 1 in
  let* pred := take_positions pred center in
  reshape3 pred (shape0 coverage) (Z.of_nat (shape1 coverage) - 2 * pad) (dim2 pred).

(** ** Text *)

Definition tab : ascii := ascii_of_nat 9.
Definition newline : ascii := ascii_of_nat 10.
Definition carriage_return : ascii := ascii_of_nat 13.

(** The characters [str.strip()] removes, among the code points below 256. *)
Definition is_space (c : ascii) : bool :=
  let n := nat_of_ascii c in
  ((9 <=? n) && (n <=? 13) || (28 <=? n) && (n <=? 32) || (n =? 133) || (n =? 160))%nat.

Fixpoint lstrip (s : string) : string :=
  match s with
  | EmptyString => EmptyString
  | String c s' => if is_space c then lstrip s' else s
  end.

Fixpoint rstrip (s : string) : string :=
  match s with
  | EmptyString => EmptyString
  | String c s' =>
      match rstrip s' with
      | EmptyString => if is_space c then EmptyString else String c EmptyString
      | r => String c r
      end
  end.

(** [s.strip()]. *)
Definition strip (s : string) : string := lstrip (rstrip s).

(** [s.split(sep)] for a separator of one character: the fields between
    the separators, one field for a text without separator. *)
Fixpoint split_on (sep : ascii) (s : string) : list string :=
  match s with
  | EmptyString => [EmptyString]
  | String c s' =>
      if Ascii.eqb c sep then EmptyString :: split_on sep s'
      else match split_on sep s' with
           | f :: fs => String c f :: fs
           | [] => [String c EmptyString]
           end
  end.

(** The fields of a record joined by tabs, as a line of the file has them. *)
Fixpoint join_tab (fields : list string) : string :=
  match fields with
  | [] => EmptyString
  | [f] => f
  | f :: fs => (f ++ String tab (join_tab fs))%string
  end.

(** A region [chrom:start-end]; ["%s:%d-%d" % ...] and ['{}:{}-{}'.format(...)]
    print an integer the same way. *)
Definition format_region (chrom : string) (start end_ : Z) : string :=
  (chrom ++ ":" ++ pretty start ++ "-" ++ pretty end_)%string.

(** ** [query_fragments] and [tabix_query]

    The tabix index is read by two programs that are not part of this
    code: the pytabix library and the [tabix] executable.
    - [querys file region] is what iterating over
      [tabix.open(file).querys(region)] yields, a list of columns per
      record, or the exception the library raises;
    - [tabix_stdout file region] is the standard output of
      [tabix -f file region], line by line, each line with its end. *)

Definition query_fragments
    (querys : string → string → result (list (list string)))
    (fragment_file chrom : string) (start end_ : Z) : result (list (list string)) :=
  let* results := querys fragment_file (format_region chrom start end_) in
  Ok (foldl (fun records record => records ++ [record]) [] results).

Definition tabix_query (tabix_stdout : string → string → list string)
    (filename chrom : string) (start end_ : Z) : list (list string) :=
  let query := format_region chrom start end_ in
  foldl (fun records line => records ++ [split_on tab (strip line)]) []
        (tabix_stdout filename query).

(** ** [read_fragments] *)

(** The dataframe [read_fragments] returns, column by column. *)
Module Fragments.
Record frame := Frame {
  chrom : list string;
  start : list Z;
  end_ : list Z;
  cell : list string;
  row_num : list Z;
  len : list Z
}.
End Fragments.

(** [cudf.DataFrame(data=records, columns=names)]: one column per name,
    holding that field of every record; the records must have as many
    fields as there are names. *)
Definition data_frame (records : list (list string)) (names : list string)
  : result (list (list string)) :=
  if forallb (fun record => (length record =? length names)%nat) records
  then Ok (imap (fun k _ => map (fun record => default EmptyString (record !! k)) records)
                names)
  else Raised ValueError.

(** An integer in decimal, with an optional sign. *)
Definition digit_value (c : ascii) : option Z :=
  let n := nat_of_ascii c in
  if ((48 <=? n) && (n <=? 57))%nat then Some (Z.of_nat n - 48) else None.

Fixpoint parse_digits (acc : Z) (s : string) : option Z :=
  match s with
  | EmptyString => Some acc
  | String c s' =>
      match digit_value c with
      | Some d => parse_digits (10 * acc + d) s'
      | None => None
      end
  end.

Definition parse_int (s : string) : option Z :=
  match s with
  | EmptyString => None
  | String c s' =>
      if Ascii.eqb c "-" then
        match s' with
        | EmptyString => None
        | _ => Z.opp <$> parse_digits 0 s'
        end
      else if Ascii.eqb c "+" then
        match s' with
        | EmptyString => None
        | _ => parse_digits 0 s'
        end
      else parse_digits 0 s
  end.

(** [astype(np.int32)] on a column of strings: every string must be an
    integer; its value is kept in 32 bits. *)
Fixpoint astype_int32 (col : list string) : result (list Z) :=
  match col with
  | [] => Ok []
  | s :: col' =>
      match parse_int s with
      | Some z => let* rest := astype_int32 col' in Ok (wrap32 z :: rest)
      | None => Raised ValueError
      end
  end.

(** [tabix_stdout] is the [tabix] executable, as for [tabix_query]. *)
Definition read_fragments (tabix_stdout : string → string → list string)
    (chrom : string) (start end_ : Z) (fragment_file : string) (pad : Z)
  : result Fragments.frame :=
  (* Create a DF from the output of tabix query *)
  let* reads :=
    data_frame (tabix_query tabix_stdout fragment_file chrom (start - pad) (end_ + pad))
               ["chrom"; "start"; "end"; "cell"; "duplicate"]%string in
  (* reads = reads.iloc[:, :4] *)
  match take 4 reads with
  | [c_chrom; c_start; c_end; c_cell] =>
      (* reads['row_num'] = reads.index *)
      let c_row_num := range_from 0 1 (length c_chrom) in
      (* reads = reads.astype({"start": np.int32, "end": np.int32}) *)
      let* c_start := astype_int32 c_start in
      let* c_end := astype_int32 c_end in
      (* reads['len'] = reads['end'] - reads['start'] *)
      let c_len := zip_with (fun e s => wrap32 (e - s)) c_end c_start in
      Ok (Fragments.Frame c_chrom c_start c_end c_cell c_row_num c_len)
  | _ => Raised KeyError
  end.

(** ** [count_fragments] *)

(** The texts [read_csv] reads as a missing value. *)
Definition na_values : list string :=
  [""; "#N/A"; "#N/A N/A"; "#NA"; "-1.#IND"; "-1.#QNAN"; "-NaN"; "-nan";
   "1.#IND"; "1.#QNAN"; "<NA>"; "N/A"; "NA"; "NULL"; "NaN"; "None"; "n/a";
   "nan"; "null"]%string.

(** A value of the column that [read_csv] makes of the fourth field.
    [read_csv] is given no type for the column and infers one: the
    column holds integers where every field is one, text where a field is
    neither a number nor a truth value.  [OtherCode] stands for a value of
    a column of another type (floating-point numbers, truth values), named
    by a number that equal values share. *)
Inductive barcode :=
  | TextCode (s : string)
  | IntCode (z : Z)
  | OtherCode (n : Z).

#[global] Instance barcode_eq_dec : EqDecision barcode.
Proof. solve_decision. Defined.

(** The fourth field of a record, [None] where the field is missing or
    reads as a missing value. *)
Definition barcode_field (record : list string) : option string :=
  match record !! 3%nat with
  | Some field => if bool_decide (field ∈ na_values) then None else Some field
  | None => None
  end.

(** A decimal integer, with an optional sign, that fits 64 bits. *)
Definition int64_literal (s : string) : option Z :=
  match parse_int s with
  | Some z => if (- 2 ^ 63 <=? z) && (z <? 2 ^ 63) then Some z else None
  | None => None
  end.

(** The characters a number is written with: white space, digits, signs,
    the decimal point, the exponent mark, and the letters of [inf],
    [infinity] and [nan] in either case. *)
Definition numeric_character (c : ascii) : bool :=
  is_space c || bool_decide (is_Some (digit_value c))
  || bool_decide (c ∈ list_ascii_of_string "+-.eEiInNfFtTyYaA").

(** The texts [read_csv] reads as a truth value. *)
Definition truth_values : list string :=
  ["True"; "TRUE"; "true"; "False"; "FALSE"; "false"]%string.

(** A field that is neither a number nor a truth value: it has a character
    that no number has, and is not one of the truth values. *)
Definition is_text (s : string) : bool :=
  negb (forallb numeric_character (list_ascii_of_string s))
  && negb (bool_decide (s ∈ truth_values)).

(** The type inference of [read_csv] on a column.  [convert] is what the
    library makes of a column that it may read as floating-point numbers
    or truth values. *)
Definition infer_column (convert : list (option string) → list (option barcode))
    (fields : list (option string)) : list (option barcode) :=
  if forallb (fun field => bool_decide (is_Some (field ≫= int64_literal))) fields
  then map (fun field => IntCode <$> (field ≫= int64_literal)) fields
  else if existsb (fun field => from_option is_text false field) fields
  then map (fun field => TextCode <$> field) fields
  else convert fields.

(** [pd.read_csv(file, sep='\t', header=None, usecols=[3])] on the records
    of the file: the column of the fourth fields, with the type that
    [read_csv] infers for it. *)
Definition read_barcodes (convert : list (option string) → list (option barcode))
    (file : list (list string)) : list (option barcode) :=
  infer_column convert (map barcode_field file).

(** A row of the table [count_fragments] returns. *)
Record barcode_count := BarcodeCount {
  cell : barcode;
  fragments : Z
}.

Definition occurrences (b : barcode) (values : list barcode) : Z :=
  Z.of_nat (length (filter (fun v => v = b) values)).

(** Rows by descending count, as [value_counts] sorts them. *)
Fixpoint insert_by_count (r : barcode_count) (l : list barcode_count)
  : list barcode_count :=
  match l with
  | [] => [r]
  | r' :: l' =>
      if fragments r' <? fragments r then r :: l
      else r' :: insert_by_count r l'
  end.

(** [Series.value_counts()]: the distinct values that are not missing,
    each with the number of times it occurs, the most frequent first. *)
Definition value_counts (col : list (option barcode)) : list barcode_count :=
  let values := omap id col in
  foldr insert_by_count []
        (map (fun b => BarcodeCount b (occurrences b values)) (remove_dups values)).

(** [reset_index()] and the renaming of the columns to ['cell'] and
    ['fragments'] are the names of the fields of [barcode_count]. *)
Definition count_fragments (convert : list (option string) → list (option barcode))
    (fragment_file : list (list string)) : list barcode_count :=
  let fragment_barcodes := read_barcodes convert fragment_file in
  let barcode_counts := value_counts fragment_barcodes in
  barcode_counts.



(** ** The rows [read_fragments] is to return *)

(** A row of the dataframe of [read_fragments]. *)
Module Fragment.
Record row := Row {
  chrom : string;
  start : Z;
  end_ : Z;
  cell : string;
  row_num : Z;
  len : Z
}.
End Fragment.

(** The rows of a dataframe held column by column. *)
Definition frame_rows (reads : Fragments.frame) : list Fragment.row :=
  zip_with (fun f x => f x)
    (zip_with (fun f x => f x)
       (zip_with (fun f x => f x)
          (zip_with (fun f x => f x)
             (zip_with Fragment.Row (Fragments.chrom reads) (Fragments.start reads))
             (Fragments.end_ reads))
          (Fragments.cell reads))
       (Fragments.row_num reads))
    (Fragments.len reads).

(** A record of the fragment file: chromosome, start, end, barcode and
    duplicate count, start and end being integers. *)
Definition fragment_record (record : list string) : Prop :=
  ∃ c s e b d zs ze,
    record = [c; s; e; b; d] ∧ parse_int s = Some zs ∧ parse_int e = Some ze.

(** The row that record number [i] of the query result becomes: its first
    four fields, start and end as 32-bit integers, its number and its
    length.  A field that is missing or not a number reads as empty or 0. *)
Definition record_row (i : nat) (record : list string) : Fragment.row :=
  let s := wrap32 (default 0 (record !! 1%nat ≫= parse_int)) in
  let e := wrap32 (default 0 (record !! 2%nat ≫= parse_int)) in
  Fragment.Row (default EmptyString (record !! 0%nat)) s e
               (default EmptyString (record !! 3%nat))
               (Z.of_nat i) (wrap32 (e - s)).

(** ** Stores that stay inside the columns *)

Definition not_raised {A} (r : result A) : Prop :=
  match r with
  | Raised _ => False
  | _ => True
  end.

(** The slots of row [i], if it has any, end inside the first column. *)
Definition row_fits (start end_ : list Z) (out : columns) (i : nat) : Prop :=
  ∀ s e,
    start !! i = Some s → end_ !! i = Some e → s < e →
    psum (fragment_lengths start end_) (S i) <= Z.of_nat (length (interval_start out)).

(** [body] does not raise, and where it completes on [x] the rows that
    [covers x] names fit the columns, whose size it keeps. *)
Definition checks (start end_ : list Z) {A}
    (body : A → columns → result columns)
    (good : A → Prop) (covers : A → nat → Prop) : Prop :=
  ∀ x out,
    good x →
    not_raised (body x out) ∧
    ∀ out', body x out = Ok out' →
      same_size out out' ∧ ∀ i, covers x i → row_fits start end_ out i.

(** ** What a launch leaves in the columns *)

(** The unit intervals of a fragment that starts at [s] and is [len] long,
    each with the row index [r]. *)
Definition unit_intervals (s len r : Z) : list (Z * Z * Z) :=
  map (fun k => (s + Z.of_nat k, s + Z.of_nat k + 1, r)) (seq 0 (Z.to_nat len)).

(** The unit intervals of all fragments, row after row, the row index as
    an [int32] column holds it. *)
Fixpoint expansion (start end_ index : list Z) : list (Z * Z * Z) :=
  match start, end_, index with
  | s :: start', e :: end', r :: index' =>
      unit_intervals s (e - s) (wrap32 r) ++ expansion start' end' index'
  | _, _, _ => []
  end.

(** The columns agree from slot [t] on. *)
Definition same_from (t : Z) (out out' : columns) : Prop :=
  ∀ j : nat, t <= Z.of_nat j → same_slot out out' j.

(** ** The merged rows of a dataframe of fragments *)

(** One row per base of every fragment, with the fragment's columns: what
    the merge of the expanded fragments with [reads] is to hold. *)
Definition merged_rows (rows : list Reads.row) : list Merged.row :=
  flat_map
    (fun r =>
       map (fun k => Merged.Row (Reads.start r + Z.of_nat k)
                                (Reads.start r + Z.of_nat k + 1)
                                (Reads.row_num r) (Reads.chrom r) (Reads.cell r)
                                (Reads.len r) (Reads.cluster r))
           (seq 0 (Z.to_nat (Reads.len r))))
    rows.

(** A row of [reads] with a 32-bit row number. *)
Definition numbered_row (r : Reads.row) : Prop := is_int32 (Reads.row_num r).


(** The cells that [fill_cluster] assigns for a cluster: the coordinate and
    the value of every group of the cluster that falls inside the window. *)
Definition cluster_cells (summed_coverage : list Summed.row) (start end_ pad : Z)
    (cluster : Z) : list (Z * Z) :=
  filter (fun cv => (bool_decide (0 <= fst cv)
                     && bool_decide (fst cv < end_ - start + 2 * pad)) = true)
    (zip (map (fun g => wrap64 (wrap64 (Summed.start g - start) + pad))
              (filter (fun g => Summed.cluster g = cluster) summed_coverage))
         (map Summed.row_num
              (filter (fun g => Summed.cluster g = cluster) summed_coverage))).

(** ** The bases that a row of the array shows *)



(* ===================================================================== *)
(** * Part II: properties                                                *)
(* ===================================================================== *)

Lemma wrap_small (w x : Z) :
  0 < w → - 2 ^ (w - 1) <= x < 2 ^ (w - 1) → wrap w x = x.
Proof.
  intros Hw Hx. unfold wrap.
  assert (E : 2 ^ w = 2 * 2 ^ (w - 1)).
  { rewrite <- Z.pow_succ_r by lia. f_equal. lia. }
  rewrite Z.mod_small by lia. lia.
Qed.

Lemma wrap32_small (x : Z) : is_int32 x → wrap32 x = x.
Proof. intros H. apply wrap_small; [lia | exact H]. Qed.

Lemma wrap64_small (x : Z) : is_int64 x → wrap64 x = x.
Proof. intros H. apply wrap_small; [lia | exact H]. Qed.

Lemma int32_int64 (x : Z) : is_int32 x → is_int64 x.
Proof. unfold is_int32, is_int64. lia. Qed.

(** ** [for_each] and [range] *)

Lemma for_each_app {A S} (body : A → S → result S) (xs ys : list A) (s : S) :
  for_each body (xs ++ ys) s = let* s' := for_each body xs s in for_each body ys s'.
Proof.
  revert s. induction xs as [|x xs IH]; intros s; simpl; [done|].
  destruct (body x s); simpl; auto.
Qed.

Lemma range_from_S (lo step : Z) (n : nat) :
  range_from lo step (S n) = lo :: range_from (lo + step) step n.
Proof.
  unfold range_from. simpl. f_equal; [lia|].
  rewrite <- seq_shift, map_map. apply map_ext. intros k. lia.
Qed.

Lemma range_from_lookup (lo step : Z) (n k : nat) :
  (k < n)%nat → range_from lo step n !! k = Some (lo + Z.of_nat k * step).
Proof.
  intros Hk. unfold range_from. rewrite list_lookup_fmap.
  rewrite lookup_seq_lt by done. done.
Qed.

Lemma elem_of_range_from (lo step : Z) (n : nat) (x : Z) :
  x ∈ range_from lo step n ↔ ∃ k, (k < n)%nat ∧ x = lo + Z.of_nat k * step.
Proof.
  unfold range_from. rewrite list_elem_of_fmap. split.
  - intros (k & -> & Hk). apply elem_of_seq in Hk. exists k. split; [lia | done].
  - intros (k & Hk & ->). exists k. split; [done|]. apply elem_of_seq. lia.
Qed.

Lemma py_range_unit (lo hi : Z) :
  lo <= hi → py_range lo hi 1 = Ok (range_from lo 1 (Z.to_nat (hi - lo))).
Proof.
  intros H. unfold py_range, range_len. simpl.
  destruct (lo <? hi) eqn:E.
  - rewrite Z.div_1_r. do 2 f_equal. lia.
  - apply Z.ltb_ge in E. do 2 f_equal. lia.
Qed.

(** ** Device arrays *)

Lemma in_bounds_true {A} (a : list A) (j : Z) :
  0 <= j < Z.of_nat (length a) → in_bounds a j = true ∧ norm_index a j = j.
Proof.
  intros H. unfold in_bounds, norm_index.
  destruct (j <? 0) eqn:E; [apply Z.ltb_lt in E; lia|].
  split; [|done]. apply andb_true_iff. split; [apply Z.leb_le | apply Z.ltb_lt]; lia.
Qed.

Lemma array_get_lookup (a : list Z) (j v : Z) :
  0 <= j → a !! Z.to_nat j = Some v → array_get a j = Ok v.
Proof.
  intros Hj Hv. unfold array_get.
  destruct (in_bounds_true a j) as [-> ->].
  { apply lookup_lt_Some in Hv. lia. }
  by rewrite Hv.
Qed.

Lemma array_set_in (a : list Z) (j v : Z) :
  0 <= j < Z.of_nat (length a) → is_int32 v →
  array_set a j v = Ok (<[Z.to_nat j := v]> a).
Proof.
  intros Hj Hv. unfold array_set.
  destruct (in_bounds_true a j) as [-> ->]; [done|].
  by rewrite wrap32_small.
Qed.

Lemma array_set_wrap (a : list Z) (j v : Z) :
  0 <= j < Z.of_nat (length a) →
  array_set a j v = Ok (<[Z.to_nat j := wrap32 v]> a).
Proof.
  intros Hj. unfold array_set. by destruct (in_bounds_true a j) as [-> ->].
Qed.

(** ** The inner loop of [expand_interval] *)

Lemma has_room_same_size (out out' : columns) (n : Z) :
  same_size out out' → has_room out n → has_room out' n.
Proof. unfold same_size, has_room. intros (-> & -> & ->). done. Qed.

Lemma expand_step_in (index : list Z) (i j c r : Z) (out : columns) :
  0 <= i → index !! Z.to_nat i = Some r →
  0 <= j → has_room out (j + 1) → is_int32 c → is_int32 (c + 1) →
  expand_step index i j (c, out) =
    Ok (c + 1, Columns (<[Z.to_nat j := c]> (interval_start out))
                       (<[Z.to_nat j := c + 1]> (interval_end out))
                       (<[Z.to_nat j := wrap32 r]> (interval_index out))).
Proof.
  intros Hi Hr Hj (R1 & R2 & R3) Hc Hc1. unfold expand_step.
  rewrite array_set_in by (done || lia). simpl.
  rewrite (wrap64_small (c + 1)) by (by apply int32_int64).
  rewrite array_set_in by (done || lia). simpl.
  rewrite (array_get_lookup index i r) by done. simpl.
  rewrite array_set_wrap by lia. done.
Qed.

Lemma expand_steps (index : list Z) (i r : Z) :
  0 <= i → index !! Z.to_nat i = Some r →
  ∀ (m : nat) (first c : Z) (out : columns),
    0 <= first → has_room out (first + Z.of_nat m) →
    is_int32 c → c + Z.of_nat m < 2 ^ 31 →
    ∃ out',
      for_each (expand_step index i) (range_from first 1 m) (c, out)
        = Ok (c + Z.of_nat m, out') ∧
      same_size out out' ∧
      (∀ k, 0 <= k < Z.of_nat m →
         interval_start out' !! Z.to_nat (first + k) = Some (c + k) ∧
         interval_end out' !! Z.to_nat (first + k) = Some (c + k + 1) ∧
         interval_index out' !! Z.to_nat (first + k) = Some (wrap32 r)) ∧
      (∀ j : nat, ¬ (first <= Z.of_nat j < first + Z.of_nat m) → same_slot out out' j).
Proof.
  intros Hi Hr. induction m as [|m IH]; intros first c out Hfirst Hroom Hc Hcm.
  - exists out. simpl. repeat split; try done; [f_equal; f_equal; lia | lia..].
  - rewrite range_from_S. cbn [for_each].
    assert (Hroom1 : has_room out (first + 1)).
    { destruct Hroom as (? & ? & ?). repeat split; lia. }
    rewrite (expand_step_in index i first c r out) by (done || (unfold is_int32 in *; lia)).
    cbn [result_bind].
    set (out1 := Columns _ _ _).
    assert (Hsz1 : same_size out out1).
    { subst out1. repeat split; simpl; apply length_insert. }
    destruct (IH (first + 1) (c + 1) out1) as (out' & Hrun & Hsz & Hfill & Hframe).
    { lia. }
    { apply (has_room_same_size out); [done|].
      destruct Hroom as (? & ? & ?). repeat split; lia. }
    { unfold is_int32 in *. lia. }
    { lia. }
    exists out'. split; [|split; [|split]].
    + rewrite Hrun. do 2 f_equal. lia.
    + unfold same_size in *. destruct Hsz as (? & ? & ?), Hsz1 as (? & ? & ?).
      repeat split; congruence.
    + intros k Hk. destruct (decide (k = 0)) as [->|Hk0].
      * destruct (Hframe (Z.to_nat first)) as (F1 & F2 & F3); [lia|].
        rewrite !Z.add_0_r, F1, F2, F3. subst out1. simpl.
        destruct Hroom1 as (? & ? & ?).
        rewrite !list_lookup_insert_eq by lia. done.
      * destruct (Hfill (k - 1)) as (F1 & F2 & F3); [lia|].
        replace (first + 1 + (k - 1)) with (first + k) in * by lia.
        rewrite F1, F2, F3. repeat split; f_equal; lia.
    + intros j Hj. destruct (Hframe j) as (F1 & F2 & F3); [lia|].
      unfold same_slot. rewrite F1, F2, F3. subst out1. simpl.
      rewrite !list_lookup_insert_ne by lia. done.
Qed.

Lemma array_set_ok (a a' : list Z) (j v : Z) :
  0 <= j → array_set a j v = Ok a' →
  j < Z.of_nat (length a) ∧ length a' = length a.
Proof.
  intros Hj. unfold array_set, in_bounds, norm_index.
  replace (j <? 0) with false by (symmetry; apply Z.ltb_ge; lia).
  destruct (j <? Z.of_nat (length a)) eqn:E.
  - rewrite andb_true_r. destruct (0 <=? j); [|done].
    intros [= <-]. apply Z.ltb_lt in E. by rewrite length_insert.
  - by rewrite andb_false_r.
Qed.

Lemma array_set_not_raised (a : list Z) (j v : Z) : not_raised (array_set a j v).
Proof. unfold array_set. by destruct (in_bounds a j). Qed.

Lemma array_get_not_raised (a : list Z) (j : Z) : not_raised (array_get a j).
Proof. unfold array_get. destruct (in_bounds a j); [|done]. by destruct (a !! _). Qed.

Lemma for_each_not_raised {A S} (body : A → S → result S) (xs : list A) (s : S) :
  (∀ x s', not_raised (body x s')) → not_raised (for_each body xs s).
Proof.
  intros Hbody. revert s. induction xs as [|x xs IH]; intros s; simpl; [done|].
  specialize (Hbody x s). destruct (body x s); simpl; auto.
Qed.

Lemma expand_step_not_raised (index : list Z) (i j : Z) (st : Z * columns) :
  not_raised (expand_step index i j st).
Proof.
  destruct st as [c out]. unfold expand_step.
  pose proof (array_set_not_raised (interval_start out) j c).
  destruct (array_set (interval_start out) j c); simpl; try done.
  pose proof (array_set_not_raised (interval_end out) j (wrap64 (c + 1))).
  destruct (array_set (interval_end out) j _); simpl; try done.
  pose proof (array_get_not_raised index i).
  destruct (array_get index i) as [r| |]; simpl; try done.
  pose proof (array_set_not_raised (interval_index out) j r).
  by destruct (array_set (interval_index out) j r).
Qed.

Lemma expand_step_ok (index : list Z) (i j c c' : Z) (out out' : columns) :
  0 <= j → expand_step index i j (c, out) = Ok (c', out') →
  j < Z.of_nat (length (interval_start out)) ∧ same_size out out'.
Proof.
  intros Hj. unfold expand_step.
  destruct (array_set (interval_start out) j c) as [a1| |] eqn:E1; try done.
  destruct (array_set_ok _ _ _ _ Hj E1) as [Hlt L1]. cbn [result_bind].
  destruct (array_set (interval_end out) j _) as [a2| |] eqn:E2; try done.
  destruct (array_set_ok _ _ _ _ Hj E2) as [_ L2]. cbn [result_bind].
  destruct (array_get index i) as [r| |]; try done. cbn [result_bind].
  destruct (array_set (interval_index out) j r) as [a3| |] eqn:E3; try done.
  destruct (array_set_ok _ _ _ _ Hj E3) as [_ L3]. cbn [result_bind].
  intros [= <- <-]. by repeat split.
Qed.

Lemma expand_steps_ok (index : list Z) (i : Z) (m : nat) :
  ∀ (first c : Z) (out : columns) st,
    0 <= first →
    for_each (expand_step index i) (range_from first 1 m) (c, out) = Ok st →
    same_size out (snd st) ∧
    (m = 0%nat ∨ first + Z.of_nat m <= Z.of_nat (length (interval_start out))).
Proof.
  induction m as [|m IH]; intros first c out st Hfirst.
  - simpl. intros [= <-]. split; [done | by left].
  - rewrite range_from_S. cbn [for_each].
    destruct (expand_step index i first (c, out)) as [[c1 out1]| |] eqn:E; try done.
    destruct (expand_step_ok _ _ _ _ _ _ _ Hfirst E) as [Hlt S1].
    cbn [result_bind]. intros Hrest.
    destruct (IH (first + 1) c1 out1 st ltac:(lia) Hrest) as [S2 Hm].
    unfold same_size in *. destruct S1 as (E1 & E2 & E3), S2 as (? & ? & ?).
    split; [repeat split; congruence|]. right.
    destruct Hm as [->|Hm]; [lia|]. rewrite E1 in Hm. lia.
Qed.

(** ** Running sums *)

Lemma sum_Z_app (l1 l2 : list Z) : sum_Z (l1 ++ l2) = sum_Z l1 + sum_Z l2.
Proof. unfold sum_Z. induction l1 as [|x l1 IH]; simpl; lia. Qed.

Lemma psum_0 (l : list Z) : psum l 0 = 0.
Proof. unfold psum. by rewrite take_0. Qed.

Lemma psum_S (l : list Z) (i : nat) (x : Z) :
  l !! i = Some x → psum l (S i) = psum l i + x.
Proof.
  intros H. unfold psum. rewrite (take_S_r l i x H), sum_Z_app. simpl. lia.
Qed.

Lemma psum_ge (l : list Z) (i : nat) : (length l <= i)%nat → psum l i = sum_Z l.
Proof. intros H. unfold psum. by rewrite take_ge. Qed.

Lemma psum_le_S (l : list Z) (i : nat) :
  Forall (fun x => 0 <= x) l → psum l i <= psum l (S i).
Proof.
  intros Hl. destruct (l !! i) as [x|] eqn:E.
  - rewrite (psum_S l i x E).
    assert (0 <= x); [|lia].
    by eapply (Forall_lookup_1 _ l i x).
  - apply lookup_ge_None in E. rewrite !psum_ge by lia. lia.
Qed.

Lemma psum_mono (l : list Z) (i j : nat) :
  Forall (fun x => 0 <= x) l → (i <= j)%nat → psum l i <= psum l j.
Proof.
  intros Hl Hij. induction Hij as [|j Hij IH]; [lia|].
  pose proof (psum_le_S l j Hl). lia.
Qed.

Lemma psum_le_total (l : list Z) (i : nat) :
  Forall (fun x => 0 <= x) l → psum l i <= sum_Z l.
Proof.
  intros Hl. rewrite <- (psum_ge l (i `max` length l)) by lia.
  apply psum_mono; [done | lia].
Qed.

Lemma psum_nonneg (l : list Z) (i : nat) :
  Forall (fun x => 0 <= x) l → 0 <= psum l i.
Proof. intros Hl. rewrite <- (psum_0 l). apply psum_mono; [done | lia]. Qed.

Lemma inclusive_cumsum_from_lookup (l : list Z) (acc : Z) (i : nat) :
  (i < length l)%nat →
  inclusive_cumsum_from acc l !! i = Some (acc + psum l (S i)).
Proof.
  revert acc i. induction l as [|x l IH]; intros acc i Hi; simpl in *; [lia|].
  destruct i as [|i]; simpl.
  - f_equal. unfold psum, sum_Z. destruct l; simpl; lia.
  - rewrite IH by lia. f_equal. unfold psum, sum_Z. simpl. lia.
Qed.

Lemma inclusive_cumsum_lookup (l : list Z) (i : nat) :
  (i < length l)%nat → inclusive_cumsum l !! i = Some (psum l (S i)).
Proof. intros H. unfold inclusive_cumsum. by rewrite inclusive_cumsum_from_lookup. Qed.

Lemma fragment_lengths_lookup (start end_ : list Z) (i : nat) (s e : Z) :
  start !! i = Some s → end_ !! i = Some e →
  fragment_lengths start end_ !! i = Some (e - s).
Proof.
  intros Hs He. unfold fragment_lengths. rewrite lookup_zip_with, Hs. simpl. by rewrite He.
Qed.

Lemma fragment_lengths_length (start end_ : list Z) :
  length end_ = length start → length (fragment_lengths start end_) = length start.
Proof. intros H. unfold fragment_lengths. rewrite length_zip_with. lia. Qed.

(** ** One row, one thread, one launch *)

Section Expansion.
Variables (start end_ index : list Z).
Let lens := fragment_lengths start end_.
Let end_index := inclusive_cumsum lens.
Let n := length start.

Hypothesis end_size : length end_ = n.
Hypothesis index_size : length index = n.
Hypothesis start_int32 : Forall is_int32 start.
Hypothesis end_int32 : Forall is_int32 end_.
Hypothesis lens_nonneg : Forall (fun x => 0 <= x) lens.
Hypothesis total_int64 : sum_Z lens < 2 ^ 63.

Local Abbreviation expanded := (row_stored start end_ index end_index).

Local Abbreviation fills := (fills start end_ index).

Lemma for_each_fills {A} (body : A → columns → result columns) good covers :
  fills body good covers →
  fills (for_each body) (Forall good) (fun xs i => ∃ x, x ∈ xs ∧ covers x i).
Proof.
  intros Hbody xs. induction xs as [|x xs IH]; intros out Hgood Hroom.
  - exists out. split; [done|]. split; [done|]. split; [auto|].
    intros i (x & Hx & _). by apply elem_of_nil in Hx.
  - apply Forall_cons in Hgood as [Hx Hxs].
    destruct (Hbody x out Hx Hroom) as (out1 & E1 & S1 & K1 & C1).
    destruct (IH out1 Hxs) as (out2 & E2 & S2 & K2 & C2).
    { by apply (has_room_same_size out). }
    exists out2. cbn [for_each]. rewrite E1. cbn [result_bind].
    split; [done|]. split; [|split].
    + unfold same_size in *. destruct S1 as (? & ? & ?), S2 as (? & ? & ?).
      repeat split; congruence.
    + auto.
    + intros i (y & Hy & Hc). apply elem_of_cons in Hy as [->|Hy]; [auto|].
      apply C2. by exists y.
Qed.

Lemma row_slots (i : nat) (s e : Z) :
  start !! i = Some s → end_ !! i = Some e →
  end_index !! i = Some (psum lens i + (e - s)) ∧ 0 <= e - s ∧
  0 <= psum lens i ∧ psum lens i + (e - s) <= sum_Z lens.
Proof.
  intros Hs He.
  pose proof (fragment_lengths_lookup start end_ i s e Hs He) as Hl.
  fold lens in Hl. pose proof (psum_S lens i _ Hl) as HS.
  split; [|split; [|split]].
  - unfold end_index. rewrite inclusive_cumsum_lookup; [by rewrite HS|].
    by apply lookup_lt_Some in Hl.
  - by apply (Forall_lookup_1 _ lens i).
  - by apply psum_nonneg.
  - rewrite <- HS. by apply psum_le_total.
Qed.

Lemma expand_row_fills :
  fills (fun i => expand_row start end_ index end_index 1 (Z.of_nat i))
        (fun i => (i < n)%nat) (fun i i' => i' = i).
Proof.
  intros i out Hi Hroom. change (has_room out (sum_Z lens)) in Hroom.
  destruct (lookup_lt_is_Some_2 start i Hi) as [s Hs].
  destruct (lookup_lt_is_Some_2 end_ i) as [e He]; [lia|].
  destruct (lookup_lt_is_Some_2 index i) as [r Hr]; [lia|].
  destruct (row_slots i s e Hs He) as (Hei & Hlen & Hlo & Hhi).
  assert (is_int32 s) by (by apply (Forall_lookup_1 _ start i)).
  assert (is_int32 e) by (by apply (Forall_lookup_1 _ end_ i)).
  unfold expand_row.
  rewrite (array_get_lookup end_index _ (psum lens i + (e - s)))
    by (lia || by rewrite Nat2Z.id).
  rewrite (array_get_lookup end_ _ e) by (lia || by rewrite Nat2Z.id).
  rewrite (array_get_lookup start _ s) by (lia || by rewrite Nat2Z.id).
  cbn [result_bind].
  rewrite (wrap64_small (e - s)) by (unfold is_int32, is_int64 in *; lia).
  rewrite wrap64_small by (unfold is_int64; lia).
  replace (psum lens i + (e - s) - (e - s)) with (psum lens i) by lia.
  rewrite py_range_unit by lia. cbn [result_bind].
  replace (psum lens i + (e - s) - psum lens i) with (e - s) by lia.
  destruct (expand_steps index (Z.of_nat i) r) with
    (m := Z.to_nat (e - s)) (first := psum lens i) (c := s) (out := out)
    as (out' & Hrun & Hsz & Hfill & Hframe);
    try (done || lia || by rewrite Nat2Z.id).
  { destruct Hroom as (? & ? & ?). repeat split; lia. }
  { unfold is_int32 in *. lia. }
  exists out'. rewrite Hrun. cbn [result_bind snd].
  split; [done|]. split; [done|].
  assert (Hthis : expanded out' i).
  { intros s' e' r' ei' k Hs' He' Hr' Hei' Hk.
    assert (s' = s) as -> by congruence.
    assert (e' = e) as -> by congruence.
    assert (r' = r) as -> by congruence.
    assert (ei' = psum lens i + (e - s)) as -> by congruence.
    replace (psum lens i + (e - s) - (e - s) + k) with (psum lens i + k) by lia.
    apply Hfill. lia. }
  split; [|by intros ? ->].
  intros i' Hi'. destruct (decide (i' = i)) as [->|Hne]; [done|].
  intros s' e' r' ei' k Hs' He' Hr' Hei' Hk.
  destruct (row_slots i' s' e' Hs' He') as (Hei2 & Hlen' & Hlo' & Hhi').
  assert (ei' = psum lens i' + (e' - s')) as ->.
  { unfold end_index, lens in *. congruence. }
  destruct (Hframe (Z.to_nat (psum lens i' + (e' - s') - (e' - s') + k)))
    as (F1 & F2 & F3).
  { assert (psum lens (S i') = psum lens i' + (e' - s')) as HS'.
    { apply psum_S. by apply fragment_lengths_lookup. }
    assert (psum lens (S i) = psum lens i + (e - s)) as HS.
    { apply psum_S. by apply fragment_lengths_lookup. }
    destruct (decide (i' < i)%nat).
    - pose proof (psum_mono lens (S i') i lens_nonneg). lia.
    - pose proof (psum_mono lens (S i) i' lens_nonneg). lia. }
  rewrite F1, F2, F3. by apply (Hi' s' e' r' _ k).
Qed.

Lemma expand_row_fills_Z :
  fills (expand_row start end_ index end_index 1)
        (fun z => 0 <= z < Z.of_nat n) (fun z i => i = Z.to_nat z).
Proof.
  intros z out Hz Hroom.
  destruct (expand_row_fills (Z.to_nat z) out) as (out' & E & S & K & C);
    [lia | done |].
  rewrite Z2Nat.id in E by lia. by exists out'.
Qed.

Lemma thread_rows_valid (tid tpb : Z) :
  0 <= tid → 0 < tpb →
  Forall (fun z => 0 <= z < Z.of_nat n)
         (range_from tid tpb (Z.to_nat (range_len tid (Z.of_nat n) tpb))).
Proof.
  intros Htid Htpb. apply Forall_forall. intros z Hz.
  apply elem_of_range_from in Hz as (k & Hk & ->).
  unfold range_len in Hk.
  replace (0 <? tpb) with true in Hk by (symmetry; apply Z.ltb_lt; lia).
  destruct (tid <? Z.of_nat n) eqn:E; [|simpl in Hk; lia].
  apply Z.ltb_lt in E.
  pose proof (Z.mul_div_le (Z.of_nat n - tid - 1) tpb Htpb).
  assert (Z.of_nat k <= (Z.of_nat n - tid - 1) / tpb) by lia.
  nia.
Qed.

Lemma thread_rows_cover (tid tpb : Z) (i : nat) :
  0 < tpb → (i < n)%nat → Z.of_nat i mod tpb = tid →
  Z.of_nat i ∈ range_from tid tpb (Z.to_nat (range_len tid (Z.of_nat n) tpb)).
Proof.
  intros Htpb Hi Hmod. apply elem_of_range_from.
  pose proof (Z.mod_pos_bound (Z.of_nat i) tpb Htpb) as Hb.
  pose proof (Z.div_mod (Z.of_nat i) tpb ltac:(lia)) as Hdm.
  assert (0 <= Z.of_nat i / tpb) by (apply Z.div_pos; lia).
  exists (Z.to_nat (Z.of_nat i / tpb)). split; [|lia].
  unfold range_len.
  replace (0 <? tpb) with true by (symmetry; apply Z.ltb_lt; lia).
  replace (tid <? Z.of_nat n) with true by (symmetry; apply Z.ltb_lt; lia).
  assert (Z.of_nat i / tpb <= (Z.of_nat n - tid - 1) / tpb); [|lia].
  apply Z.div_le_lower_bound; lia.
Qed.

Lemma expand_interval_fills (tpb : Z) :
  0 < tpb →
  fills (fun tid out => expand_interval tid tpb start end_ index end_index out 1)
        (fun tid => 0 <= tid)
        (fun tid i => (i < n)%nat ∧ Z.of_nat i mod tpb = tid).
Proof.
  intros Htpb tid out Htid Hroom. unfold expand_interval, py_range.
  replace (tpb =? 0) with false by (symmetry; apply Z.eqb_neq; lia).
  cbn [result_bind].
  destruct (for_each_fills _ _ _ expand_row_fills_Z
              (range_from tid tpb (Z.to_nat (range_len tid (Z.of_nat n) tpb))) out)
    as (out' & E & S & K & C); [by apply thread_rows_valid | done |].
  exists out'. split; [done|]. split; [done|]. split; [done|].
  intros i [Hi Hmod]. apply C. exists (Z.of_nat i).
  split; [by apply thread_rows_cover | by rewrite Nat2Z.id].
Qed.

Lemma block_fills (tpb : Z) :
  0 < tpb →
  fills (fun (_ : Z) out =>
           for_each (fun tid out =>
                       expand_interval tid tpb start end_ index end_index out 1)
                    (block_threads tpb) out)
        (fun _ => True) (fun _ i => (i < n)%nat).
Proof.
  intros Htpb b out _ Hroom.
  destruct (for_each_fills _ _ _ (expand_interval_fills tpb Htpb)
              (block_threads tpb) out) as (out' & E & S & K & C); [|done|].
  { apply Forall_forall. intros tid Ht.
    apply elem_of_range_from in Ht as (k & _ & ->). lia. }
  exists out'. split; [done|]. split; [done|]. split; [done|].
  intros i Hi. apply C. exists (Z.of_nat i mod tpb).
  split; [|done].
  pose proof (Z.mod_pos_bound (Z.of_nat i) tpb Htpb).
  apply elem_of_range_from. exists (Z.to_nat (Z.of_nat i mod tpb)). lia.
Qed.

Lemma launch_fills (tpb : Z) (out : columns) :
  0 < tpb → has_room out (sum_Z lens) →
  ∃ out',
    launch_expand_interval tpb start end_ index end_index out 1 = Ok out' ∧
    same_size out out' ∧
    (∀ i, expanded out i → expanded out' i) ∧
    (∀ i, expanded out' i).
Proof.
  intros Htpb Hroom. unfold launch_expand_interval, forall_launch. fold n.
  destruct (Z.of_nat n =? 0) eqn:E.
  - apply Z.eqb_eq in E. exists out. split; [done|]. split; [done|]. split; [done|].
    intros i s e r ei k Hs. apply lookup_lt_Some in Hs. fold n in Hs. lia.
  - apply Z.eqb_neq in E.
    destruct (for_each_fills _ _ _ (block_fills tpb Htpb)
                (range_from 0 1 (Z.to_nat ((Z.of_nat n + tpb - 1) / tpb))) out)
      as (out' & E' & S & K & C); [by apply Forall_forall | done |].
    exists out'. split; [done|]. split; [done|]. split; [done|].
    intros i. destruct (decide (i < n)%nat) as [Hi|Hi].
    + apply C. exists 0. split; [|done].
      apply elem_of_range_from. exists 0%nat. split; [|lia].
      assert (1 <= (Z.of_nat n + tpb - 1) / tpb); [|lia].
      apply Z.div_le_lower_bound; lia.
    + intros s e r ei k Hs. apply lookup_lt_Some in Hs. fold n in Hs. lia.
Qed.
Local Abbreviation checks := (checks start end_).

Lemma for_each_checks {A} (body : A → columns → result columns) good covers :
  checks body good covers →
  checks (for_each body) (Forall good) (fun xs i => ∃ x, x ∈ xs ∧ covers x i).
Proof.
  intros Hbody xs. induction xs as [|x xs IH]; intros out Hgood.
  - split; [done|]. intros out' [= <-]. split; [done|].
    intros i (x & Hx & _). by apply elem_of_nil in Hx.
  - apply Forall_cons in Hgood as [Hx Hxs].
    destruct (Hbody x out Hx) as [N1 K1]. cbn [for_each].
    destruct (body x out) as [out1| |]; try done. cbn [result_bind].
    destruct (K1 out1 eq_refl) as [S1 C1].
    destruct (IH out1 Hxs) as [N2 K2]. split; [done|].
    intros out' E. destruct (K2 out' E) as [S2 C2]. split.
    + unfold same_size in *. destruct S1 as (? & ? & ?), S2 as (? & ? & ?).
      repeat split; congruence.
    + intros i (y & Hy & Hc). apply elem_of_cons in Hy as [->|Hy]; [auto|].
      intros s e Hs He Hlt.
      pose proof (C2 i (ex_intro _ y (conj Hy Hc)) s e Hs He Hlt) as Hfit.
      destruct S1 as (E1 & _). by rewrite E1 in Hfit.
Qed.

Lemma expand_row_checks :
  checks (expand_row start end_ index end_index 1)
         (fun z => 0 <= z < Z.of_nat n) (fun z i => i = Z.to_nat z).
Proof.
  intros z out Hz.
  assert (Hi : (Z.to_nat z < n)%nat) by lia.
  destruct (lookup_lt_is_Some_2 start _ Hi) as [s Hs].
  destruct (lookup_lt_is_Some_2 end_ (Z.to_nat z)) as [e He]; [lia|].
  destruct (row_slots _ s e Hs He) as (Hei & Hlen & Hlo & Hhi).
  assert (is_int32 s) by (by apply (Forall_lookup_1 _ start (Z.to_nat z))).
  assert (is_int32 e) by (by apply (Forall_lookup_1 _ end_ (Z.to_nat z))).
  unfold expand_row.
  rewrite (array_get_lookup end_index _ (psum lens (Z.to_nat z) + (e - s))) by (lia || done).
  rewrite (array_get_lookup end_ _ e) by (lia || done).
  rewrite (array_get_lookup start _ s) by (lia || done).
  cbn [result_bind].
  rewrite (wrap64_small (e - s)) by (unfold is_int32, is_int64 in *; lia).
  rewrite wrap64_small by (unfold is_int64; lia).
  replace (psum lens (Z.to_nat z) + (e - s) - (e - s)) with (psum lens (Z.to_nat z)) by lia.
  rewrite py_range_unit by lia. cbn [result_bind].
  pose proof (for_each_not_raised (expand_step index z)
                (range_from (psum lens (Z.to_nat z)) 1
                   (Z.to_nat (psum lens (Z.to_nat z) + (e - s) - psum lens (Z.to_nat z))))
                (s, out) (expand_step_not_raised index z)) as Hnr.
  destruct (for_each _ _ _) as [st| |] eqn:E; try done. cbn [result_bind].
  split; [done|]. intros out' [= <-].
  destruct (expand_steps_ok _ _ _ _ _ _ _ Hlo E) as [S Hm].
  split; [done|]. intros i -> s' e' Hs' He' Hlt.
  assert (s' = s) as -> by congruence. assert (e' = e) as -> by congruence.
  rewrite (psum_S lens _ (e - s)) by (by apply fragment_lengths_lookup).
  destruct Hm as [Hm|Hm]; lia.
Qed.

Lemma expand_interval_checks (tpb : Z) :
  0 < tpb →
  checks (fun tid out => expand_interval tid tpb start end_ index end_index out 1)
         (fun tid => 0 <= tid)
         (fun tid i => (i < n)%nat ∧ Z.of_nat i mod tpb = tid).
Proof.
  intros Htpb tid out Htid. unfold expand_interval, py_range.
  replace (tpb =? 0) with false by (symmetry; apply Z.eqb_neq; lia).
  cbn [result_bind].
  destruct (for_each_checks _ _ _ expand_row_checks
              (range_from tid tpb (Z.to_nat (range_len tid (Z.of_nat n) tpb))) out)
    as [N K]; [by apply thread_rows_valid|].
  split; [done|]. intros out' E. destruct (K out' E) as [S C]. split; [done|].
  intros i [Hi Hmod]. apply C. exists (Z.of_nat i).
  split; [by apply thread_rows_cover | by rewrite Nat2Z.id].
Qed.

Lemma block_checks (tpb : Z) :
  0 < tpb →
  checks (fun (_ : Z) out =>
            for_each (fun tid out =>
                        expand_interval tid tpb start end_ index end_index out 1)
                     (block_threads tpb) out)
         (fun _ => True) (fun _ i => (i < n)%nat).
Proof.
  intros Htpb b out _.
  destruct (for_each_checks _ _ _ (expand_interval_checks tpb Htpb)
              (block_threads tpb) out) as [N K].
  { apply Forall_forall. intros tid Ht.
    apply elem_of_range_from in Ht as (k & _ & ->). lia. }
  split; [done|]. intros out' E. destruct (K out' E) as [S C]. split; [done|].
  intros i Hi. apply C. exists (Z.of_nat i mod tpb).
  split; [|done].
  pose proof (Z.mod_pos_bound (Z.of_nat i) tpb Htpb).
  apply elem_of_range_from. exists (Z.to_nat (Z.of_nat i mod tpb)). lia.
Qed.

(** Some row is sent to every slot below the sum of the lengths. *)
Lemma slot_owner (j : Z) :
  0 <= j < sum_Z lens →
  ∃ i s e, start !! i = Some s ∧ end_ !! i = Some e ∧ s < e ∧ j < psum lens (S i).
Proof.
  intros Hj.
  assert (H : ∀ k : nat, (k <= n)%nat → j < psum lens k →
            ∃ i s e, start !! i = Some s ∧ end_ !! i = Some e ∧ s < e ∧
                     j < psum lens (S i)).
  { induction k as [|k IH]; intros Hk Hlt.
    - rewrite psum_0 in Hlt. lia.
    - destruct (lookup_lt_is_Some_2 start k) as [s Hs]; [lia|].
      destruct (lookup_lt_is_Some_2 end_ k) as [e He]; [lia|].
      rewrite (psum_S lens k (e - s)) in Hlt by (by apply fragment_lengths_lookup).
      destruct (decide (s < e)) as [Hse|Hse].
      + exists k, s, e. repeat split; try done.
        rewrite (psum_S lens k (e - s)) by (by apply fragment_lengths_lookup). done.
      + pose proof (row_slots k s e Hs He) as (_ & ? & _). apply IH; lia. }
  apply (H n); [done|]. rewrite psum_ge; [lia|].
  unfold lens. rewrite fragment_lengths_length by done. done.
Qed.

(** The launch does not complete when the lengths sum to more than the
    first column holds. *)
Lemma launch_overruns (tpb : Z) (out : columns) :
  0 < tpb → Z.of_nat (length (interval_start out)) < sum_Z lens →
  launch_expand_interval tpb start end_ index end_index out 1 = Undefined.
Proof.
  intros Htpb Hsmall. unfold launch_expand_interval, forall_launch. fold n.
  destruct (slot_owner (Z.of_nat (length (interval_start out)))) as (i & s & e & Hs & He & Hse & Hlt);
    [lia|].
  assert (Hi : (i < n)%nat) by (by apply lookup_lt_Some in Hs).
  replace (Z.of_nat n =? 0) with false by (symmetry; apply Z.eqb_neq; lia).
  destruct (for_each_checks _ _ _ (block_checks tpb Htpb)
              (range_from 0 1 (Z.to_nat ((Z.of_nat n + tpb - 1) / tpb))) out)
    as [N K]; [by apply Forall_forall|].
  destruct (for_each _ _ out) as [out'| |] eqn:E; try done.
  destruct (K out' eq_refl) as [_ C].
  assert (Hfit : row_fits start end_ out i).
  { apply C. exists 0. split; [|done].
    apply elem_of_range_from. exists 0%nat. split; [|lia].
    assert (1 <= (Z.of_nat n + tpb - 1) / tpb); [|lia].
    apply Z.div_le_lower_bound; lia. }
  specialize (Hfit s e Hs He Hse). fold lens in Hfit. lia.
Qed.
End Expansion.

(** ** Claims about [expand_interval] *)

(** C2 (as amended): when the start, end and index columns hold 32-bit
    values, no fragment has a negative length, [end_index] is the inclusive
    cumulative sum of the lengths [end[i] - start[i]], the step is 1 and the
    three output columns have at least as many slots as the lengths sum to,
    the launch completes, and for every row [i] and every [k] in
    [0, len[i]) slot [end_index[i] - len[i] + k] holds
    [interval_start = start[i] + k], [interval_end = start[i] + k + 1] and
    [interval_index = index[i]]. *)
Theorem expand_interval_unit_intervals
    (tpb : Z) (start end_ index end_index : list Z) (out : columns) :
  0 < tpb →
  length end_ = length start →
  length index = length start →
  Forall is_int32 start → Forall is_int32 end_ → Forall is_int32 index →
  Forall (fun x => 0 <= x) (fragment_lengths start end_) →
  end_index = inclusive_cumsum (fragment_lengths start end_) →
  sum_Z (fragment_lengths start end_) < 2 ^ 63 →
  has_room out (sum_Z (fragment_lengths start end_)) →
  ∃ out',
    launch_expand_interval tpb start end_ index end_index out 1 = Ok out' ∧
    ∀ i, row_expanded start end_ index end_index out' i.
Proof.
  intros Htpb He Hi Hs32 He32 Hi32 Hnn -> H64 Hroom.
  destruct (launch_fills start end_ index He Hi Hs32 He32 Hnn H64 tpb out Htpb Hroom)
    as (out' & E & _ & _ & C).
  exists out'. split; [done|].
  intros i s e r ei k Hs Hend Hr Hei Hk.
  destruct (C i s e r ei k Hs Hend Hr Hei Hk) as (F1 & F2 & F3).
  rewrite wrap32_small in F3 by (by apply (Forall_lookup_1 _ index i)).
  done.
Qed.

Lemma expand_interval_unit_intervals_witness :
  ∃ out',
    launch_expand_interval 2 [10; 20] [12; 23] [0; 1] [2; 5]
      (Columns [0; 0; 0; 0; 0] [0; 0; 0; 0; 0] [0; 0; 0; 0; 0]) 1 = Ok out' ∧
    ∀ i, row_expanded [10; 20] [12; 23] [0; 1] [2; 5] out' i.
Proof.
  apply (expand_interval_unit_intervals 2 [10; 20] [12; 23] [0; 1] [2; 5]);
    try reflexivity; try lia;
    try (repeat constructor; unfold is_int32; simpl; lia).
Defined.

(** C2 (as stated) fails when a fragment has [end < start]: with starts
    [0; 5; 0] and ends [3; 3; 2] the lengths are [3; -2; 2], their
    cumulative sum is [3; 1; 3], and rows 0 and 2 are both sent to slots 1
    and 2.  The launch completes, slot 1 ends with start 0 where row 0
    asks for 1, and no content of the columns serves both rows. *)
Lemma expand_interval_reversed_fragment :
  (∃ out',
     launch_expand_interval 2 [0; 5; 0] [3; 3; 2] [0; 1; 2]
       (inclusive_cumsum (fragment_lengths [0; 5; 0] [3; 3; 2]))
       (Columns [0; 0; 0] [0; 0; 0] [0; 0; 0]) 1 = Ok out' ∧
     interval_start out' = [0; 0; 1] ∧
     ¬ row_expanded [0; 5; 0] [3; 3; 2] [0; 1; 2]
         (inclusive_cumsum (fragment_lengths [0; 5; 0] [3; 3; 2])) out' 0) ∧
  (∀ out',
     ¬ (row_expanded [0; 5; 0] [3; 3; 2] [0; 1; 2]
          (inclusive_cumsum (fragment_lengths [0; 5; 0] [3; 3; 2])) out' 0 ∧
        row_expanded [0; 5; 0] [3; 3; 2] [0; 1; 2]
          (inclusive_cumsum (fragment_lengths [0; 5; 0] [3; 3; 2])) out' 2)).
Proof.
  split.
  - eexists. split; [vm_compute; reflexivity|]. split; [reflexivity|].
    intros H. destruct (H 0 3 0 3 1) as (F & _); try reflexivity; [lia|].
    vm_compute in F. discriminate.
  - intros out' [H0 H2].
    destruct (H0 0 3 0 3 1) as (F0 & _); try reflexivity; [lia|].
    destruct (H2 0 2 2 3 0) as (F2 & _); try reflexivity; [lia|].
    change (interval_start out' !! 1%nat = Some 1) in F0.
    change (interval_start out' !! 1%nat = Some 0) in F2.
    congruence.
Qed.

(** The other conditions of C2 (as amended) are there for a reason too.
    Columns with fewer slots than the lengths sum to are stored into past
    their end, and an index that does not fit 32 bits is cut to 32 bits
    by the store into the [int32] column. *)
Example expand_interval_short_columns :
  launch_expand_interval 2 [10] [12] [0] [2] (Columns [0] [0] [0]) 1 = Undefined.
Proof. reflexivity. Qed.

Example expand_interval_wide_index :
  launch_expand_interval 2 [10] [11] [2 ^ 31] [1] (Columns [0] [0] [0]) 1
  = Ok (Columns [10] [11] [- 2 ^ 31]).
Proof. reflexivity. Qed.

(** ** [get_coverages] at inputs where the allocation of the columns shows *)

(** C3: the three columns are allocated with [window_size] rows, whatever
    the fragment lengths sum to.  Two fragments that both cover the ten
    bases of the window [100, 110) have lengths summing to 20; the kernel
    is sent to slots 10 to 19 of columns that end at slot 9, and the store
    at slot 10 is outside the column. *)
Theorem get_coverages_overruns_columns :
  let reads := [Reads.Row "chr1" 100 110 "AAAC-1" 0 10 0;
                Reads.Row "chr1" 100 110 "AAAG-1" 1 10 0] in
  sum_Z (map Reads.len reads) = 20 ∧
  np_zeros (110 - 100 + 2 * 0) = Ok (replicate 10 0) ∧
  cumsum (map Reads.len reads) = [10; 20] ∧
  array_set (replicate 10 0) 10 100 = Undefined ∧
  launch_expand_interval 128 (map Reads.start reads) (map Reads.end_ reads)
    (map Reads.row_num reads) (cumsum (map Reads.len reads))
    (Columns (replicate 10 0) (replicate 10 0) (replicate 10 0)) 1 = Undefined ∧
  get_coverages 128 0%nat "chr1" 100 110 0 [ReadsFrame reads] = Undef.
Proof. vm_compute. repeat split; reflexivity. Qed.

(** C1: one fragment [5, 6) of cluster 7 in the window [0, 10).  The
    fragment fills slot 0 of the columns; the nine slots left hold start 0,
    end 0 and row number 0, are merged with the fragment of row number 0,
    and are counted at coordinate 0, which no fragment covers. *)
Theorem get_coverages_counts_unused_slots :
  let reads := [Reads.Row "chr1" 5 6 "AAAC-1" 0 1 7] in
  (∃ σ', get_coverages 128 0%nat "chr1" 0 10 0 [ReadsFrame reads]
           = Done (Array2 1 10 [[9; 0; 0; 0; 0; 1; 0; 0; 0; 0]]) σ') ∧
  sorted_unique (map Reads.cluster reads) = [7] ∧
  coverage_at reads 7 (0 - 0 + 0) = 0 ∧
  coverage_at reads 7 (0 - 0 + 5) = 1.
Proof.
  cbv zeta. split; [eexists; vm_compute; reflexivity|].
  vm_compute. repeat split; reflexivity.
Qed.

(** ** Library operations *)

Lemma np_zeros_ok (n : Z) :
  0 <= n < 2 ^ 63 → np_zeros n = Ok (replicate (Z.to_nat n) 0).
Proof.
  intros H. unfold np_zeros.
  replace (n <? 0) with false by (symmetry; apply Z.ltb_ge; lia).
  replace (2 ^ 63 <=? n) with false by (symmetry; apply Z.leb_gt; lia).
  done.
Qed.

Lemma insert_by_row_num_perm (r : Reads.row) (l : list Reads.row) :
  insert_by_row_num r l ≡ₚ r :: l.
Proof.
  induction l as [|r' l IH]; simpl; [done|].
  destruct (Reads.row_num r <? Reads.row_num r'); [done|].
  rewrite IH. apply perm_swap.
Qed.

Lemma sort_by_row_num_perm (l : list Reads.row) : sort_by_row_num l ≡ₚ l.
Proof.
  induction l as [|r l IH]; simpl; [done|].
  rewrite insert_by_row_num_perm. by rewrite IH.
Qed.

Lemma sum_Z_perm (l l' : list Z) : l ≡ₚ l' → sum_Z l = sum_Z l'.
Proof. unfold sum_Z. induction 1; simpl; lia. Qed.

Lemma elem_of_insert_unique (x y : Z) (l : list Z) :
  y ∈ insert_unique x l ↔ y = x ∨ y ∈ l.
Proof.
  induction l as [|z l IH]; simpl.
  - rewrite list_elem_of_singleton, elem_of_nil. tauto.
  - destruct (x <? z); [by rewrite (elem_of_cons (z :: l))|].
    destruct (x =? z) eqn:E.
    + apply Z.eqb_eq in E. subst. rewrite elem_of_cons. tauto.
    + rewrite !elem_of_cons, IH. tauto.
Qed.

Lemma elem_of_sorted_unique (y : Z) (l : list Z) : y ∈ sorted_unique l ↔ y ∈ l.
Proof.
  induction l as [|x l IH]; simpl; [done|].
  by rewrite elem_of_insert_unique, IH, elem_of_cons.
Qed.

Lemma insert_unique_sorted (x : Z) (l : list Z) :
  StronglySorted Z.lt l → StronglySorted Z.lt (insert_unique x l).
Proof.
  induction 1 as [|z l Hl IH Hz]; simpl.
  - repeat constructor.
  - destruct (x <? z) eqn:E1.
    + apply Z.ltb_lt in E1. constructor; [by constructor|].
      constructor; [done|].
      eapply Forall_impl; [exact Hz|]. simpl. intros. lia.
    + destruct (x =? z) eqn:E2; [by constructor|].
      apply Z.ltb_ge in E1. apply Z.eqb_neq in E2.
      constructor; [done|].
      apply Forall_forall. intros y Hy. apply elem_of_insert_unique in Hy as [->|Hy].
      * lia.
      * rewrite Forall_forall in Hz. by apply Hz.
Qed.

Lemma sorted_unique_sorted (l : list Z) : StronglySorted Z.lt (sorted_unique l).
Proof.
  induction l as [|x l IH]; simpl; [constructor|]. by apply insert_unique_sorted.
Qed.

Lemma cumsum_from_exact (l : list Z) (acc : Z) :
  Forall (fun x => 0 <= x) l → 0 <= acc → acc + sum_Z l < 2 ^ 63 →
  cumsum_from acc l = inclusive_cumsum_from acc l.
Proof.
  revert acc. induction l as [|x l IH]; intros acc Hl Hacc Hsum; simpl; [done|].
  apply Forall_cons in Hl as [Hx Hl].
  assert (0 <= sum_Z l).
  { rewrite <- (psum_ge l (length l)) by lia. by apply psum_nonneg. }
  unfold sum_Z in *. simpl in Hsum. fold (sum_Z l) in *.
  rewrite wrap64_small by (unfold is_int64; lia).
  f_equal. apply IH; [done | lia | lia].
Qed.

Lemma cumsum_exact (l : list Z) :
  Forall (fun x => 0 <= x) l → sum_Z l < 2 ^ 63 → cumsum l = inclusive_cumsum l.
Proof. intros. apply cumsum_from_exact; [done | lia | lia]. Qed.

(** ** Rules for [wp] *)

Section WpRules.
Context {A : Type} (Q : A → store → Prop) (E : store → Prop) (U : Prop).

Lemma wp_ret (a : A) (σ : store) : Q a σ → wp (ret a) Q E U σ.
Proof. done. Qed.

Lemma wp_bind {B} (m : M B) (k : B → M A) (σ : store) :
  wp m (fun b σ' => wp (k b) Q E U σ') E U σ → wp (bind m k) Q E U σ.
Proof. unfold wp, bind. by destruct (m σ). Qed.

Lemma wp_lift (r : result A) (σ : store) :
  match r with
  | Ok a => Q a σ
  | Raised _ => E σ
  | Undefined => U
  end →
  wp (lift r) Q E U σ.
Proof. unfold wp, lift. by destruct r. Qed.

End WpRules.

Section WpStore.
Context (E : store → Prop) (U : Prop).

Lemma wp_new_frame (f : frame) (Q : loc → store → Prop) (σ : store) :
  Q (length σ) (σ ++ [f]) → wp (new_frame f) Q E U σ.
Proof. done. Qed.

Lemma wp_write_frame (l : loc) (f : frame) (Q : unit → store → Prop) (σ : store) :
  Q tt (<[l := f]> σ) → wp (write_frame l f) Q E U σ.
Proof. done. Qed.

Lemma wp_reads_rows (l : loc) (rows : list Reads.row) Q (σ : store) :
  σ !! l = Some (ReadsFrame rows) → Q rows σ → wp (reads_rows l) Q E U σ.
Proof. intros H HQ. unfold wp, reads_rows. by rewrite H. Qed.

Lemma wp_reads_rows_any (l : loc) Q (σ : store) :
  ((∀ rows, σ !! l ≠ Some (ReadsFrame rows)) → E σ) →
  (∀ rows, σ !! l = Some (ReadsFrame rows) → Q rows σ) →
  wp (reads_rows l) Q E U σ.
Proof.
  intros HE HQ. unfold wp, reads_rows.
  destruct (σ !! l) as [[rows| |]|]; auto.
Qed.

Lemma wp_meta_rows (l : loc) (rows : list Meta.row) Q (σ : store) :
  σ !! l = Some (MetaFrame rows) → Q rows σ → wp (meta_rows l) Q E U σ.
Proof. intros H HQ. unfold wp, meta_rows. by rewrite H. Qed.

Lemma wp_expanded_cols (l : loc) (cols : columns) Q (σ : store) :
  σ !! l = Some (ExpandedFrame cols) → Q cols σ → wp (expanded_cols l) Q E U σ.
Proof. intros H HQ. unfold wp, expanded_cols. by rewrite H. Qed.
End WpStore.

Lemma store_lookup_ext (σ ext : store) (k : nat) :
  (σ ++ ext) !! (length σ + k)%nat = ext !! k.
Proof. by rewrite lookup_app_r, Nat.add_comm, Nat.add_sub by lia. Qed.

Lemma store_insert_ext (σ ext : store) (k : nat) (f : frame) :
  <[(length σ + k)%nat := f]> (σ ++ ext) = σ ++ <[k := f]> ext.
Proof. by rewrite insert_app_r. Qed.

(** The store of [get_coverages] is the store it was called with and the
    objects allocated since. *)
Ltac store_norm :=
  repeat rewrite <- app_assoc; cbn [app];
  repeat rewrite length_app; cbn [length];
  repeat first [rewrite store_insert_ext | rewrite store_lookup_ext];
  cbn [lookup list_lookup insert list_insert].

(** [get_coverages], step by step: [K] says what must hold of each way
    the run can end, given the store and the rows of [reads_orig]. *)
Lemma wp_get_coverages (tpb : Z) (reads_orig : loc) (chrom : string)
    (start end_ pad : Z) (σ : store)
    (Q : array2 Z → store → Prop) (E : store → Prop) (U : Prop) :
  ((∀ rows, σ !! reads_orig ≠ Some (ReadsFrame rows)) → E σ) →
  (∀ rows,
     σ !! reads_orig = Some (ReadsFrame rows) →
     let srt := sort_by_row_num rows in
     let clusters := sorted_unique (map Reads.cluster srt) in
     let window_size := end_ - start + 2 * pad in
     match np_zeros window_size with
     | Ok zs =>
         match launch_expand_interval tpb (map Reads.start srt) (map Reads.end_ srt)
                 (map Reads.row_num srt) (cumsum (map Reads.len srt))
                 (Columns zs zs zs) 1 with
         | Ok cols =>
             let σ' := σ ++ [ReadsFrame rows; MetaFrame (map drop_coords srt);
                             ExpandedFrame cols] in
             let summed :=
               groupby_count (merge_on_row_num (expanded_rows cols)
                                               (map drop_coords srt)) in
             Q (Array2 (length clusters) (Z.to_nat window_size)
                  (fill_clusters summed start end_ pad clusters
                     (replicate (length clusters) zs))) σ'
         | Raised _ =>
             E (σ ++ [ReadsFrame rows; ReadsFrame srt;
                      ExpandedFrame (Columns zs zs zs)])
         | Undefined => U
         end
     | Raised _ => E (σ ++ [ReadsFrame rows; ReadsFrame srt])
     | Undefined => U
     end) →
  wp (get_coverages tpb reads_orig chrom start end_ pad) Q E U σ.
Proof.
  intros HE HK. unfold get_coverages.
  apply wp_bind, wp_reads_rows_any; [done|]. intros rows Hrows.
  specialize (HK rows Hrows). cbv zeta in HK.
  apply wp_bind, wp_new_frame.
  apply wp_bind, (wp_reads_rows _ _ _ rows); [by apply list_lookup_middle|].
  apply wp_bind, wp_new_frame.
  apply wp_bind, (wp_reads_rows _ _ _ (sort_by_row_num rows));
    [by apply list_lookup_middle|].
  store_norm.
  apply wp_bind, wp_lift.
  destruct (np_zeros (end_ - start + 2 * pad)) as [zs|e|] eqn:Hz; [|done..].
  apply wp_bind, wp_lift. apply wp_bind, wp_lift.
  apply wp_bind, wp_new_frame.
  apply wp_bind, (wp_expanded_cols _ _ _ (Columns zs zs zs));
    [by apply list_lookup_middle|].
  store_norm.
  apply wp_bind, wp_lift.
  destruct (launch_expand_interval _ _ _ _ _ _ _) as [cols|e|]; [|done..].
  apply wp_bind, wp_write_frame. store_norm.
  replace (length σ + 1 + 1)%nat with (length σ + 2)%nat by lia. store_norm.
  apply wp_bind, (wp_reads_rows _ _ _ (sort_by_row_num rows)); [by store_norm|].
  apply wp_bind, wp_write_frame. store_norm.
  apply wp_bind, (wp_expanded_cols _ _ _ cols); [by store_norm|].
  apply wp_bind, (wp_meta_rows _ _ _ (map drop_coords (sort_by_row_num rows)));
    [by store_norm|].
  apply wp_bind, wp_lift. unfold np_zeros2. rewrite Hz. cbn [result_bind].
  apply wp_ret. cbn [shape0 shape1 data]. done.
Qed.

(** ** The shape of the array that [get_coverages] fills *)

Lemma assign_at_length (coords values row : list Z) :
  length (assign_at row coords values) = length row.
Proof.
  unfold assign_at. revert row.
  induction (zip coords values) as [|[c v] l IH]; intros row; simpl; [done|].
  by rewrite IH, length_insert.
Qed.



Lemma fragment_rows_lengths (rows : list Reads.row) :
  Forall fragment_row rows →
  fragment_lengths (map Reads.start rows) (map Reads.end_ rows) = map Reads.len rows.
Proof.
  unfold fragment_lengths. induction 1 as [|r rows (_ & _ & Hlen & _) _ IH]; simpl;
    [done|].
  by rewrite IH, Hlen.
Qed.

(** The launch of [get_coverages] completes when the rows are fragments
    whose lengths sum to no more than the allocated columns hold. *)
Lemma launch_in_bounds (tpb : Z) (rows : list Reads.row) (zs : list Z) :
  0 < tpb → Forall fragment_row rows →
  sum_Z (map Reads.len rows) <= Z.of_nat (length zs) →
  sum_Z (map Reads.len rows) < 2 ^ 63 →
  ∃ cols,
    launch_expand_interval tpb (map Reads.start rows) (map Reads.end_ rows)
      (map Reads.row_num rows) (cumsum (map Reads.len rows))
      (Columns zs zs zs) 1 = Ok cols ∧
    same_size (Columns zs zs zs) cols.
Proof.
  intros Htpb Hrows Hroom H64.
  pose proof (fragment_rows_lengths rows Hrows) as Hlens.
  assert (Hnn : Forall (fun x => 0 <= x) (map Reads.len rows)).
  { apply Forall_fmap. eapply Forall_impl; [exact Hrows|]. by intros r (_ & _ & _ & ?). }
  rewrite cumsum_exact by done. rewrite <- Hlens in *.
  destruct (launch_fills (map Reads.start rows) (map Reads.end_ rows)
              (map Reads.row_num rows)) with (tpb := tpb) (out := Columns zs zs zs)
    as (cols & E & S & _); try done.
  - by rewrite !length_map.
  - by rewrite !length_map.
  - apply Forall_fmap. eapply Forall_impl; [exact Hrows|]. by intros r (? & _).
  - apply Forall_fmap. eapply Forall_impl; [exact Hrows|]. by intros r (_ & ? & _).
  - by exists cols.
Qed.

(** ** Claims about [get_coverages] *)

(** Whenever a call of [get_coverages] ends, by returning or by raising,
    the object [reads_orig] names is what it was before the call, and so
    is every other object of the store the call started from: the copy,
    its sorting, the dropped columns and the kernel's output are objects
    allocated by the call.  Nothing is said of a launch that stores
    outside its columns. *)
Lemma get_coverages_keeps_reads_orig (tpb : Z) (reads_orig : loc)
    (chrom : string) (start end_ pad : Z) (σ : store) :
  match get_coverages tpb reads_orig chrom start end_ pad σ with
  | Done _ σ' | Failed _ σ' => σ' !! reads_orig = σ !! reads_orig ∧ σ `prefix_of` σ'
  | Undef => True
  end.
Proof.
  apply (wp_get_coverages tpb reads_orig chrom start end_ pad σ
           (fun _ σ' => σ' !! reads_orig = σ !! reads_orig ∧ σ `prefix_of` σ')
           (fun σ' => σ' !! reads_orig = σ !! reads_orig ∧ σ `prefix_of` σ') True).
  - done.
  - intros rows Hrows. cbv zeta.
    assert (Hext : ∀ ext, (σ ++ ext) !! reads_orig = σ !! reads_orig ∧
                          σ `prefix_of` σ ++ ext).
    { intros ext. split; [|by apply prefix_app_r].
      rewrite Hrows. by apply lookup_app_l_Some. }
    destruct (np_zeros _) as [zs|e|]; [|done..].
    destruct (launch_expand_interval _ _ _ _ _ _ _); done.
Qed.


(** ** Text *)

Lemma foldl_snoc_map {A B} (f : A → B) (l : list A) (acc : list B) :
  foldl (fun records x => records ++ [f x]) acc l = acc ++ map f l.
Proof.
  revert acc. induction l as [|x l IH]; intros acc; simpl.
  - by rewrite app_nil_r.
  - by rewrite IH, <- app_assoc.
Qed.

Lemma rstrip_app_space (s : string) (c : ascii) :
  is_space c = true → rstrip (s ++ String c EmptyString) = rstrip s.
Proof.
  intros Hc. induction s as [|c' s IH]; simpl.
  - by rewrite Hc.
  - by rewrite IH.
Qed.

Lemma strip_line_end (s : string) :
  strip (s ++ String newline EmptyString) = strip s.
Proof. unfold strip. by rewrite rstrip_app_space. Qed.

(** ** Claims about the tabix queries *)

(** C8 (as amended): when the library call and the [tabix] process yield
    the same lines for the region (the process one line of output per
    record, the library the tab-separated columns of each), and no line
    starts or ends with white space, [query_fragments] and [tabix_query]
    return the same list of records in the same order. *)
Theorem query_fragments_tabix_query
    (querys : string → string → result (list (list string)))
    (tabix_stdout : string → string → list string)
    (fragment_file chrom : string) (start end_ : Z) (lines : list string) :
  tabix_stdout fragment_file (format_region chrom start end_)
    = map (fun line => (line ++ String newline EmptyString)%string) lines →
  querys fragment_file (format_region chrom start end_)
    = Ok (map (split_on tab) lines) →
  Forall (fun line => strip line = line) lines →
  query_fragments querys fragment_file chrom start end_
    = Ok (tabix_query tabix_stdout fragment_file chrom start end_).
Proof.
  intros Hout Hlib Hclean. unfold query_fragments, tabix_query.
  rewrite Hout, Hlib. cbn [result_bind]. rewrite !foldl_snoc_map. cbn [app].
  f_equal. rewrite map_id, map_map. clear Hout Hlib.
  induction Hclean as [|line lines Hline _ IH]; cbn [map]; [done|].
  by rewrite strip_line_end, Hline, IH.
Qed.

Lemma query_fragments_tabix_query_witness :
  query_fragments
    (fun _ _ => Ok [["chr1"; "10"; "20"; "AAAC-1"; "1"]%string])
    "fragments.tsv.gz" "chr1" 0 100
  = Ok (tabix_query
          (fun _ _ => [(join_tab ["chr1"; "10"; "20"; "AAAC-1"; "1"]
                        ++ String newline EmptyString)%string])
          "fragments.tsv.gz" "chr1" 0 100).
Proof.
  apply (query_fragments_tabix_query _ _ _ _ _ _
           [join_tab ["chr1"; "10"; "20"; "AAAC-1"; "1"]%string]).
  - reflexivity.
  - reflexivity.
  - repeat constructor.
Defined.

(** C8 (as stated) fails on a file with lines that end in a carriage
    return: the library and the process yield the same line, the library
    keeps the carriage return in the last column, and [tabix_query] strips
    it with the end of the line. *)
Lemma query_fragments_keeps_carriage_return :
  let line :=
    (join_tab ["chr1"; "10"; "20"; "AAAC-1"; "1"]
       ++ String carriage_return EmptyString)%string in
  let querys := fun (_ _ : string) => Ok [split_on tab line] in
  let tabix_stdout :=
    fun (_ _ : string) => [(line ++ String newline EmptyString)%string] in
  tabix_stdout "fragments.tsv.gz"%string (format_region "chr1" 0 100)
    = map (fun l => (l ++ String newline EmptyString)%string) [line] ∧
  querys "fragments.tsv.gz"%string (format_region "chr1" 0 100)
    = Ok (map (split_on tab) [line]) ∧
  query_fragments querys "fragments.tsv.gz" "chr1" 0 100
    = Ok [["chr1"; "10"; "20"; "AAAC-1";
           String "1" (String carriage_return EmptyString)]%string] ∧
  tabix_query tabix_stdout "fragments.tsv.gz" "chr1" 0 100
    = [["chr1"; "10"; "20"; "AAAC-1"; "1"]%string] ∧
  query_fragments querys "fragments.tsv.gz" "chr1" 0 100
    ≠ Ok (tabix_query tabix_stdout "fragments.tsv.gz" "chr1" 0 100).
Proof.
  cbv zeta. split; [reflexivity|]. split; [reflexivity|].
  split; [reflexivity|]. split; [reflexivity|].
  vm_compute. discriminate.
Qed.

(** ** [read_fragments] *)

Lemma data_frame_ok (records : list (list string)) (names : list string) :
  Forall (fun record => length record = length names) records →
  data_frame records names
    = Ok (imap (fun k _ => map (fun record => default EmptyString (record !! k)) records)
               names).
Proof.
  intros H. unfold data_frame.
  replace (forallb _ records) with true; [done|].
  symmetry. apply forallb_forall. intros record Hin.
  apply Nat.eqb_eq. rewrite Forall_forall in H. apply H. by apply list_elem_of_In.
Qed.

Lemma astype_int32_ok (col : list string) :
  Forall (fun s => is_Some (parse_int s)) col →
  astype_int32 col = Ok (map (fun s => wrap32 (default 0 (parse_int s))) col).
Proof.
  induction 1 as [|s col [z Hz] _ IH]; simpl; [done|].
  by rewrite Hz, IH.
Qed.

Lemma fragment_record_fields (record : list string) :
  fragment_record record →
  length record = 5%nat ∧
  is_Some (record !! 1%nat ≫= parse_int) ∧ is_Some (record !! 2%nat ≫= parse_int).
Proof.
  intros (c & s & e & b & d & zs & ze & -> & Hs & He). simpl.
  rewrite Hs, He. eauto.
Qed.

(** C9: [read_fragments] queries the padded region [start - pad] to
    [end + pad]; when every record returned has its five fields, start and
    end being integers, the dataframe it returns has one row per record, in
    the order of the query result: the record's chromosome, start, end and
    barcode (the fifth field is dropped), start and end as 32-bit
    integers, the record's position in the result as [row_num], and
    [len = end - start], taken in 32 bits (which is [end - start] when
    neither is negative). *)
Theorem read_fragments_rows (tabix_stdout : string → string → list string)
    (chrom : string) (start end_ : Z) (fragment_file : string) (pad : Z) :
  Forall fragment_record
    (tabix_query tabix_stdout fragment_file chrom (start - pad) (end_ + pad)) →
  ∃ reads,
    read_fragments tabix_stdout chrom start end_ fragment_file pad = Ok reads ∧
    frame_rows reads
      = imap record_row
          (tabix_query tabix_stdout fragment_file chrom (start - pad) (end_ + pad)) ∧
    (∀ r, r ∈ frame_rows reads →
          is_int32 (Fragment.start r) ∧ is_int32 (Fragment.end_ r) ∧
          (0 <= Fragment.start r → 0 <= Fragment.end_ r →
           Fragment.len r = Fragment.end_ r - Fragment.start r)).
Proof.
  intros Hrec. unfold read_fragments.
  set (records := tabix_query _ _ _ _ _) in *.
  rewrite data_frame_ok.
  2: { eapply Forall_impl; [exact Hrec|]. intros r Hr.
       by destruct (fragment_record_fields r Hr) as [-> _]. }
  cbn [result_bind imap take length].
  rewrite !astype_int32_ok.
  2,3: apply Forall_fmap; eapply Forall_impl; [exact Hrec|]; intros r Hr; simpl;
       destruct (fragment_record_fields r Hr) as (_ & [z1 H1] & [z2 H2]).
  2,3: destruct (r !! 1%nat), (r !! 2%nat); simpl in *; try done;
       rewrite ?H1, ?H2; by eexists.
  cbn [result_bind]. eexists. split; [done|].
  assert (Hrows : ∀ reads,
    reads = imap record_row records →
    ∀ r, r ∈ reads →
      is_int32 (Fragment.start r) ∧ is_int32 (Fragment.end_ r) ∧
      (0 <= Fragment.start r → 0 <= Fragment.end_ r →
       Fragment.len r = Fragment.end_ r - Fragment.start r)).
  { intros reads -> r Hr. apply list_elem_of_lookup in Hr as [i Hi].
    rewrite list_lookup_imap in Hi.
    destruct (records !! i) as [record|]; [|done]. injection Hi as <-.
    unfold record_row. cbn [Fragment.start Fragment.end_ Fragment.len].
    set (s := default 0 _). set (e := default 0 _).
    assert (∀ x, is_int32 (wrap32 x)) as Hw.
    { intros x. unfold is_int32, wrap32, wrap.
      pose proof (Z.mod_pos_bound (x + 2 ^ (32 - 1)) (2 ^ 32) ltac:(lia)). lia. }
    split; [apply Hw|]. split; [apply Hw|].
    intros Hs He. apply wrap32_small.
    pose proof (Hw s). pose proof (Hw e). unfold is_int32 in *. lia. }
  assert (Heq : frame_rows
    (Fragments.Frame
       (map (fun record => default EmptyString (record !! 0%nat)) records)
       (map (fun s => wrap32 (default 0 (parse_int s)))
            (map (fun record => default EmptyString (record !! 1%nat)) records))
       (map (fun s => wrap32 (default 0 (parse_int s)))
            (map (fun record => default EmptyString (record !! 2%nat)) records))
       (map (fun record => default EmptyString (record !! 3%nat)) records)
       (range_from 0 1 (length
          (map (fun record => default EmptyString (record !! 0%nat)) records)))
       (zip_with (fun e s => wrap32 (e - s))
          (map (fun s => wrap32 (default 0 (parse_int s)))
               (map (fun record => default EmptyString (record !! 2%nat)) records))
          (map (fun s => wrap32 (default 0 (parse_int s)))
               (map (fun record => default EmptyString (record !! 1%nat)) records))))
    = imap record_row records).
  { apply list_eq. intros i. unfold frame_rows.
    cbn [Fragments.chrom Fragments.start Fragments.end_ Fragments.cell
         Fragments.row_num Fragments.len].
    rewrite !lookup_zip_with, list_lookup_imap, !list_lookup_fmap, length_map.
    destruct (records !! i) as [record|] eqn:Hi; simpl; [|done].
    rewrite range_from_lookup by (by apply lookup_lt_Some in Hi). simpl.
    rewrite Forall_forall in Hrec.
    destruct (Hrec record) as (c & s & e & b & d & zs & ze & -> & Hs & He).
    { apply list_elem_of_lookup. by exists i. }
    unfold record_row. simpl. rewrite Hs, He. simpl. do 2 f_equal. lia. }
  split; [exact Heq|]. apply Hrows. exact Heq.
Qed.

Lemma read_fragments_rows_witness :
  ∃ reads,
    read_fragments
      (fun _ _ => [(join_tab ["chr1"; "10"; "20"; "AAAC-1"; "1"]
                    ++ String newline EmptyString)%string;
                   (join_tab ["chr1"; "15"; "42"; "AAAG-1"; "2"]
                    ++ String newline EmptyString)%string])
      "chr1" 12 30 "fragments.tsv.gz" 5 = Ok reads ∧
    frame_rows reads
      = imap record_row
          (tabix_query
             (fun _ _ => [(join_tab ["chr1"; "10"; "20"; "AAAC-1"; "1"]
                           ++ String newline EmptyString)%string;
                          (join_tab ["chr1"; "15"; "42"; "AAAG-1"; "2"]
                           ++ String newline EmptyString)%string])
             "fragments.tsv.gz" "chr1" (12 - 5) (30 + 5)) ∧
    (∀ r, r ∈ frame_rows reads →
          is_int32 (Fragment.start r) ∧ is_int32 (Fragment.end_ r) ∧
          (0 <= Fragment.start r → 0 <= Fragment.end_ r →
           Fragment.len r = Fragment.end_ r - Fragment.start r)).
Proof.
  apply (read_fragments_rows
           (fun _ _ => [(join_tab ["chr1"; "10"; "20"; "AAAC-1"; "1"]
                         ++ String newline EmptyString)%string;
                        (join_tab ["chr1"; "15"; "42"; "AAAG-1"; "2"]
                         ++ String newline EmptyString)%string])
           "chr1" 12 30 "fragments.tsv.gz" 5).
  repeat constructor.
  - exists "chr1"%string, "10"%string, "20"%string, "AAAC-1"%string, "1"%string, 10, 20.
    repeat split; reflexivity.
  - exists "chr1"%string, "15"%string, "42"%string, "AAAG-1"%string, "2"%string, 15, 42.
    repeat split; reflexivity.
Defined.

(** ** [count_fragments] *)

Lemma insert_by_count_perm (r : barcode_count) (l : list barcode_count) :
  insert_by_count r l ≡ₚ r :: l.
Proof.
  induction l as [|r' l IH]; simpl; [done|].
  destruct (fragments r' <? fragments r); [done|].
  rewrite IH. apply perm_swap.
Qed.

Lemma sort_by_count_perm (l : list barcode_count) :
  foldr insert_by_count [] l ≡ₚ l.
Proof.
  induction l as [|r l IH]; simpl; [done|].
  rewrite insert_by_count_perm. by rewrite IH.
Qed.














(** ** [reshape_with_padding] and [atacworks_denoise] where a window has
       more than one interval *)

(** C4: a track of 10 positions, intervals of 4 and a pad of 1 make two
    intervals, whose windows are positions 0 to 5 and 4 to 9.  The starts
    that [reshape_with_padding] takes are [range(0, 4, 5)], that is 0
    alone; the one window is written to both rows.  With three intervals
    (14 positions) the starts are 0 and 5, and two windows cannot be
    assigned to three rows. *)
Theorem reshape_with_padding_misses_windows :
  let coverage := Array2 1 10 [[1; 2; 3; 4; 5; 6; 7; 8; 9; 10]] in
  let longer := Array2 1 14 [[1; 2; 3; 4; 5; 6; 7; 8; 9; 10; 11; 12; 13; 14]] in
  int_div (10 - 2 * 1) 4 = Ok 2 ∧
  py_range 0 (10 - (4 + 2 * 1)) (4 + 1) = Ok [0] ∧
  reshape_with_padding 0 coverage 4 1
    = Ok (Array2 2 6 [[1; 2; 3; 4; 5; 6]; [1; 2; 3; 4; 5; 6]]) ∧
  padded_window coverage 4 1 0 0 = [1; 2; 3; 4; 5; 6] ∧
  padded_window coverage 4 1 0 1 = [5; 6; 7; 8; 9; 10] ∧
  int_div (14 - 2 * 1) 4 = Ok 3 ∧
  py_range 0 (14 - (4 + 2 * 1)) (4 + 1) = Ok [0; 5] ∧
  reshape_with_padding 0 longer 4 1 = Raised ValueError.
Proof. vm_compute. repeat split; reflexivity. Qed.

(** C5: on the track of 14 positions, with intervals of 4 and a pad of 1,
    [atacworks_denoise] raises in [reshape_with_padding], whatever the
    model, and returns no array of shape (1, 12, K). *)
Theorem atacworks_denoise_raises (model : array2 Z → list (array2 Z)) :
  atacworks_denoise 0
    (Array2 1 14 [[1; 2; 3; 4; 5; 6; 7; 8; 9; 10; 11; 12; 13; 14]]) model 4 1
  = Raised ValueError.
Proof. reflexivity. Qed.

(** ** Further properties of the kernel and of [get_coverages] *)

(** The threads of a launch may run in any order: whatever the order in
    which the rows are expanded, and however often a row is expanded, the
    columns end with every expanded row in place. *)
Theorem expand_rows_any_order
    (start end_ index : list Z) (out : columns) (schedule : list Z) :
  length end_ = length start →
  length index = length start →
  Forall is_int32 start → Forall is_int32 end_ → Forall is_int32 index →
  Forall (fun x => 0 <= x) (fragment_lengths start end_) →
  sum_Z (fragment_lengths start end_) < 2 ^ 63 →
  has_room out (sum_Z (fragment_lengths start end_)) →
  Forall (fun z => 0 <= z < Z.of_nat (length start)) schedule →
  ∃ out',
    for_each (expand_row start end_ index
                (inclusive_cumsum (fragment_lengths start end_)) 1) schedule out
      = Ok out' ∧
    ∀ z, z ∈ schedule →
      row_expanded start end_ index
        (inclusive_cumsum (fragment_lengths start end_)) out' (Z.to_nat z).
Proof.
  intros He Hi Hs32 He32 Hi32 Hnn H64 Hroom Hsched.
  destruct (for_each_fills start end_ index _ _ _
              (expand_row_fills_Z start end_ index He Hi Hs32 He32 Hnn H64)
              schedule out Hsched Hroom) as (out' & E & _ & _ & C).
  exists out'. split; [done|].
  intros z Hz s e r ei k Hs Hend Hr Hei Hk.
  destruct (C (Z.to_nat z) (ex_intro _ z (conj Hz eq_refl)) s e r ei k Hs Hend Hr Hei Hk)
    as (F1 & F2 & F3).
  rewrite wrap32_small in F3 by (by apply (Forall_lookup_1 _ index (Z.to_nat z))).
  done.
Qed.

Lemma expand_rows_any_order_witness :
  ∃ out',
    for_each (expand_row [10; 20] [12; 23] [0; 1]
                (inclusive_cumsum (fragment_lengths [10; 20] [12; 23])) 1)
             [1; 0; 1]
             (Columns [0; 0; 0; 0; 0] [0; 0; 0; 0; 0] [0; 0; 0; 0; 0])
      = Ok out' ∧
    ∀ z, z ∈ [1; 0; 1] →
      row_expanded [10; 20] [12; 23] [0; 1]
        (inclusive_cumsum (fragment_lengths [10; 20] [12; 23])) out' (Z.to_nat z).
Proof.
  apply (expand_rows_any_order [10; 20] [12; 23] [0; 1]);
    try reflexivity;
    try (repeat constructor; unfold is_int32; simpl; lia).
Defined.

(** Whenever the fragment lengths sum to more than the window size, the
    kernel of [get_coverages] stores outside the columns it was given. *)
Theorem get_coverages_undefined_beyond_window (tpb : Z) (reads_orig : loc)
    (chrom : string) (start end_ pad : Z) (σ : store) (rows : list Reads.row) :
  0 < tpb →
  σ !! reads_orig = Some (ReadsFrame rows) →
  Forall fragment_row rows →
  0 <= end_ - start + 2 * pad < sum_Z (map Reads.len rows) →
  sum_Z (map Reads.len rows) < 2 ^ 63 →
  get_coverages tpb reads_orig chrom start end_ pad σ = Undef.
Proof.
  intros Htpb Hrows Hfrag Hw H64.
  assert (Hwp : wp (get_coverages tpb reads_orig chrom start end_ pad)
                   (fun _ _ => False) (fun _ => False) True σ).
  { apply wp_get_coverages.
    - intros Hno. by destruct (Hno rows).
    - intros rows' Hrows'. assert (rows' = rows) as -> by congruence. cbv zeta.
      pose proof (sort_by_row_num_perm rows) as Hperm.
      assert (Hfrag' : Forall fragment_row (sort_by_row_num rows)) by (by rewrite Hperm).
      assert (Hsum' : sum_Z (map Reads.len (sort_by_row_num rows))
                      = sum_Z (map Reads.len rows)).
      { apply sum_Z_perm. by apply fmap_Permutation. }
      rewrite np_zeros_ok by lia.
      pose proof (fragment_rows_lengths _ Hfrag') as Hlens.
      assert (Hnn : Forall (fun x => 0 <= x) (map Reads.len (sort_by_row_num rows))).
      { apply Forall_fmap. eapply Forall_impl; [exact Hfrag'|].
        by intros r (_ & _ & _ & ?). }
      rewrite cumsum_exact by (done || lia). rewrite <- Hlens in *.
      rewrite (launch_overruns (map Reads.start (sort_by_row_num rows))
                 (map Reads.end_ (sort_by_row_num rows))); try done.
      + by rewrite !length_map.
      + by rewrite !length_map.
      + apply Forall_fmap. eapply Forall_impl; [exact Hfrag'|]. by intros r (? & _).
      + apply Forall_fmap. eapply Forall_impl; [exact Hfrag'|]. by intros r (_ & ? & _).
      + lia.
      + cbn [interval_start]. rewrite length_replicate. lia. }
  unfold wp in Hwp. by destruct (get_coverages _ _ _ _ _ _ _).
Qed.

Lemma get_coverages_undefined_beyond_window_witness :
  get_coverages 128 0%nat "chr1" 100 110 0
    [ReadsFrame [Reads.Row "chr1" 95 115 "AAAC-1" 0 20 0]] = Undef.
Proof.
  apply (get_coverages_undefined_beyond_window 128 0%nat "chr1" 100 110 0
           [ReadsFrame [Reads.Row "chr1" 95 115 "AAAC-1" 0 20 0]]
           [Reads.Row "chr1" 95 115 "AAAC-1" 0 20 0]); try reflexivity.
  - repeat constructor; unfold is_int32; simpl; lia.
  - simpl. lia.
Defined.

(** ** Further properties of [reshape_with_padding] *)

(** A track of [n >= 2] intervals has fewer interval starts than
    intervals: the starts stop before [W - padded_interval_size] and
    advance by [interval_size + pad]. *)
Theorem interval_starts_too_few (n interval_size pad : Z) :
  2 <= n → 0 < interval_size → 0 <= pad →
  ∃ interval_starts,
    py_range 0 (n * interval_size + 2 * pad - (interval_size + 2 * pad))
             (interval_size + pad) = Ok interval_starts ∧
    Z.of_nat (length interval_starts) < n.
Proof.
  intros Hn Hi Hp. unfold py_range.
  replace (interval_size + pad =? 0) with false by (symmetry; apply Z.eqb_neq; lia).
  eexists. split; [done|].
  unfold range_from. rewrite length_map, length_seq. unfold range_len.
  replace (0 <? interval_size + pad) with true by (symmetry; apply Z.ltb_lt; lia).
  replace (0 <? n * interval_size + 2 * pad - (interval_size + 2 * pad))
    with true by (symmetry; apply Z.ltb_lt; nia).
  assert ((n * interval_size + 2 * pad - (interval_size + 2 * pad) - 0 - 1)
            / (interval_size + pad) < n - 1); [|lia].
  apply Z.div_lt_upper_bound; nia.
Qed.

Lemma interval_starts_too_few_witness :
  ∃ interval_starts,
    py_range 0 (3 * 4 + 2 * 1 - (4 + 2 * 1)) (4 + 1) = Ok interval_starts ∧
    Z.of_nat (length interval_starts) < 3.
Proof. apply (interval_starts_too_few 3 4 1); lia. Defined.

Lemma clip_bound_inside (n x : Z) : 0 <= x <= n → clip_bound n x = x.
Proof.
  intros H. unfold clip_bound.
  replace (x <? 0) with false by (symmetry; apply Z.ltb_ge; lia). lia.
Qed.

Lemma py_slice_whole {V} (row : list V) :
  py_slice row 0 (0 + Z.of_nat (length row)) = row.
Proof.
  unfold py_slice. rewrite !clip_bound_inside by lia.
  replace (Z.to_nat (0 + Z.of_nat (length row) - 0)) with (length row) by lia.
  change (Z.to_nat 0) with 0%nat. rewrite drop_0. by rewrite take_ge.
Qed.

Section SingleInterval.
Context {V : Type} (zero : V) (coverage : array2 V).
Hypothesis shaped : well_shaped coverage.

Let C := shape0 coverage.
Let W := shape1 coverage.

(** The array after [k] rounds of the loop: the first [k] rows of the
    track, then rows of zeros. *)
Let filled (k : nat) : array2 V :=
  Array2 C W (take k (data coverage) ++ replicate (C - k) (replicate W zero)).

Lemma reshape_round (k : nat) :
  (k < C)%nat →
  (let* stacked :=
     np_stack (map (fun start => row_slice coverage k start (start + Z.of_nat W)) [0]) in
   assign_rows (filled k) (Z.of_nat k * 1) ((Z.of_nat k + 1) * 1) stacked)
  = Ok (filled (S k)).
Proof.
  intros Hk. destruct shaped as [Hrows Hcols].
  destruct (lookup_lt_is_Some_2 (data coverage) k) as [row Hrow]; [by rewrite Hrows|].
  assert (Hlen : length row = W).
  { by apply (Forall_lookup_1 (fun row => length row = shape1 coverage)
                (data coverage) k). }
  cbn [map]. unfold row_slice. rewrite Hrow, <- Hlen, py_slice_whole.
  cbn [np_stack forallb length result_bind]. unfold assign_rows.
  cbn [shape0 shape1 data filled].
  rewrite !Z.mul_1_r, !clip_bound_inside by lia.
  replace (Z.to_nat (Z.of_nat k + 1 - Z.of_nat k)) with 1%nat by lia.
  unfold broadcast_to. cbn [shape0 shape1 data].
  rewrite Hlen, Nat.eqb_refl. cbn [orb negb broadcast_rows].
  unfold broadcast_row. rewrite Hlen, Nat.eqb_refl. cbn [result_bind].
  rewrite Nat.eqb_refl, Nat2Z.id.
  rewrite take_app_length' by (rewrite length_take; lia).
  rewrite drop_app_ge by (rewrite length_take; lia).
  rewrite length_take, drop_replicate.
  cbn [result_bind]. unfold filled. do 2 f_equal.
  rewrite (take_S_r _ _ _ Hrow), <- app_assoc. cbn [app].
  do 3 f_equal. lia.
Qed.

Lemma reshape_rounds (k : nat) :
  (k <= C)%nat →
  for_each
    (fun i reshaped =>
       let* stacked :=
         np_stack (map (fun start => row_slice coverage i start (start + Z.of_nat W)) [0]) in
       assign_rows reshaped (Z.of_nat i * 1) ((Z.of_nat i + 1) * 1) stacked)
    (seq 0 k) (filled 0)
  = Ok (filled k).
Proof.
  induction k as [|k IH]; intros Hk; [done|].
  rewrite seq_S, for_each_app, IH by lia. cbn [result_bind for_each plus].
  rewrite reshape_round by lia. done.
Qed.
End SingleInterval.

(** A track that is one interval with its two pads is returned as it is:
    its one window per row is the row. *)
Theorem reshape_with_padding_single_interval {V} (zero : V) (coverage : array2 V)
    (interval_size pad : Z) :
  well_shaped coverage →
  0 < interval_size → 0 <= pad →
  Z.of_nat (shape1 coverage) = interval_size + 2 * pad →
  Z.of_nat (shape0 coverage) < 2 ^ 63 → Z.of_nat (shape1 coverage) < 2 ^ 63 →
  reshape_with_padding zero coverage interval_size pad = Ok coverage ∧
  ∀ i row, data coverage !! i = Some row →
           padded_window coverage interval_size pad i 0 = row.
Proof.
  intros Hshaped Hi Hp HW H0 H1. split.
  - unfold reshape_with_padding, int_div.
    replace (interval_size =? 0) with false by (symmetry; apply Z.eqb_neq; lia).
    cbn [result_bind].
    replace (Z.of_nat (shape1 coverage) - 2 * pad) with interval_size by lia.
    rewrite Z.quot_same by lia. cbn [Z.eqb Pos.eqb result_bind].
    unfold np_zeros_shape. rewrite Z.mul_1_r, <- HW.
    replace ((Z.of_nat (shape0 coverage) <? 0) || (Z.of_nat (shape1 coverage) <? 0))
      with false by (symmetry; apply orb_false_iff; split; apply Z.ltb_ge; lia).
    replace ((2 ^ 63 <=? Z.of_nat (shape0 coverage))
             || (2 ^ 63 <=? Z.of_nat (shape1 coverage)))
      with false by (symmetry; apply orb_false_iff; split; apply Z.leb_gt; lia).
    cbn [result_bind]. rewrite !Nat2Z.id.
    pose proof (reshape_rounds zero coverage Hshaped (shape0 coverage) (le_n _)) as Hrun.
    cbn beta in Hrun. rewrite take_0, Nat.sub_0_r in Hrun. cbn [app] in Hrun.
    rewrite Hrun. rewrite Nat.sub_diag. cbn [replicate]. rewrite app_nil_r.
    destruct Hshaped as [Hrows _]. rewrite take_ge by lia.
    by destruct coverage.
  - intros i row Hrow. unfold padded_window, row_slice. rewrite Hrow.
    destruct Hshaped as [_ Hcols].
    assert (length row = shape1 coverage) as Hlen.
    { by apply (Forall_lookup_1 (fun row => length row = shape1 coverage)
                  (data coverage) i). }
    replace (Z.of_nat 0 * interval_size) with 0 by lia.
    replace (0 + interval_size + 2 * pad) with (0 + Z.of_nat (length row)) by lia.
    apply py_slice_whole.
Qed.

Lemma reshape_with_padding_single_interval_witness :
  reshape_with_padding 0 (Array2 2 6 [[1; 2; 3; 4; 5; 6]; [7; 8; 9; 10; 11; 12]]) 4 1
    = Ok (Array2 2 6 [[1; 2; 3; 4; 5; 6]; [7; 8; 9; 10; 11; 12]]) ∧
  ∀ i row,
    data (Array2 2 6 [[1; 2; 3; 4; 5; 6]; [7; 8; 9; 10; 11; 12]]) !! i = Some row →
    padded_window (Array2 2 6 [[1; 2; 3; 4; 5; 6]; [7; 8; 9; 10; 11; 12]]) 4 1 i 0 = row.
Proof.
  apply (reshape_with_padding_single_interval 0
           (Array2 2 6 [[1; 2; 3; 4; 5; 6]; [7; 8; 9; 10; 11; 12]]) 4 1);
    try reflexivity; try lia.
  split; [reflexivity | by repeat constructor].
Defined.

(* ===================================================================== *)
(** * Part III: further properties                                       *)
(* ===================================================================== *)

(** ** What a launch leaves in the columns *)

Lemma array_set_ok_insert (a a' : list Z) (j v : Z) :
  0 <= j → array_set a j v = Ok a' → a' = <[Z.to_nat j := wrap32 v]> a.
Proof.
  intros Hj. unfold array_set, in_bounds, norm_index.
  replace (j <? 0) with false by (symmetry; apply Z.ltb_ge; lia).
  destruct (_ && _); [|done]. by intros [= <-].
Qed.

Lemma expand_step_keeps (index : list Z) (i j c c' : Z) (out out' : columns) :
  0 <= j → expand_step index i j (c, out) = Ok (c', out') →
  ∀ j' : nat, j' ≠ Z.to_nat j → same_slot out out' j'.
Proof.
  intros Hj. unfold expand_step.
  destruct (array_set (interval_start out) j c) as [a1| |] eqn:E1; try done.
  apply array_set_ok_insert in E1 as ->; [|done]. cbn [result_bind].
  destruct (array_set (interval_end out) j _) as [a2| |] eqn:E2; try done.
  apply array_set_ok_insert in E2 as ->; [|done]. cbn [result_bind].
  destruct (array_get index i) as [r| |]; try done. cbn [result_bind].
  destruct (array_set (interval_index out) j r) as [a3| |] eqn:E3; try done.
  apply array_set_ok_insert in E3 as ->; [|done]. cbn [result_bind].
  intros [= <- <-] j' Hj'. unfold same_slot. cbn [interval_start interval_end interval_index].
  by rewrite !list_lookup_insert_ne by done.
Qed.

Lemma expand_steps_keep (index : list Z) (i : Z) (m : nat) :
  ∀ (first c : Z) (out : columns) st,
    0 <= first →
    for_each (expand_step index i) (range_from first 1 m) (c, out) = Ok st →
    ∀ j : nat, ¬ (first <= Z.of_nat j < first + Z.of_nat m) → same_slot out (snd st) j.
Proof.
  induction m as [|m IH]; intros first c out st Hfirst.
  - simpl. by intros [= <-] j _.
  - rewrite range_from_S. cbn [for_each].
    destruct (expand_step index i first (c, out)) as [[c1 out1]| |] eqn:E; try done.
    cbn [result_bind]. intros Hrest j Hj.
    pose proof (expand_step_keeps _ _ _ _ _ _ _ Hfirst E j ltac:(lia)) as (K1 & K2 & K3).
    destruct (IH (first + 1) c1 out1 st ltac:(lia) Hrest j ltac:(lia)) as (L1 & L2 & L3).
    unfold same_slot. by rewrite L1, L2, L3.
Qed.

Lemma same_from_refl (t : Z) (out : columns) : same_from t out out.
Proof. by intros j _. Qed.

Lemma same_from_trans (t : Z) (out1 out2 out3 : columns) :
  same_from t out1 out2 → same_from t out2 out3 → same_from t out1 out3.
Proof.
  intros H1 H2 j Hj. destruct (H1 j Hj) as (A1 & A2 & A3), (H2 j Hj) as (B1 & B2 & B3).
  unfold same_slot. by rewrite B1, B2, B3.
Qed.

(** A loop whose every round keeps the slots from [t] on keeps them. *)
Lemma for_each_same_from {A} (t : Z) (body : A → columns → result columns)
    (good : A → Prop) :
  (∀ x out out', good x → body x out = Ok out' → same_from t out out') →
  ∀ xs out out', Forall good xs → for_each body xs out = Ok out' → same_from t out out'.
Proof.
  intros Hbody xs. induction xs as [|x xs IH]; intros out out' Hgood.
  - simpl. intros [= <-]. apply same_from_refl.
  - apply Forall_cons in Hgood as [Hx Hxs]. cbn [for_each].
    destruct (body x out) as [out1| |] eqn:E; try done. cbn [result_bind].
    intros Hrest. eapply same_from_trans; [by eapply Hbody | by eapply IH].
Qed.

Section Untouched.
Variables (start end_ index : list Z).
Let lens := fragment_lengths start end_.
Let end_index := inclusive_cumsum lens.
Let n := length start.

Hypothesis end_size : length end_ = n.
Hypothesis index_size : length index = n.
Hypothesis start_int32 : Forall is_int32 start.
Hypothesis end_int32 : Forall is_int32 end_.
Hypothesis lens_nonneg : Forall (fun x => 0 <= x) lens.
Hypothesis total_int64 : sum_Z lens < 2 ^ 63.

Lemma expand_row_keeps (z : Z) (out out' : columns) :
  0 <= z < Z.of_nat n →
  expand_row start end_ index end_index 1 z out = Ok out' →
  same_from (sum_Z lens) out out'.
Proof.
  intros Hz.
  assert (Hi : (Z.to_nat z < n)%nat) by lia.
  destruct (lookup_lt_is_Some_2 start _ Hi) as [s Hs].
  destruct (lookup_lt_is_Some_2 end_ (Z.to_nat z)) as [e He]; [lia|].
  destruct (row_slots start end_ lens_nonneg _ s e Hs He)
    as (Hei & Hlen & Hlo & Hhi).
  fold lens in Hei, Hlo, Hhi. fold end_index in Hei.
  assert (is_int32 s) by (by apply (Forall_lookup_1 _ start (Z.to_nat z))).
  assert (is_int32 e) by (by apply (Forall_lookup_1 _ end_ (Z.to_nat z))).
  unfold expand_row.
  rewrite (array_get_lookup end_index _ (psum lens (Z.to_nat z) + (e - s))) by (lia || done).
  rewrite (array_get_lookup end_ _ e) by (lia || done).
  rewrite (array_get_lookup start _ s) by (lia || done).
  cbn [result_bind].
  rewrite (wrap64_small (e - s)) by (unfold is_int32, is_int64 in *; lia).
  rewrite wrap64_small by (unfold is_int64; lia).
  replace (psum lens (Z.to_nat z) + (e - s) - (e - s)) with (psum lens (Z.to_nat z)) by lia.
  rewrite py_range_unit by lia. cbn [result_bind].
  destruct (for_each _ _ _) as [st| |] eqn:E; try done. cbn [result_bind].
  intros [= <-] j Hj.
  apply (expand_steps_keep _ _ _ _ _ _ _ Hlo E). fold lens in Hhi. lia.
Qed.

Lemma launch_keeps (tpb : Z) (out out' : columns) :
  0 < tpb →
  launch_expand_interval tpb start end_ index end_index out 1 = Ok out' →
  same_from (sum_Z lens) out out'.
Proof.
  intros Htpb. unfold launch_expand_interval, forall_launch. fold n.
  destruct (Z.of_nat n =? 0); [intros [= <-]; apply same_from_refl|].
  apply (for_each_same_from _ _ (fun _ => True)); [|by apply Forall_forall].
  intros _ o o' _.
  apply (for_each_same_from _ _ (fun tid => 0 <= tid)).
  - intros tid o1 o2 Htid. unfold expand_interval, py_range.
    replace (tpb =? 0) with false by (symmetry; apply Z.eqb_neq; lia).
    cbn [result_bind].
    apply (for_each_same_from _ _ (fun z => 0 <= z < Z.of_nat n)).
    + intros z o3 o4 Hz. by apply expand_row_keeps.
    + by apply (thread_rows_valid start end_ index).
  - apply Forall_forall. intros tid Ht.
    apply elem_of_range_from in Ht as (k & _ & ->). lia.
Qed.
End Untouched.

Lemma psum_cons (x : Z) (l : list Z) (i : nat) : psum (x :: l) (S i) = x + psum l i.
Proof. done. Qed.

Lemma unit_intervals_length (s len r : Z) :
  length (unit_intervals s len r) = Z.to_nat len.
Proof. unfold unit_intervals. by rewrite length_map, length_seq. Qed.

Lemma unit_intervals_lookup (s len r : Z) (k : nat) :
  (k < Z.to_nat len)%nat →
  unit_intervals s len r !! k = Some (s + Z.of_nat k, s + Z.of_nat k + 1, r).
Proof.
  intros Hk. unfold unit_intervals. rewrite list_lookup_fmap, lookup_seq_lt by done.
  done.
Qed.

Lemma expansion_length (start end_ index : list Z) :
  length end_ = length start → length index = length start →
  Forall (fun x => 0 <= x) (fragment_lengths start end_) →
  Z.of_nat (length (expansion start end_ index)) = sum_Z (fragment_lengths start end_).
Proof.
  revert end_ index. induction start as [|s start IH]; intros [|e end_] [|r index];
    simpl; try done.
  intros He Hi Hnn. apply Forall_cons in Hnn as [Hx Hnn].
  rewrite length_app, unit_intervals_length, Nat2Z.inj_add, IH by (done || lia).
  unfold sum_Z. simpl. lia.
Qed.

Lemma expansion_lookup (start end_ index : list Z) (i : nat) (s e r k : Z) :
  Forall (fun x => 0 <= x) (fragment_lengths start end_) →
  start !! i = Some s → end_ !! i = Some e → index !! i = Some r →
  0 <= k < e - s →
  expansion start end_ index !! Z.to_nat (psum (fragment_lengths start end_) i + k)
    = Some (s + k, s + k + 1, wrap32 r).
Proof.
  revert end_ index i. induction start as [|s0 start IH];
    intros [|e0 end_] [|r0 index] i Hnn Hs He Hr Hk; try done.
  simpl in Hnn. apply Forall_cons in Hnn as [Hx Hnn].
  destruct i as [|i]; simpl in Hs, He, Hr.
  - injection Hs as ->. injection He as ->. injection Hr as ->.
    rewrite psum_0. simpl. rewrite lookup_app_l
      by (rewrite unit_intervals_length; lia).
    rewrite unit_intervals_lookup by lia. do 3 f_equal; lia.
  - change (fragment_lengths (s0 :: start) (e0 :: end_))
      with ((e0 - s0) :: fragment_lengths start end_).
    rewrite psum_cons. cbn [expansion].
    pose proof (psum_nonneg (fragment_lengths start end_) i Hnn).
    rewrite lookup_app_r by (rewrite unit_intervals_length; lia).
    rewrite unit_intervals_length.
    replace (Z.to_nat (e0 - s0 + psum (fragment_lengths start end_) i + k)
             - Z.to_nat (e0 - s0))%nat
      with (Z.to_nat (psum (fragment_lengths start end_) i + k)) by lia.
    by apply IH.
Qed.

(** Every slot below the sum of the lengths belongs to one row. *)
Lemma slot_row (start end_ : list Z) (j : Z) :
  length end_ = length start →
  Forall (fun x => 0 <= x) (fragment_lengths start end_) →
  0 <= j < sum_Z (fragment_lengths start end_) →
  ∃ i s e, start !! i = Some s ∧ end_ !! i = Some e ∧
           psum (fragment_lengths start end_) i <= j
             < psum (fragment_lengths start end_) i + (e - s).
Proof.
  intros Hsize Hnn Hj. set (lens := fragment_lengths start end_) in *.
  assert (H : ∀ k : nat, (k <= length start)%nat → j < psum lens k →
            ∃ i s e, start !! i = Some s ∧ end_ !! i = Some e ∧
                     psum lens i <= j < psum lens i + (e - s)).
  { induction k as [|k IH]; intros Hk Hlt.
    - rewrite psum_0 in Hlt. lia.
    - destruct (lookup_lt_is_Some_2 start k) as [s Hs]; [lia|].
      destruct (lookup_lt_is_Some_2 end_ k) as [e He]; [lia|].
      rewrite (psum_S lens k (e - s)) in Hlt by (by apply fragment_lengths_lookup).
      destruct (decide (psum lens k <= j)) as [Hle|Hgt].
      + by exists k, s, e.
      + apply IH; lia. }
  apply (H (length start)); [done|]. rewrite psum_ge; [lia|].
  unfold lens. by rewrite fragment_lengths_length.
Qed.

Lemma expanded_rows_lookup (cols : columns) (j : nat) (a b c : Z) :
  interval_start cols !! j = Some a → interval_end cols !! j = Some b →
  interval_index cols !! j = Some c →
  expanded_rows cols !! j = Some (a, b, c).
Proof.
  intros Ha Hb Hc. unfold expanded_rows.
  rewrite !lookup_zip_with, Ha, Hb, Hc. done.
Qed.

(** The columns after a launch, slot by slot: the unit intervals of the
    fragments, row after row, and from the sum of the lengths on what the
    columns held before. *)
Lemma launch_result (tpb : Z) (start end_ index : list Z) (out : columns) :
  0 < tpb →
  length end_ = length start → length index = length start →
  Forall is_int32 start → Forall is_int32 end_ →
  Forall (fun x => 0 <= x) (fragment_lengths start end_) →
  sum_Z (fragment_lengths start end_) < 2 ^ 63 →
  has_room out (sum_Z (fragment_lengths start end_)) →
  ∃ out',
    launch_expand_interval tpb start end_ index
      (inclusive_cumsum (fragment_lengths start end_)) out 1 = Ok out' ∧
    same_size out out' ∧
    take (Z.to_nat (sum_Z (fragment_lengths start end_))) (expanded_rows out')
      = expansion start end_ index ∧
    same_from (sum_Z (fragment_lengths start end_)) out out'.
Proof.
  intros Htpb He Hi Hs32 He32 Hnn H64 Hroom.
  destruct (launch_fills start end_ index He Hi Hs32 He32 Hnn H64 tpb out Htpb Hroom)
    as (out' & E & S & _ & C).
  exists out'. split; [done|]. split; [done|]. split.
  - set (t := sum_Z (fragment_lengths start end_)) in *.
    pose proof (expansion_length start end_ index He Hi Hnn) as Hlen. fold t in Hlen.
    apply list_eq. intros j.
    destruct (decide (Z.of_nat j < t)) as [Hj|Hj].
    + rewrite lookup_take_lt by lia.
      destruct (slot_row start end_ (Z.of_nat j) He Hnn) as (i & s & e & Hs & Hend & Hij);
        [lia|].
      destruct (lookup_lt_is_Some_2 index i) as [r Hr].
      { apply lookup_lt_Some in Hs. lia. }
      destruct (row_slots start end_ Hnn i s e Hs Hend) as (Hei & _).
      destruct (C i s e r _ (Z.of_nat j - psum (fragment_lengths start end_) i)
                  Hs Hend Hr Hei ltac:(lia)) as (F1 & F2 & F3).
      replace (Z.to_nat (psum (fragment_lengths start end_) i + (e - s) - (e - s)
                         + (Z.of_nat j - psum (fragment_lengths start end_) i)))
        with j in * by lia.
      rewrite (expanded_rows_lookup _ _ _ _ _ F1 F2 F3).
      pose proof (expansion_lookup start end_ index i s e r
                    (Z.of_nat j - psum (fragment_lengths start end_) i)
                    Hnn Hs Hend Hr ltac:(lia)) as Hx.
      replace (Z.to_nat (psum (fragment_lengths start end_) i
                         + (Z.of_nat j - psum (fragment_lengths start end_) i)))
        with j in Hx by lia.
      rewrite Hx. do 3 f_equal; lia.
    + rewrite lookup_take_ge by lia. symmetry. apply lookup_ge_None. lia.
  - by apply (launch_keeps start end_ index He Hi Hs32 He32 Hnn H64 tpb).
Qed.

(** ** [get_coverages] as one expression *)

Lemma store_lookup_new (σ : store) (f : frame) : (σ ++ [f]) !! length σ = Some f.
Proof. by apply list_lookup_middle. Qed.

(** What [get_coverages] does, given the rows of [reads_orig]: the
    allocation of the columns, the launch, and the array filled from the
    merged and grouped rows. *)
Lemma get_coverages_eq (tpb : Z) (reads_orig : loc) (chrom : string)
    (start end_ pad : Z) (σ : store) (rows : list Reads.row) :
  σ !! reads_orig = Some (ReadsFrame rows) →
  get_coverages tpb reads_orig chrom start end_ pad σ =
    match np_zeros (end_ - start + 2 * pad) with
    | Ok zs =>
        match launch_expand_interval tpb
                (map Reads.start (sort_by_row_num rows))
                (map Reads.end_ (sort_by_row_num rows))
                (map Reads.row_num (sort_by_row_num rows))
                (cumsum (map Reads.len (sort_by_row_num rows)))
                (Columns zs zs zs) 1 with
        | Ok cols =>
            Done (Array2 (length (sorted_unique (map Reads.cluster (sort_by_row_num rows))))
                    (Z.to_nat (end_ - start + 2 * pad))
                    (fill_clusters
                       (groupby_count
                          (merge_on_row_num (expanded_rows cols)
                             (map drop_coords (sort_by_row_num rows))))
                       start end_ pad
                       (sorted_unique (map Reads.cluster (sort_by_row_num rows)))
                       (replicate
                          (length (sorted_unique
                                     (map Reads.cluster (sort_by_row_num rows))))
                          zs)))
                 (σ ++ [ReadsFrame rows; MetaFrame (map drop_coords (sort_by_row_num rows));
                        ExpandedFrame cols])
        | Raised e =>
            Failed e (σ ++ [ReadsFrame rows; ReadsFrame (sort_by_row_num rows);
                            ExpandedFrame (Columns zs zs zs)])
        | Undefined => Undef
        end
    | Raised e => Failed e (σ ++ [ReadsFrame rows; ReadsFrame (sort_by_row_num rows)])
    | Undefined => Undef
    end.
Proof.
  intros Hrows.
  unfold get_coverages, bind, reads_rows, new_frame, lift, expanded_cols, write_frame,
    meta_rows, ret.
  rewrite Hrows. cbv beta iota.
  rewrite store_lookup_new. cbv beta iota.
  rewrite store_lookup_new. cbv beta iota.
  destruct (np_zeros (end_ - start + 2 * pad)) as [zs|e|] eqn:Hz;
    [|by store_norm|done].
  rewrite store_lookup_new. cbv beta iota.
  destruct (launch_expand_interval _ _ _ _ _ _ _) as [cols|e|];
    [|by store_norm|done].
  store_norm. replace (length σ + 1 + 1)%nat with (length σ + 2)%nat by lia.
  store_norm.
  unfold np_zeros2. rewrite Hz.
  cbn [result_bind shape0 shape1 data]. store_norm. done.
Qed.

(** ** The columns of [get_coverages] after the launch *)

Lemma expansion_rows (rows : list Reads.row) :
  expansion (map Reads.start rows) (map Reads.end_ rows) (map Reads.row_num rows)
  = flat_map (fun r => unit_intervals (Reads.start r) (Reads.end_ r - Reads.start r)
                                      (wrap32 (Reads.row_num r))) rows.
Proof. induction rows as [|r rows IH]; simpl; [done|]. by rewrite IH. Qed.

Lemma launch_zeros (tpb w : Z) (rows : list Reads.row) :
  0 < tpb → Forall fragment_row rows →
  sum_Z (map Reads.len rows) <= w < 2 ^ 63 →
  ∃ cols,
    launch_expand_interval tpb (map Reads.start rows) (map Reads.end_ rows)
      (map Reads.row_num rows) (cumsum (map Reads.len rows))
      (Columns (replicate (Z.to_nat w) 0) (replicate (Z.to_nat w) 0)
               (replicate (Z.to_nat w) 0)) 1 = Ok cols ∧
    expanded_rows cols
      = expansion (map Reads.start rows) (map Reads.end_ rows) (map Reads.row_num rows)
        ++ replicate (Z.to_nat (w - sum_Z (map Reads.len rows))) (0, 0, 0).
Proof.
  intros Htpb Hrows [Hsum Hw].
  pose proof (fragment_rows_lengths rows Hrows) as Hlens.
  assert (Hnn : Forall (fun x => 0 <= x) (map Reads.len rows)).
  { apply Forall_fmap. eapply Forall_impl; [exact Hrows|]. by intros r (_ & _ & _ & ?). }
  assert (0 <= sum_Z (map Reads.len rows)).
  { rewrite <- (psum_ge _ (length (map Reads.len rows))) by lia. by apply psum_nonneg. }
  rewrite cumsum_exact by (done || lia). rewrite <- Hlens in *.
  set (t := sum_Z (fragment_lengths (map Reads.start rows) (map Reads.end_ rows))) in *.
  set (zs := replicate (Z.to_nat w) 0).
  destruct (launch_result tpb (map Reads.start rows) (map Reads.end_ rows)
              (map Reads.row_num rows) (Columns zs zs zs))
    as (cols & E & (S1 & S2 & S3) & Htake & Hkeep); try done.
  - by rewrite !length_map.
  - by rewrite !length_map.
  - apply Forall_fmap. eapply Forall_impl; [exact Hrows|]. by intros r (? & _).
  - apply Forall_fmap. eapply Forall_impl; [exact Hrows|]. by intros r (_ & ? & _).
  - lia.
  - subst zs. repeat split; cbn; rewrite length_replicate; lia.
  - exists cols. split; [done|].
    rewrite <- (take_drop (Z.to_nat t) (expanded_rows cols)). fold t in Htake.
    rewrite Htake. f_equal.
    cbn [interval_start interval_end interval_index] in S1, S2, S3.
    unfold zs in S1, S2, S3. rewrite length_replicate in S1, S2, S3.
    apply list_eq. intros j. rewrite lookup_drop.
    destruct (Hkeep (Z.to_nat t + j)%nat ltac:(lia)) as (K1 & K2 & K3).
    cbn [interval_start interval_end interval_index] in K1, K2, K3.
    unfold zs in K1, K2, K3.
    destruct (decide (j < Z.to_nat (w - t))%nat) as [Hj|Hj].
    + rewrite lookup_replicate_2 in K1 by lia.
      rewrite lookup_replicate_2 in K2 by lia.
      rewrite lookup_replicate_2 in K3 by lia.
      rewrite (expanded_rows_lookup _ _ _ _ _ K1 K2 K3).
      by rewrite lookup_replicate_2 by lia.
    + transitivity (@None (Z * Z * Z)).
      * apply lookup_ge_None. unfold expanded_rows. rewrite !length_zip_with. lia.
      * symmetry. apply lookup_replicate_None. lia.
Qed.

(** ** The launch, as a list of rows *)

Lemma expanded_rows_lookup_inv (cols : columns) (j : nat) (a b c : Z) :
  expanded_rows cols !! j = Some (a, b, c) →
  interval_start cols !! j = Some a ∧ interval_end cols !! j = Some b ∧
  interval_index cols !! j = Some c.
Proof.
  unfold expanded_rows. intros H.
  apply lookup_zip_with_Some in H as ([a' b'] & c' & Heq & H & Hc).
  apply lookup_zip_with_Some in H as (a'' & b'' & Heq' & Ha & Hb).
  by simplify_eq.
Qed.

Lemma expanded_rows_same_slot (out out' : columns) (j : nat) :
  same_slot out out' j → expanded_rows out' !! j = expanded_rows out !! j.
Proof.
  intros (H1 & H2 & H3). unfold expanded_rows.
  rewrite !lookup_zip_with. by rewrite H1, H2, H3.
Qed.

(** Columns of one size that hold the same rows below slot [t] and agree
    with the same columns from slot [t] on are the same columns. *)
Lemma columns_determined (t : Z) (out out1 out2 : columns) :
  has_room out t →
  same_size out out1 → same_size out out2 →
  take (Z.to_nat t) (expanded_rows out1) = take (Z.to_nat t) (expanded_rows out2) →
  same_from t out out1 → same_from t out out2 →
  out1 = out2.
Proof.
  intros (R1 & R2 & R3) (A1 & A2 & A3) (B1 & B2 & B3) Htake K1 K2.
  assert (Hslot : ∀ j, same_slot out1 out2 j).
  { intros j. destruct (decide (Z.of_nat j < t)) as [Hj|Hj].
    - assert (Hrows : expanded_rows out1 !! j = expanded_rows out2 !! j).
      { rewrite <- (lookup_take_lt (expanded_rows out1) (Z.to_nat t) j) by lia.
        rewrite <- (lookup_take_lt (expanded_rows out2) (Z.to_nat t) j) by lia.
        by rewrite Htake. }
      destruct (lookup_lt_is_Some_2 (expanded_rows out1) j) as [[[a b] c] Hx].
      { unfold expanded_rows. rewrite !length_zip_with. lia. }
      pose proof Hx as Hy. rewrite Hrows in Hy.
      apply expanded_rows_lookup_inv in Hx as (X1 & X2 & X3).
      apply expanded_rows_lookup_inv in Hy as (Y1 & Y2 & Y3).
      unfold same_slot. by rewrite X1, X2, X3, Y1, Y2, Y3.
    - destruct (K1 j ltac:(lia)) as (X1 & X2 & X3).
      destruct (K2 j ltac:(lia)) as (Y1 & Y2 & Y3).
      unfold same_slot. by rewrite X1, X2, X3, Y1, Y2, Y3. }
  destruct out1 as [s1 e1 i1], out2 as [s2 e2 i2]. f_equal; apply list_eq; intros j;
    destruct (Hslot j) as (H1 & H2 & H3); done.
Qed.

(** The launch does not depend on the size of the blocks. *)
Lemma launch_block_size (tpb1 tpb2 : Z) (start end_ index : list Z) (zs : list Z) :
  0 < tpb1 → 0 < tpb2 →
  length end_ = length start → length index = length start →
  Forall is_int32 start → Forall is_int32 end_ →
  Forall (fun x => 0 <= x) (fragment_lengths start end_) →
  sum_Z (fragment_lengths start end_) < 2 ^ 63 →
  launch_expand_interval tpb1 start end_ index
    (inclusive_cumsum (fragment_lengths start end_)) (Columns zs zs zs) 1
  = launch_expand_interval tpb2 start end_ index
      (inclusive_cumsum (fragment_lengths start end_)) (Columns zs zs zs) 1.
Proof.
  intros H1 H2 He Hi Hs32 He32 Hnn H64.
  destruct (decide (sum_Z (fragment_lengths start end_) <= Z.of_nat (length zs)))
    as [Hroom|Hroom].
  - assert (Hr : has_room (Columns zs zs zs) (sum_Z (fragment_lengths start end_))).
    { by repeat split. }
    destruct (launch_result tpb1 start end_ index (Columns zs zs zs))
      as (out1 & -> & S1 & T1 & K1); try done.
    destruct (launch_result tpb2 start end_ index (Columns zs zs zs))
      as (out2 & -> & S2 & T2 & K2); try done.
    f_equal.
    apply (columns_determined (sum_Z (fragment_lengths start end_)) (Columns zs zs zs));
      try done.
    by rewrite T1, T2.
  - rewrite !(launch_overruns start end_ index) by (done || (cbn; lia)). done.
Qed.

(** The launch writes the unit intervals of the fragments, row after row,
    into the first slots of the columns, and leaves every slot from the
    sum of the lengths on as it was.  (The row index is kept in 32 bits.) *)
Theorem launch_writes_expansion (tpb : Z) (start end_ index : list Z) (out : columns) :
  0 < tpb →
  length end_ = length start → length index = length start →
  Forall is_int32 start → Forall is_int32 end_ →
  Forall (fun x => 0 <= x) (fragment_lengths start end_) →
  sum_Z (fragment_lengths start end_) < 2 ^ 63 →
  has_room out (sum_Z (fragment_lengths start end_)) →
  ∃ out',
    launch_expand_interval tpb start end_ index
      (inclusive_cumsum (fragment_lengths start end_)) out 1 = Ok out' ∧
    expanded_rows out'
      = expansion start end_ index
        ++ drop (Z.to_nat (sum_Z (fragment_lengths start end_))) (expanded_rows out).
Proof.
  intros Htpb He Hi Hs32 He32 Hnn H64 Hroom.
  destruct (launch_result tpb start end_ index out Htpb He Hi Hs32 He32 Hnn H64 Hroom)
    as (out' & E & _ & Htake & Hkeep).
  exists out'. split; [done|].
  rewrite <- (take_drop (Z.to_nat (sum_Z (fragment_lengths start end_)))
                (expanded_rows out')) at 1.
  rewrite Htake. f_equal.
  apply list_eq. intros j. rewrite !lookup_drop.
  apply expanded_rows_same_slot, Hkeep. lia.
Qed.

Lemma launch_writes_expansion_witness :
  ∃ out',
    launch_expand_interval 2 [10; 20] [12; 23] [0; 1]
      (inclusive_cumsum (fragment_lengths [10; 20] [12; 23]))
      (Columns [7; 7; 7; 7; 7; 7] [8; 8; 8; 8; 8; 8] [9; 9; 9; 9; 9; 9]) 1 = Ok out' ∧
    expanded_rows out'
      = expansion [10; 20] [12; 23] [0; 1]
        ++ drop (Z.to_nat (sum_Z (fragment_lengths [10; 20] [12; 23])))
             (expanded_rows
                (Columns [7; 7; 7; 7; 7; 7] [8; 8; 8; 8; 8; 8] [9; 9; 9; 9; 9; 9])).
Proof.
  apply (launch_writes_expansion 2 [10; 20] [12; 23] [0; 1]);
    try reflexivity; try lia;
    try (repeat constructor; unfold is_int32; simpl; lia).
Defined.

(** The outcome of [get_coverages] does not depend on the block size that
    the driver picks for the launch. *)
Theorem get_coverages_any_block_size (tpb1 tpb2 : Z) (reads_orig : loc)
    (chrom : string) (start end_ pad : Z) (σ : store) (rows : list Reads.row) :
  0 < tpb1 → 0 < tpb2 →
  σ !! reads_orig = Some (ReadsFrame rows) →
  Forall fragment_row rows →
  sum_Z (map Reads.len rows) < 2 ^ 63 →
  get_coverages tpb1 reads_orig chrom start end_ pad σ
  = get_coverages tpb2 reads_orig chrom start end_ pad σ.
Proof.
  intros H1 H2 Hrows Hfrag H64.
  rewrite !(get_coverages_eq _ _ _ _ _ _ _ rows Hrows).
  destruct (np_zeros _) as [zs| |]; [|done..].
  pose proof (sort_by_row_num_perm rows) as Hperm.
  assert (Hfrag' : Forall fragment_row (sort_by_row_num rows)) by (by rewrite Hperm).
  assert (Hsum' : sum_Z (map Reads.len (sort_by_row_num rows))
                  = sum_Z (map Reads.len rows)).
  { apply sum_Z_perm. by apply fmap_Permutation. }
  pose proof (fragment_rows_lengths _ Hfrag') as Hlens.
  assert (Hnn : Forall (fun x => 0 <= x) (map Reads.len (sort_by_row_num rows))).
  { apply Forall_fmap. eapply Forall_impl; [exact Hfrag'|].
    by intros r (_ & _ & _ & ?). }
  rewrite cumsum_exact by (done || lia). rewrite <- Hlens in *.
  rewrite (launch_block_size tpb1 tpb2); try done.
  - by rewrite !length_map.
  - by rewrite !length_map.
  - apply Forall_fmap. eapply Forall_impl; [exact Hfrag'|]. by intros r (? & _).
  - apply Forall_fmap. eapply Forall_impl; [exact Hfrag'|]. by intros r (_ & ? & _).
  - lia.
Qed.

Lemma get_coverages_any_block_size_witness :
  get_coverages 128 0%nat "chr1" 100 110 0
    [ReadsFrame [Reads.Row "chr1" 103 108 "AAAG-1" 1 5 4;
                 Reads.Row "chr1" 100 104 "AAAC-1" 0 4 2]]
  = get_coverages 1 0%nat "chr1" 100 110 0
      [ReadsFrame [Reads.Row "chr1" 103 108 "AAAG-1" 1 5 4;
                   Reads.Row "chr1" 100 104 "AAAC-1" 0 4 2]].
Proof.
  apply (get_coverages_any_block_size 128 1 0%nat "chr1" 100 110 0
           [ReadsFrame [Reads.Row "chr1" 103 108 "AAAG-1" 1 5 4;
                        Reads.Row "chr1" 100 104 "AAAC-1" 0 4 2]]
           [Reads.Row "chr1" 103 108 "AAAG-1" 1 5 4;
            Reads.Row "chr1" 100 104 "AAAC-1" 0 4 2]); try reflexivity.
  repeat constructor; unfold is_int32; simpl; lia.
Defined.

(** A window of negative size ([end + 2*pad < start]) is refused with a
    [ValueError] when the columns are allocated, before any fragment is
    expanded; the call leaves the copy of [reads] and its sorting behind
    and [reads_orig] as it was. *)
Theorem get_coverages_rejects_negative_window (tpb : Z) (reads_orig : loc)
    (chrom : string) (start end_ pad : Z) (σ : store) (rows : list Reads.row) :
  σ !! reads_orig = Some (ReadsFrame rows) →
  end_ - start + 2 * pad < 0 →
  get_coverages tpb reads_orig chrom start end_ pad σ
  = Failed ValueError (σ ++ [ReadsFrame rows; ReadsFrame (sort_by_row_num rows)]).
Proof.
  intros Hrows Hw. rewrite (get_coverages_eq _ _ _ _ _ _ _ rows Hrows).
  unfold np_zeros.
  by replace (end_ - start + 2 * pad <? 0) with true by (symmetry; apply Z.ltb_lt; lia).
Qed.

Lemma get_coverages_rejects_negative_window_witness :
  get_coverages 128 0%nat "chr1" 110 100 2
    [ReadsFrame [Reads.Row "chr1" 100 104 "AAAC-1" 0 4 2]]
  = Failed ValueError
      ([ReadsFrame [Reads.Row "chr1" 100 104 "AAAC-1" 0 4 2]]
       ++ [ReadsFrame [Reads.Row "chr1" 100 104 "AAAC-1" 0 4 2];
           ReadsFrame (sort_by_row_num [Reads.Row "chr1" 100 104 "AAAC-1" 0 4 2])]).
Proof.
  apply (get_coverages_rejects_negative_window 128 0%nat "chr1" 110 100 2);
    [reflexivity | lia].
Defined.

(** A dataframe without fragments gives an array with no row: there is no
    cluster, and nothing is launched. *)
Theorem get_coverages_no_fragments (tpb : Z) (reads_orig : loc)
    (chrom : string) (start end_ pad : Z) (σ : store) :
  σ !! reads_orig = Some (ReadsFrame []) →
  0 <= end_ - start + 2 * pad < 2 ^ 63 →
  ∃ σ',
    get_coverages tpb reads_orig chrom start end_ pad σ
    = Done (Array2 0 (Z.to_nat (end_ - start + 2 * pad)) []) σ'.
Proof.
  intros Hrows Hw. rewrite (get_coverages_eq _ _ _ _ _ _ _ [] Hrows).
  rewrite np_zeros_ok by done. cbn. eauto.
Qed.

Lemma get_coverages_no_fragments_witness :
  ∃ σ',
    get_coverages 128 0%nat "chr1" 100 110 5 [ReadsFrame []]
    = Done (Array2 0 (Z.to_nat (110 - 100 + 2 * 5)) []) σ'.
Proof.
  apply (get_coverages_no_fragments 128 0%nat "chr1" 100 110 5 [ReadsFrame []]);
    [reflexivity | lia].
Defined.

(** ** The order of the rows of [count_fragments] *)

Lemma insert_by_count_sorted (r : barcode_count) (l : list barcode_count) :
  StronglySorted (fun a b => fragments b <= fragments a) l →
  StronglySorted (fun a b => fragments b <= fragments a) (insert_by_count r l).
Proof.
  induction 1 as [|r' l Hl IH Hall]; simpl.
  - by repeat constructor.
  - destruct (fragments r' <? fragments r) eqn:E.
    + apply Z.ltb_lt in E. constructor; [by constructor|].
      constructor; [lia|]. eapply Forall_impl; [exact Hall|]. simpl. intros; lia.
    + apply Z.ltb_ge in E. constructor; [done|].
      rewrite insert_by_count_perm. by constructor.
Qed.

(** The table of [count_fragments] lists the barcodes by descending number
    of fragments, and has no barcode without a fragment. *)
Theorem count_fragments_descending
    (convert : list (option string) → list (option barcode))
    (fragment_file : list (list string)) :
  StronglySorted (fun a b => fragments b <= fragments a)
    (count_fragments convert fragment_file) ∧
  Forall (fun row => 1 <= fragments row) (count_fragments convert fragment_file).
Proof.
  unfold count_fragments, value_counts.
  set (values := omap id (read_barcodes convert fragment_file)).
  set (rows := map (fun b => BarcodeCount b (occurrences b values)) (remove_dups values)).
  split.
  - induction rows as [|r rows IH]; simpl; [constructor|].
    by apply insert_by_count_sorted.
  - rewrite sort_by_count_perm. subst rows. apply Forall_fmap, Forall_forall.
    intros b Hb. rewrite elem_of_remove_dups in Hb.
    unfold compose. cbn [fragments]. unfold occurrences.
    assert (Hin : b ∈ filter (fun v => v = b) values) by (apply list_elem_of_filter; split; [reflexivity | exact Hb]).
    destruct (filter (fun v => v = b) values); [by apply elem_of_nil in Hin|].
    cbn [length]. lia.
Qed.

(** ** The records of [tabix_query] *)

Lemma split_on_nonempty (sep : ascii) (s : string) : split_on sep s ≠ [].
Proof.
  destruct s as [|c s]; simpl; [done|].
  destruct (Ascii.eqb c sep); [done|]. by destruct (split_on sep s).
Qed.

Lemma join_tab_cons (f : string) (fs : list string) :
  fs ≠ [] → join_tab (f :: fs) = (f ++ String tab (join_tab fs))%string.
Proof. by destruct fs. Qed.

Lemma join_tab_split (s : string) : join_tab (split_on tab s) = s.
Proof.
  induction s as [|c s IH]; simpl; [done|].
  destruct (Ascii.eqb c tab) eqn:E.
  - apply Ascii.eqb_eq in E as ->.
    rewrite join_tab_cons by apply split_on_nonempty. by rewrite IH.
  - pose proof (split_on_nonempty tab s) as Hne.
    destruct (split_on tab s) as [|f fs]; [done|].
    destruct fs as [|f' fs]; simpl in *; by rewrite <- IH.
Qed.

Lemma split_on_fields (s : string) :
  Forall (fun field => tab ∉ list_ascii_of_string field) (split_on tab s).
Proof.
  induction s as [|c s IH]; simpl.
  - repeat constructor. simpl. apply not_elem_of_nil.
  - destruct (Ascii.eqb c tab) eqn:E.
    + constructor; [simpl; apply not_elem_of_nil | done].
    + apply Ascii.eqb_neq in E.
      destruct (split_on tab s) as [|f fs].
      * repeat constructor. simpl. intros H. apply elem_of_cons in H as [H|H]; [done|].
        by apply elem_of_nil in H.
      * apply Forall_cons in IH as [Hf Hfs]. constructor; [|done]. simpl.
        intros H. apply elem_of_cons in H as [H|H]; [done|]. by apply Hf.
Qed.

(** [tabix_query] returns one record per line of output, in order.  The
    fields of a record hold no tab, and joined by tabs they are the line
    without the white space at its two ends. *)
Theorem tabix_query_records (tabix_stdout : string → string → list string)
    (filename chrom : string) (start end_ : Z) :
  Forall2 (fun line record =>
             join_tab record = strip line ∧ record ≠ [] ∧
             Forall (fun field => tab ∉ list_ascii_of_string field) record)
    (tabix_stdout filename (format_region chrom start end_))
    (tabix_query tabix_stdout filename chrom start end_).
Proof.
  unfold tabix_query. rewrite foldl_snoc_map. cbn [app].
  induction (tabix_stdout filename (format_region chrom start end_)) as [|line lines IH];
    simpl; constructor; [|done].
  split; [apply join_tab_split|]. split; [apply split_on_nonempty | apply split_on_fields].
Qed.

(** ** The columns of [read_fragments] *)

Lemma wrap32_int32 (x : Z) : is_int32 (wrap32 x).
Proof.
  unfold is_int32, wrap32, wrap.
  pose proof (Z.mod_pos_bound (x + 2 ^ (32 - 1)) (2 ^ 32) ltac:(lia)). lia.
Qed.

Lemma astype_int32_inv (col : list string) (zs : list Z) :
  astype_int32 col = Ok zs → length zs = length col ∧ Forall is_int32 zs.
Proof.
  revert zs. induction col as [|s col IH]; intros zs; simpl.
  - intros [= <-]. by split.
  - destruct (parse_int s) as [z|]; [|done].
    destruct (astype_int32 col) as [rest| |]; [|done..]. cbn [result_bind].
    intros [= <-]. destruct (IH rest eq_refl) as [Hlen Hall].
    split; [simpl; by rewrite Hlen|]. constructor; [apply wrap32_int32 | done].
Qed.

(** Whenever [read_fragments] returns, its dataframe has one row per line
    of the query's output: every column has that many entries, [row_num]
    counts the rows from 0, and [start], [end] and [len] hold 32-bit
    values. *)
Theorem read_fragments_columns (tabix_stdout : string → string → list string)
    (chrom : string) (start end_ : Z) (fragment_file : string) (pad : Z)
    (reads : Fragments.frame) :
  read_fragments tabix_stdout chrom start end_ fragment_file pad = Ok reads →
  let n := length (tabix_stdout fragment_file
                     (format_region chrom (start - pad) (end_ + pad))) in
  length (Fragments.chrom reads) = n ∧ length (Fragments.start reads) = n ∧
  length (Fragments.end_ reads) = n ∧ length (Fragments.cell reads) = n ∧
  length (Fragments.len reads) = n ∧
  Fragments.row_num reads = map Z.of_nat (seq 0 n) ∧
  Forall is_int32 (Fragments.start reads) ∧ Forall is_int32 (Fragments.end_ reads) ∧
  Forall is_int32 (Fragments.len reads).
Proof.
  unfold read_fragments, data_frame.
  assert (Hn : length (tabix_query tabix_stdout fragment_file chrom (start - pad)
                         (end_ + pad))
               = length (tabix_stdout fragment_file
                           (format_region chrom (start - pad) (end_ + pad)))).
  { unfold tabix_query. rewrite foldl_snoc_map. cbn [app]. apply length_map. }
  set (records := tabix_query _ _ _ _ _) in *.
  destruct (forallb _ records); [|done].
  cbn [result_bind imap take length].
  match goal with
  | |- context [astype_int32 ?c] =>
      destruct (astype_int32 c) as [c_start| |] eqn:Es; [|done..]
  end.
  cbn [result_bind].
  match goal with
  | |- context [astype_int32 ?c] =>
      destruct (astype_int32 c) as [c_end| |] eqn:Ee; [|done..]
  end.
  cbn [result_bind]. intros [= <-]. cbv zeta.
  cbn [Fragments.chrom Fragments.start Fragments.end_ Fragments.cell
       Fragments.row_num Fragments.len].
  apply astype_int32_inv in Es as [Ls Hs]. apply astype_int32_inv in Ee as [Le He].
  unfold compose in Ls, Le. rewrite length_map in Ls, Le. rewrite <- Hn.
  rewrite !length_map, length_zip_with, Ls, Le.
  repeat split; try done; try lia.
  - unfold range_from. apply map_ext. intros k. lia.
  - apply Forall_forall. intros x Hx.
    apply elem_of_lookup_zip_with in Hx as (i & e & s & -> & _). apply wrap32_int32.
Qed.

Lemma read_fragments_columns_witness :
  let tabix_stdout := fun (_ _ : string) =>
    ["chr1" ++ String tab "100" ++ String tab "104" ++ String tab "AAAC-1"
      ++ String tab "1" ++ String newline EmptyString;
     "chr1" ++ String tab "103" ++ String tab "108" ++ String tab "AAAG-1"
      ++ String tab "2" ++ String newline EmptyString]%string in
  let reads :=
    Fragments.Frame ["chr1"; "chr1"]%string [100; 103] [104; 108]
      ["AAAC-1"; "AAAG-1"]%string [0; 1] [4; 5] in
  let n := length (tabix_stdout "fragments.tsv.gz"%string
                     (format_region "chr1" (100 - 0) (110 + 0))) in
  length (Fragments.chrom reads) = n ∧ length (Fragments.start reads) = n ∧
  length (Fragments.end_ reads) = n ∧ length (Fragments.cell reads) = n ∧
  length (Fragments.len reads) = n ∧
  Fragments.row_num reads = map Z.of_nat (seq 0 n) ∧
  Forall is_int32 (Fragments.start reads) ∧ Forall is_int32 (Fragments.end_ reads) ∧
  Forall is_int32 (Fragments.len reads).
Proof.
  intros tabix_stdout reads.
  apply (read_fragments_columns tabix_stdout "chr1" 100 110 "fragments.tsv.gz" 0 reads).
  vm_compute. reflexivity.
Defined.

(** ** [reshape_with_padding] on a track of several intervals *)

Lemma py_slice_length {V} (row : list V) (lo hi : Z) :
  0 <= lo <= hi → hi <= Z.of_nat (length row) →
  length (py_slice row lo hi) = Z.to_nat (hi - lo).
Proof.
  intros Hlo Hhi. unfold py_slice. rewrite !clip_bound_inside by lia.
  rewrite length_take, length_drop. lia.
Qed.

Lemma broadcast_rows_same {V} (c : nat) (rows : list (list V)) :
  Forall (fun row => length row = c) rows → broadcast_rows c rows = Ok rows.
Proof.
  induction 1 as [|row rows Hrow _ IH]; simpl; [done|].
  unfold broadcast_row. rewrite Hrow, Nat.eqb_refl. cbn [result_bind].
  by rewrite IH.
Qed.

Lemma np_stack_same {V} (c : nat) (rows : list (list V)) :
  rows ≠ [] → Forall (fun row => length row = c) rows →
  np_stack rows = Ok (Array2 (length rows) c rows).
Proof.
  intros Hne Hall. destruct rows as [|r rs]; [done|].
  apply Forall_cons in Hall as [Hr Hrs]. unfold np_stack.
  replace (forallb _ rs) with true; [by rewrite Hr|].
  symmetry. apply forallb_forall. intros r' Hin. apply Nat.eqb_eq.
  rewrite Forall_forall in Hrs. rewrite Hr. apply Hrs. by apply list_elem_of_In.
Qed.

Lemma lookup_flat_replicate {A B} (f : A → B) (n : nat) (l : list A)
    (i j : nat) (a : A) :
  l !! i = Some a → (j < n)%nat →
  flat_map (fun a => replicate n (f a)) l !! (i * n + j)%nat = Some (f a).
Proof.
  revert i. induction l as [|a' l IH]; intros i Hi Hj; [done|].
  cbn [flat_map]. destruct i as [|i].
  - injection Hi as ->. rewrite lookup_app_l by (rewrite length_replicate; lia).
    by apply lookup_replicate_2.
  - rewrite lookup_app_r by (rewrite length_replicate; lia).
    rewrite length_replicate.
    replace (S i * n + j - n)%nat with (i * n + j)%nat by lia. by apply IH.
Qed.

Lemma length_flat_replicate {A B} (f : A → B) (n : nat) (l : list A) :
  length (flat_map (fun a => replicate n (f a)) l) = (length l * n)%nat.
Proof.
  induction l as [|a l IH]; [done|].
  cbn [flat_map length]. rewrite length_app, length_replicate, IH. lia.
Qed.

Section SeveralIntervals.
Context {V : Type} (zero : V) (coverage : array2 V) (interval_size pad : Z) (n : nat).
Hypothesis shaped : well_shaped coverage.
Hypothesis several : (2 <= n)%nat.
Hypothesis size_pos : 0 < interval_size.
Hypothesis pad_nonneg : 0 <= pad.
Hypothesis width : Z.of_nat (shape1 coverage) = Z.of_nat n * interval_size + 2 * pad.
Hypothesis rows_fit : Z.of_nat (shape0 coverage) * Z.of_nat n < 2 ^ 63.
Hypothesis cols_fit : interval_size + 2 * pad < 2 ^ 63.

Let C := shape0 coverage.
Let padded := interval_size + 2 * pad.
Let m := Z.to_nat (range_len 0 (Z.of_nat (shape1 coverage) - padded) (interval_size + pad)).
Let starts := range_from 0 (interval_size + pad) m.
Let zeros := Array2 (C * n) (Z.to_nat padded)
               (replicate (C * n) (replicate (Z.to_nat padded) zero)).

(** The loop of [reshape_with_padding], with what is computed before it. *)
Lemma reshape_loop :
  reshape_with_padding zero coverage interval_size pad
  = for_each
      (fun i reshaped =>
         let* stacked :=
           np_stack (map (fun start => row_slice coverage i start (start + padded))
                         starts) in
         assign_rows reshaped (Z.of_nat i * Z.of_nat n) ((Z.of_nat i + 1) * Z.of_nat n)
                     stacked)
      (seq 0 C) zeros.
Proof.
  unfold reshape_with_padding, int_div.
  replace (interval_size =? 0) with false by (symmetry; apply Z.eqb_neq; lia).
  cbn [result_bind].
  replace (Z.of_nat (shape1 coverage) - 2 * pad) with (Z.of_nat n * interval_size) by lia.
  rewrite Z.quot_mul by lia.
  replace (Z.of_nat n =? 1) with false by (symmetry; apply Z.eqb_neq; lia).
  unfold py_range.
  replace (interval_size + pad =? 0) with false by (symmetry; apply Z.eqb_neq; lia).
  cbn [result_bind]. unfold np_zeros_shape.
  replace ((Z.of_nat (shape0 coverage) * Z.of_nat n <? 0)
           || (interval_size + 2 * pad <? 0))
    with false by (symmetry; apply orb_false_iff; split; apply Z.ltb_ge; lia).
  replace ((2 ^ 63 <=? Z.of_nat (shape0 coverage) * Z.of_nat n)
           || (2 ^ 63 <=? interval_size + 2 * pad))
    with false by (symmetry; apply orb_false_iff; split; apply Z.leb_gt; lia).
  cbn [result_bind]. unfold zeros, starts, m, padded, C.
  replace (Z.to_nat (Z.of_nat (shape0 coverage) * Z.of_nat n))
    with (shape0 coverage * n)%nat by lia.
  replace (Z.of_nat (shape1 coverage) - (interval_size + 2 * pad) - 0)
    with (Z.of_nat (shape1 coverage) - (interval_size + 2 * pad)) by lia.
  done.
Qed.

Lemma starts_count :
  Z.of_nat m = (Z.of_nat (n - 1) * interval_size - 1) / (interval_size + pad) + 1.
Proof.
  unfold m, range_len, padded.
  replace (0 <? interval_size + pad) with true by (symmetry; apply Z.ltb_lt; lia).
  replace (0 <? Z.of_nat (shape1 coverage) - (interval_size + 2 * pad))
    with true by (symmetry; apply Z.ltb_lt; nia).
  replace (Z.of_nat (shape1 coverage) - (interval_size + 2 * pad) - 0 - 1)
    with (Z.of_nat (n - 1) * interval_size - 1) by nia.
  assert (0 <= (Z.of_nat (n - 1) * interval_size - 1) / (interval_size + pad)).
  { apply Z.div_pos; nia. }
  lia.
Qed.

Lemma starts_inside (s : Z) :
  s ∈ starts → 0 <= s ∧ s + padded <= Z.of_nat (shape1 coverage).
Proof.
  intros Hs. apply elem_of_range_from in Hs as (k & Hk & ->).
  pose proof starts_count as Hm.
  pose proof (Z.mul_div_le (Z.of_nat (n - 1) * interval_size - 1) (interval_size + pad)
                ltac:(lia)) as Hle.
  unfold padded. nia.
Qed.

Lemma stacked_windows (i : nat) :
  (i < C)%nat →
  np_stack (map (fun start => row_slice coverage i start (start + padded)) starts)
  = Ok (Array2 m (Z.to_nat padded)
          (map (fun start => row_slice coverage i start (start + padded)) starts)).
Proof.
  intros Hi. destruct shaped as [Hrows Hcols].
  destruct (lookup_lt_is_Some_2 (data coverage) i) as [row Hrow]; [by rewrite Hrows|].
  assert (Hlen : length row = shape1 coverage).
  { by apply (Forall_lookup_1 (fun row => length row = shape1 coverage)
                (data coverage) i). }
  pose proof starts_count as Hm.
  assert (0 <= (Z.of_nat (n - 1) * interval_size - 1) / (interval_size + pad)).
  { apply Z.div_pos; nia. }
  rewrite (np_stack_same (Z.to_nat padded)).
  - unfold starts, range_from. by rewrite length_map, length_map, length_seq.
  - unfold starts, range_from. destruct m; [lia | done].
  - apply Forall_fmap, Forall_forall. intros s Hs. simpl.
    destruct (starts_inside s Hs). unfold row_slice. rewrite Hrow.
    rewrite py_slice_length by (unfold padded in *; lia). f_equal. lia.
Qed.

(** With more than one start, the windows of a row are fewer than the rows
    they are assigned to, and more than one: the assignment is refused. *)
Lemma reshape_mismatch :
  (1 <= C)%nat → pad < Z.of_nat (n - 2) * interval_size →
  reshape_with_padding zero coverage interval_size pad = Raised ValueError.
Proof.
  intros HC Hpad. rewrite reshape_loop.
  destruct C as [|C'] eqn:EC; [lia|]. cbn [seq for_each].
  assert (Hm2 : (2 <= m < n)%nat).
  { pose proof starts_count as Hm.
    assert (1 <= (Z.of_nat (n - 1) * interval_size - 1) / (interval_size + pad)).
    { apply Z.div_le_lower_bound; nia. }
    assert ((Z.of_nat (n - 1) * interval_size - 1) / (interval_size + pad)
            < Z.of_nat n - 1).
    { apply Z.div_lt_upper_bound; nia. }
    lia. }
  rewrite stacked_windows by (fold C; lia). cbn [result_bind].
  unfold assign_rows, broadcast_to, zeros. cbn [shape0 shape1 data].
  rewrite Nat.eqb_refl. cbn [orb negb].
  rewrite broadcast_rows_same.
  2: { apply Forall_fmap, Forall_forall. intros s Hs. simpl.
       destruct shaped as [Hrows Hcols].
       destruct (lookup_lt_is_Some_2 (data coverage) 0) as [row Hrow]; [lia|].
       assert (Hlen : length row = shape1 coverage).
       { by apply (Forall_lookup_1 (fun row => length row = shape1 coverage)
                     (data coverage) 0). }
       destruct (starts_inside s Hs). unfold row_slice. rewrite Hrow.
       rewrite py_slice_length by (unfold padded in *; lia). f_equal. lia. }
  cbn [result_bind].
  rewrite !clip_bound_inside by lia.
  replace (m =? Z.to_nat ((Z.of_nat 0 + 1) * Z.of_nat n - Z.of_nat 0 * Z.of_nat n))%nat
    with false by (symmetry; apply Nat.eqb_neq; lia).
  unfold starts. destruct m as [|[|m']]; [lia..|]. done.
Qed.

(** The array after [k] rounds of the loop when there is one start: the
    [n] rows of each of the first [k] clusters hold the window at 0. *)
Let repeated (k : nat) : array2 V :=
  Array2 (C * n) (Z.to_nat padded)
    (flat_map (fun row => replicate n (py_slice row 0 padded)) (take k (data coverage))
     ++ replicate ((C - k) * n) (replicate (Z.to_nat padded) zero)).

Lemma one_start : Z.of_nat (n - 2) * interval_size <= pad → starts = [0].
Proof.
  intros Hpad. pose proof starts_count as Hm.
  assert ((Z.of_nat (n - 1) * interval_size - 1) / (interval_size + pad) = 0).
  { apply Z.div_small. nia. }
  unfold starts. by replace m with 1%nat by lia.
Qed.

Lemma repeat_round (k : nat) :
  (k < C)%nat →
  (let* stacked :=
     np_stack (map (fun start => row_slice coverage k start (start + padded)) [0]) in
   assign_rows (repeated k) (Z.of_nat k * Z.of_nat n) ((Z.of_nat k + 1) * Z.of_nat n)
               stacked)
  = Ok (repeated (S k)).
Proof.
  intros Hk. destruct shaped as [Hrows Hcols].
  destruct (lookup_lt_is_Some_2 (data coverage) k) as [row Hrow]; [by rewrite Hrows|].
  assert (Hlen : length row = shape1 coverage).
  { by apply (Forall_lookup_1 (fun row => length row = shape1 coverage)
                (data coverage) k). }
  assert (Hslice : length (py_slice row 0 (0 + padded)) = Z.to_nat padded).
  { rewrite py_slice_length by (unfold padded; nia). f_equal. lia. }
  cbn [map]. unfold row_slice. rewrite Hrow.
  cbn [np_stack forallb length result_bind]. unfold assign_rows.
  cbn [shape0 shape1 data repeated].
  rewrite !clip_bound_inside by nia.
  replace (Z.to_nat ((Z.of_nat k + 1) * Z.of_nat n - Z.of_nat k * Z.of_nat n))
    with n by lia.
  replace (Z.to_nat (Z.of_nat k * Z.of_nat n)) with (k * n)%nat by lia.
  unfold broadcast_to. cbn [shape0 shape1 data].
  rewrite Hslice, Nat.eqb_refl. cbn [orb negb broadcast_rows].
  unfold broadcast_row. rewrite Hslice, Nat.eqb_refl. cbn [result_bind].
  replace (1 =? n)%nat with false by (symmetry; apply Nat.eqb_neq; lia).
  cbn [result_bind]. replace (0 + padded) with padded by lia.
  assert (Hpre : length (flat_map (fun row => replicate n (py_slice row 0 padded))
                           (take k (data coverage))) = (k * n)%nat).
  { rewrite length_flat_replicate, length_take. f_equal. lia. }
  rewrite take_app_length' by done.
  rewrite drop_app_ge by lia. rewrite Hpre, drop_replicate.
  unfold repeated. do 2 f_equal.
  rewrite (take_S_r _ _ _ Hrow), flat_map_app. cbn [flat_map].
  rewrite app_nil_r, <- !app_assoc. do 3 f_equal. nia.
Qed.

Lemma repeat_rounds (k : nat) :
  (k <= C)%nat →
  for_each
    (fun i reshaped =>
       let* stacked :=
         np_stack (map (fun start => row_slice coverage i start (start + padded)) [0]) in
       assign_rows reshaped (Z.of_nat i * Z.of_nat n) ((Z.of_nat i + 1) * Z.of_nat n)
                   stacked)
    (seq 0 k) (repeated 0)
  = Ok (repeated k).
Proof.
  induction k as [|k IH]; intros Hk; [done|].
  rewrite seq_S, for_each_app, IH by lia. cbn [result_bind for_each plus].
  rewrite repeat_round by lia. done.
Qed.

(** With one start, every row of a cluster holds the window at 0. *)
Lemma reshape_repeats :
  Z.of_nat (n - 2) * interval_size <= pad →
  reshape_with_padding zero coverage interval_size pad
  = Ok (Array2 (C * n) (Z.to_nat padded)
          (flat_map (fun row => replicate n (py_slice row 0 padded)) (data coverage))).
Proof.
  intros Hpad. rewrite reshape_loop, (one_start Hpad).
  pose proof (repeat_rounds C (le_n _)) as Hrun.
  unfold repeated in Hrun at 1. rewrite take_0, Nat.sub_0_r in Hrun.
  cbn [flat_map app] in Hrun. fold zeros in Hrun. rewrite Hrun.
  unfold repeated. rewrite Nat.sub_diag. cbn [replicate Nat.mul]. rewrite app_nil_r.
  destruct shaped as [Hrows _]. rewrite take_ge by (unfold C; lia). done.
Qed.
End SeveralIntervals.

(** A track of three intervals or more whose pad is shorter than all
    intervals but two is refused: [reshape_with_padding] has more than one
    window of a row, and fewer than the rows it assigns them to. *)
Theorem reshape_with_padding_refuses {V} (zero : V) (coverage : array2 V)
    (interval_size pad : Z) (n : nat) :
  well_shaped coverage → (1 <= shape0 coverage)%nat →
  0 < interval_size → 0 <= pad → pad < Z.of_nat (n - 2) * interval_size →
  Z.of_nat (shape1 coverage) = Z.of_nat n * interval_size + 2 * pad →
  Z.of_nat (shape0 coverage) * Z.of_nat n < 2 ^ 63 →
  interval_size + 2 * pad < 2 ^ 63 →
  reshape_with_padding zero coverage interval_size pad = Raised ValueError.
Proof.
  intros Hshaped HC Hi Hp Hpad HW H0 H1.
  apply (reshape_mismatch zero coverage interval_size pad n); try done. nia.
Qed.

Lemma reshape_with_padding_refuses_witness :
  reshape_with_padding 0
    (Array2 2 14 [[1; 2; 3; 4; 5; 6; 7; 8; 9; 10; 11; 12; 13; 14];
                  [0; 0; 0; 0; 0; 0; 0; 0; 0; 0; 0; 0; 0; 0]]) 4 1
  = Raised ValueError.
Proof.
  apply (reshape_with_padding_refuses 0
           (Array2 2 14 [[1; 2; 3; 4; 5; 6; 7; 8; 9; 10; 11; 12; 13; 14];
                         [0; 0; 0; 0; 0; 0; 0; 0; 0; 0; 0; 0; 0; 0]]) 4 1 3);
    try reflexivity; try (simpl; lia).
  split; [reflexivity | by repeat constructor].
Defined.

(** A track of two intervals or more whose pad is as long as all intervals
    but two is reshaped, with one window for all the intervals of a row:
    the [n] rows of cluster [i] all hold the window of its first interval. *)
Theorem reshape_with_padding_repeats_first_window {V} (zero : V)
    (coverage : array2 V) (interval_size pad : Z) (n : nat) :
  well_shaped coverage → (2 <= n)%nat →
  0 < interval_size → Z.of_nat (n - 2) * interval_size <= pad →
  Z.of_nat (shape1 coverage) = Z.of_nat n * interval_size + 2 * pad →
  Z.of_nat (shape0 coverage) * Z.of_nat n < 2 ^ 63 →
  interval_size + 2 * pad < 2 ^ 63 →
  ∃ reshaped,
    reshape_with_padding zero coverage interval_size pad = Ok reshaped ∧
    shape0 reshaped = (shape0 coverage * n)%nat ∧
    Z.of_nat (shape1 reshaped) = interval_size + 2 * pad ∧
    ∀ i j, (i < shape0 coverage)%nat → (j < n)%nat →
      data reshaped !! (i * n + j)%nat
      = Some (padded_window coverage interval_size pad i 0).
Proof.
  intros Hshaped Hn Hi Hpad HW H0 H1.
  assert (0 <= pad) by nia.
  eexists. split.
  { apply (reshape_repeats zero coverage interval_size pad n); done. }
  cbn [shape0 shape1 data]. split; [done|]. split; [lia|].
  intros i j Hlt Hj. destruct Hshaped as [Hrows _].
  destruct (lookup_lt_is_Some_2 (data coverage) i) as [row Hrow]; [by rewrite Hrows|].
  rewrite (lookup_flat_replicate _ n (data coverage) i j row Hrow Hj).
  unfold padded_window, row_slice. rewrite Hrow. do 2 f_equal; lia.
Qed.

Lemma reshape_with_padding_repeats_first_window_witness :
  ∃ reshaped,
    reshape_with_padding 0 (Array2 1 10 [[1; 2; 3; 4; 5; 6; 7; 8; 9; 10]]) 4 1
      = Ok reshaped ∧
    shape0 reshaped = (shape0 (Array2 1 10 [[1; 2; 3; 4; 5; 6; 7; 8; 9; 10]]) * 2)%nat ∧
    Z.of_nat (shape1 reshaped) = 4 + 2 * 1 ∧
    ∀ i j, (i < shape0 (Array2 1 10 [[1; 2; 3; 4; 5; 6; 7; 8; 9; 10]]))%nat →
           (j < 2)%nat →
      data reshaped !! (i * 2 + j)%nat
      = Some (padded_window (Array2 1 10 [[1; 2; 3; 4; 5; 6; 7; 8; 9; 10]]) 4 1 i 0).
Proof.
  apply (reshape_with_padding_repeats_first_window 0
           (Array2 1 10 [[1; 2; 3; 4; 5; 6; 7; 8; 9; 10]]) 4 1 2);
    try reflexivity; try (simpl; lia).
  split; [reflexivity | by repeat constructor].
Defined.

(** [atacworks_denoise] returns nothing for such a track of three
    intervals or more: it raises in [reshape_with_padding], before the
    model is run. *)
Theorem atacworks_denoise_refuses {V} (zero : V) (coverage : array2 V)
    (model : array2 V → list (array2 V)) (interval_size pad : Z) (n : nat) :
  well_shaped coverage → (1 <= shape0 coverage)%nat →
  0 < interval_size → 0 <= pad → pad < Z.of_nat (n - 2) * interval_size →
  Z.of_nat (shape1 coverage) = Z.of_nat n * interval_size + 2 * pad →
  Z.of_nat (shape0 coverage) * Z.of_nat n < 2 ^ 63 →
  interval_size + 2 * pad < 2 ^ 63 →
  atacworks_denoise zero coverage model interval_size pad = Raised ValueError.
Proof.
  intros Hshaped HC Hi Hp Hpad HW H0 H1. unfold atacworks_denoise.
  rewrite (reshape_mismatch zero coverage interval_size pad n); try done. nia.
Qed.

Lemma atacworks_denoise_refuses_witness :
  atacworks_denoise 0
    (Array2 1 14 [[1; 2; 3; 4; 5; 6; 7; 8; 9; 10; 11; 12; 13; 14]])
    (fun input => [input]) 4 1
  = Raised ValueError.
Proof.
  apply (atacworks_denoise_refuses 0
           (Array2 1 14 [[1; 2; 3; 4; 5; 6; 7; 8; 9; 10; 11; 12; 13; 14]])
           (fun input => [input]) 4 1 3);
    try reflexivity; try (simpl; lia).
  split; [reflexivity | by repeat constructor].
Defined.

(** ** [atacworks_denoise] on a track of one interval *)

Lemma reshape_single {V} (zero : V) (coverage : array2 V) (interval_size pad : Z) :
  well_shaped coverage →
  0 < interval_size → 0 <= pad →
  Z.of_nat (shape1 coverage) = interval_size + 2 * pad →
  Z.of_nat (shape0 coverage) < 2 ^ 63 → Z.of_nat (shape1 coverage) < 2 ^ 63 →
  reshape_with_padding zero coverage interval_size pad = Ok coverage.
Proof.
  intros Hshaped Hi Hp HW H0 H1.
  unfold reshape_with_padding, int_div.
  replace (interval_size =? 0) with false by (symmetry; apply Z.eqb_neq; lia).
  cbn [result_bind].
  replace (Z.of_nat (shape1 coverage) - 2 * pad) with interval_size by lia.
  rewrite Z.quot_same by lia. cbn [Z.eqb Pos.eqb result_bind].
  unfold np_zeros_shape. rewrite Z.mul_1_r, <- HW.
  replace ((Z.of_nat (shape0 coverage) <? 0) || (Z.of_nat (shape1 coverage) <? 0))
    with false by (symmetry; apply orb_false_iff; split; apply Z.ltb_ge; lia).
  replace ((2 ^ 63 <=? Z.of_nat (shape0 coverage))
           || (2 ^ 63 <=? Z.of_nat (shape1 coverage)))
    with false by (symmetry; apply orb_false_iff; split; apply Z.leb_gt; lia).
  cbn [result_bind]. rewrite !Nat2Z.id.
  pose proof (reshape_rounds zero coverage Hshaped (shape0 coverage) (le_n _)) as Hrun.
  cbn beta in Hrun. rewrite take_0, Nat.sub_0_r in Hrun. cbn [app] in Hrun.
  rewrite Hrun. rewrite Nat.sub_diag. cbn [replicate]. rewrite app_nil_r.
  destruct Hshaped as [Hrows _]. rewrite take_ge by lia.
  by destruct coverage.
Qed.

Lemma chunks_concat {V} (c : nat) (l : list (list V)) :
  Forall (fun r => length r = c) l → chunks (length l) c (concat l) = l.
Proof.
  induction 1 as [|r l Hr _ IH]; [done|].
  cbn [length concat chunks].
  rewrite take_app_length' by done. rewrite drop_app_length' by done.
  by rewrite IH.
Qed.

Lemma length_concat_uniform {V} (c : nat) (l : list (list V)) :
  Forall (fun r => length r = c) l → length (concat l) = (length l * c)%nat.
Proof.
  induction 1 as [|r l Hr _ IH]; [done|].
  cbn [length concat]. rewrite length_app, IH, Hr. lia.
Qed.

Lemma omap_total {A B} (f : A → option B) (g : A → B) (l : list A) :
  Forall (fun a => f a = Some (g a)) l → omap f l = map g l.
Proof.
  induction 1 as [|a l Ha _ IH]; [done|].
  cbn [omap list_omap map]. rewrite Ha. f_equal. exact IH.
Qed.

Lemma reshape3_same {V} (x : array3 V) (b : Z) :
  length (cells x) = dim0 x →
  Forall (fun plane => length plane = dim1 x ∧
                       Forall (fun line => length line = dim2 x) plane) (cells x) →
  0 <= b → Z.to_nat b = dim1 x →
  reshape3 x (dim0 x) b (dim2 x) = Ok x.
Proof.
  intros Hplanes Hlines Hb Hdim. unfold reshape3.
  replace (b =? -1) with false by (symmetry; apply Z.eqb_neq; lia).
  replace (b <? 0) with false by (symmetry; apply Z.ltb_ge; lia).
  cbn [result_bind]. rewrite Hdim.
  assert (L1 : length (concat (cells x)) = (dim0 x * dim1 x)%nat).
  { rewrite (length_concat_uniform (dim1 x)), Hplanes; [done|].
    eapply Forall_impl; [exact Hlines|]. by intros plane [? _]. }
  assert (F1 : Forall (fun line => length line = dim2 x) (concat (cells x))).
  { apply Forall_concat. eapply Forall_impl; [exact Hlines|]. by intros plane [_ ?]. }
  rewrite (length_concat_uniform (dim2 x)), L1, Nat.eqb_refl by done.
  rewrite <- L1, chunks_concat by done.
  assert (Hc : chunks (length (cells x)) (dim1 x) (concat (cells x)) = cells x).
  { apply chunks_concat. eapply Forall_impl; [exact Hlines|]. by intros plane [? _]. }
  rewrite Hplanes in Hc. rewrite Hc. by destruct x.
Qed.

Lemma stack_last_total {V} (heads : list (array2 V)) (c w : nat)
    (g : nat → nat → array2 V → V) :
  heads ≠ [] →
  Forall (fun head => shape0 head = c ∧ shape1 head = w) heads →
  (∀ i t, (i < c)%nat → (t < w)%nat →
     Forall (fun head =>
               match data head !! i with
               | Some row => row !! t
               | None => None
               end = Some (g i t head)) heads) →
  stack_last heads
  = Ok (Array3 c w (length heads)
          (map (fun i => map (fun t => map (g i t) heads) (seq 0 w)) (seq 0 c))).
Proof.
  intros Hne Hshape Hcell. unfold stack_last.
  destruct heads as [|h hs]; [done|].
  pose proof Hshape as Hall. apply Forall_cons in Hall as [[A0 A1] Hhs].
  replace (forallb _ hs) with true.
  2: { symmetry. apply forallb_forall. intros h' Hin. unfold same_shape.
       rewrite Forall_forall in Hhs.
       destruct (Hhs h') as [B0 B1]; [by apply list_elem_of_In|].
       rewrite A0, A1, B0, B1, !Nat.eqb_refl. done. }
  rewrite A0, A1. do 2 f_equal. apply map_ext_in. intros i Hi. apply in_seq in Hi.
  apply map_ext_in. intros t Ht. apply in_seq in Ht.
  apply omap_total, Hcell; lia.
Qed.

Section OneInterval.
Context {V : Type} (zero : V) (coverage : array2 V) (heads : list (array2 V)).
Context (interval_size pad : Z).
Hypothesis size_pos : 0 < interval_size.
Hypothesis pad_nonneg : 0 <= pad.
Hypothesis width : Z.of_nat (shape1 coverage) = interval_size + 2 * pad.
Hypothesis some_head : heads ≠ [].
Hypothesis heads_shaped :
  Forall (fun head => well_shaped head ∧ shape0 head = shape0 coverage ∧
                      shape1 head = shape1 coverage) heads.

Let C := shape0 coverage.
Let W := shape1 coverage.
Let K := length heads.

(** Cell [(i, t)] of a head; [zero] stands where a head has no such cell. *)
Let cell (i t : nat) (head : array2 V) : V :=
  default zero (data head !! i ≫= fun row => row !! t).

Lemma head_cell (i t : nat) :
  (i < C)%nat → (t < W)%nat →
  Forall (fun head =>
            match data head !! i with
            | Some row => row !! t
            | None => None
            end = Some (cell i t head)) heads.
Proof.
  intros Hi Ht. eapply Forall_impl; [exact heads_shaped|].
  intros head ([Hrows Hcols] & H0 & H1). unfold cell.
  destruct (lookup_lt_is_Some_2 (data head) i) as [row Hrow]; [lia|].
  rewrite Hrow. cbn [mbind option_bind].
  assert (Hlen : length row = shape1 head).
  { by apply (Forall_lookup_1 (fun row => length row = shape1 head) (data head) i). }
  destruct (lookup_lt_is_Some_2 row t) as [v Hv]; [lia|]. by rewrite Hv.
Qed.

Lemma stack_last_heads :
  stack_last heads
  = Ok (Array3 C W K
          (map (fun i => map (fun t => map (cell i t) heads) (seq 0 W)) (seq 0 C))).
Proof.
  apply stack_last_total; [done| |].
  - eapply Forall_impl; [exact heads_shaped|]. by intros head (_ & ? & ?).
  - intros i t Hi Ht. by apply head_cell.
Qed.

Lemma take_center :
  take_positions
    (Array3 C W K
       (map (fun i => map (fun t => map (cell i t) heads) (seq 0 W)) (seq 0 C)))
    (range_from pad 1 (Z.to_nat interval_size))
  = Ok (Array3 C (Z.to_nat interval_size) K
          (map (fun i =>
                  map (fun t => map (cell i (Z.to_nat pad + t)) heads)
                      (seq 0 (Z.to_nat interval_size)))
               (seq 0 C))).
Proof.
  unfold take_positions. cbn [dim0 dim1 dim2 cells].
  assert (Hpos : ∀ k, (k < Z.to_nat interval_size)%nat →
            in_bounds (seq 0 W) (pad + Z.of_nat k * 1) = true ∧
            Z.to_nat (norm_index (seq 0 W) (pad + Z.of_nat k * 1))
            = (Z.to_nat pad + k)%nat).
  { intros k Hk. unfold in_bounds, norm_index. rewrite length_seq.
    replace (pad + Z.of_nat k * 1 <? 0) with false by (symmetry; apply Z.ltb_ge; lia).
    split; [|lia]. apply andb_true_iff. split; [apply Z.leb_le | apply Z.ltb_lt]; lia. }
  replace (forallb _ _) with true.
  2: { symmetry. apply forallb_forall. intros p Hp. apply list_elem_of_In in Hp.
       apply elem_of_range_from in Hp as (k & Hk & ->). by apply Hpos. }
  unfold range_from. rewrite length_map, length_seq. do 2 f_equal.
  rewrite map_map. apply map_ext. intros i.
  rewrite (omap_total _ (fun p => map (cell i (Z.to_nat p)) heads)).
  - rewrite map_map. apply map_ext_in. intros k Hk. apply in_seq in Hk.
    f_equal. f_equal. lia.
  - apply Forall_fmap, Forall_forall. intros k Hk. apply elem_of_seq in Hk.
    cbn [compose]. unfold compose.
    destruct (Hpos k) as [_ ->]; [lia|].
    rewrite list_lookup_fmap, lookup_seq_lt by lia. cbn. do 3 f_equal. lia.
Qed.

(** The prediction for a track of one interval: the cells of the heads
    between the two pads. *)
Lemma denoise_center (model : array2 V → list (array2 V)) :
  well_shaped coverage →
  Z.of_nat (shape0 coverage) < 2 ^ 63 → Z.of_nat (shape1 coverage) < 2 ^ 63 →
  model coverage = heads →
  atacworks_denoise zero coverage model interval_size pad
  = Ok (Array3 C (Z.to_nat interval_size) K
          (map (fun i =>
                  map (fun t => map (cell i (Z.to_nat pad + t)) heads)
                      (seq 0 (Z.to_nat interval_size)))
               (seq 0 C))).
Proof.
  intros Hshaped H0 H1 Hmodel. unfold atacworks_denoise.
  rewrite reshape_single by done. cbn [result_bind].
  rewrite Hmodel, stack_last_heads. cbn [result_bind dim0 dim1 dim2].
  rewrite py_range_unit by (unfold W; lia).
  replace (Z.to_nat (Z.of_nat W - pad - pad)) with (Z.to_nat interval_size)
    by (unfold W; lia).
  cbn [result_bind]. rewrite take_center. cbn [result_bind dim2].
  apply (reshape3_same
           (Array3 C (Z.to_nat interval_size) K
              (map (fun i =>
                      map (fun t => map (cell i (Z.to_nat pad + t)) heads)
                          (seq 0 (Z.to_nat interval_size)))
                   (seq 0 C)))).
  - cbn [cells dim0]. by rewrite length_map, length_seq.
  - cbn [cells dim1 dim2]. apply Forall_fmap, Forall_forall. intros i _.
    cbn [compose]. unfold compose. split; [by rewrite length_map, length_seq|].
    apply Forall_fmap, Forall_forall. intros t _. unfold compose.
    by rewrite length_map.
  - unfold W. lia.
  - cbn [dim1]. unfold W. f_equal. lia.
Qed.
End OneInterval.


(** For a track of one interval and a model whose heads have the shape of
    the track, [atacworks_denoise] returns an array of shape
    [(C, interval_size, K)], [K] being the number of heads: cell
    [(i, t, k)] is cell [(i, pad + t)] of head [k], the pads being cut from
    both ends. *)
Theorem atacworks_denoise_single_interval {V} (zero : V) (coverage : array2 V)
    (model : array2 V → list (array2 V)) (interval_size pad : Z) :
  well_shaped coverage →
  0 < interval_size → 0 <= pad →
  Z.of_nat (shape1 coverage) = interval_size + 2 * pad →
  Z.of_nat (shape0 coverage) < 2 ^ 63 → Z.of_nat (shape1 coverage) < 2 ^ 63 →
  model coverage ≠ [] →
  Forall (fun head => well_shaped head ∧ shape0 head = shape0 coverage ∧
                      shape1 head = shape1 coverage) (model coverage) →
  ∃ pred,
    atacworks_denoise zero coverage model interval_size pad = Ok pred ∧
    dim0 pred = shape0 coverage ∧ Z.of_nat (dim1 pred) = interval_size ∧
    dim2 pred = length (model coverage) ∧
    ∀ i t k head row v,
      model coverage !! k = Some head → data head !! i = Some row →
      (t < Z.to_nat interval_size)%nat →
      row !! (Z.to_nat pad + t)%nat = Some v →
      ∃ plane line,
        cells pred !! i = Some plane ∧ plane !! t = Some line ∧ line !! k = Some v.
Proof.
  intros Hshaped Hi Hp HW H0 H1 Hne Hheads.
  eexists. split.
  { by apply (denoise_center zero coverage (model coverage) interval_size pad). }
  cbn [dim0 dim1 dim2 cells]. split; [done|]. split; [lia|]. split; [done|].
  intros i t k head row v Hk Hrow Ht Hv.
  assert (Hlt : (i < shape0 coverage)%nat).
  { rewrite Forall_forall in Hheads.
    destruct (Hheads head) as ([Hrows _] & E0 & _).
    { apply list_elem_of_lookup. by exists k. }
    apply lookup_lt_Some in Hrow. lia. }
  eexists _, _. split; [|split].
  - rewrite list_lookup_fmap, lookup_seq_lt by done. done.
  - rewrite list_lookup_fmap, lookup_seq_lt by done. done.
  - rewrite list_lookup_fmap, Hk. cbn. by rewrite Hrow; cbn; rewrite Hv.
Qed.

Lemma atacworks_denoise_single_interval_witness :
  ∃ pred,
    atacworks_denoise 0 (Array2 1 6 [[1; 2; 3; 4; 5; 6]])
      (fun input => [input; input]) 4 1 = Ok pred ∧
    dim0 pred = shape0 (Array2 1 6 [[1; 2; 3; 4; 5; 6]]) ∧
    Z.of_nat (dim1 pred) = 4 ∧
    dim2 pred = length ((fun input : array2 Z => [input; input])
                          (Array2 1 6 [[1; 2; 3; 4; 5; 6]])) ∧
    ∀ i t k head row v,
      (fun input : array2 Z => [input; input]) (Array2 1 6 [[1; 2; 3; 4; 5; 6]]) !! k
        = Some head →
      data head !! i = Some row →
      (t < Z.to_nat 4)%nat →
      row !! (Z.to_nat 1 + t)%nat = Some v →
      ∃ plane line,
        cells pred !! i = Some plane ∧ plane !! t = Some line ∧ line !! k = Some v.
Proof.
  apply (atacworks_denoise_single_interval 0 (Array2 1 6 [[1; 2; 3; 4; 5; 6]])
           (fun input => [input; input]) 4 1);
    try reflexivity; try (simpl; lia); try done.
  - split; [reflexivity | by repeat constructor].
  - repeat constructor.
Defined.

(** ** The clusters, whatever the order of the rows *)

Lemma strictly_sorted_eq (l1 l2 : list Z) :
  StronglySorted Z.lt l1 → StronglySorted Z.lt l2 →
  (∀ x, x ∈ l1 ↔ x ∈ l2) → l1 = l2.
Proof.
  intros H1. revert l2.
  induction H1 as [|x l1 _ IH Hx]; intros l2 H2 Hsame.
  - destruct l2 as [|y l2]; [done|].
    assert (Hy : y ∈ []) by (apply Hsame; by left). by apply elem_of_nil in Hy.
  - destruct H2 as [|y l2 H2 Hy].
    { assert (Hin : x ∈ []) by (apply Hsame; by left). by apply elem_of_nil in Hin. }
    rewrite Forall_forall in Hx, Hy.
    assert (x = y) as <-.
    { assert (Hxin : x ∈ y :: l2) by (apply Hsame; by left).
      assert (Hyin : y ∈ x :: l1) by (apply Hsame; by left).
      apply elem_of_cons in Hxin as [?|Hxin]; [done|].
      apply elem_of_cons in Hyin as [?|Hyin]; [done|].
      specialize (Hx y Hyin). specialize (Hy x Hxin). lia. }
    f_equal. apply IH; [done|]. intros z. split; intros Hz.
    + assert (Hin : z ∈ x :: l2) by (apply Hsame; by right).
      apply elem_of_cons in Hin as [->|?]; [|done]. specialize (Hx x Hz). lia.
    + assert (Hin : z ∈ x :: l1) by (apply Hsame; by right).
      apply elem_of_cons in Hin as [->|?]; [|done]. specialize (Hy x Hz). lia.
Qed.

Lemma sorted_unique_perm (l l' : list Z) :
  l ≡ₚ l' → sorted_unique l = sorted_unique l'.
Proof.
  intros Hperm. apply strictly_sorted_eq; try apply sorted_unique_sorted.
  intros x. rewrite !elem_of_sorted_unique. by rewrite Hperm.
Qed.

(** ** The array that [fill_clusters] leaves *)

Lemma fill_cluster_cells summed (start end_ pad : Z) (x : list (list Z))
    (i : nat) (cluster : Z) :
  fill_cluster summed start end_ pad x i cluster
  = match x !! i with
    | Some row =>
        <[i := assign_at row (map fst (cluster_cells summed start end_ pad cluster))
                             (map snd (cluster_cells summed start end_ pad cluster))]> x
    | None => x
    end.
Proof. done. Qed.

Lemma zip_fst_snd_pairs {A B} (l : list (A * B)) : zip (map fst l) (map snd l) = l.
Proof. induction l as [|[a b] l IH]; simpl; [done|]. by rewrite IH. Qed.

(** A cell of a row after [x[i][coords] = values]: the value assigned to
    it, or what the row held when nothing was assigned to it. *)
Lemma assign_at_lookup (cells : list (Z * Z)) (row : list Z) (q : nat) (y : Z) :
  assign_at row (map fst cells) (map snd cells) !! q = Some y →
  (∃ c v, (c, v) ∈ cells ∧ Z.to_nat c = q ∧ y = v) ∨
  (row !! q = Some y ∧ ∀ c v, (c, v) ∈ cells → Z.to_nat c ≠ q).
Proof.
  unfold assign_at. rewrite zip_fst_snd_pairs. revert row.
  induction cells as [|[c v] cells IH]; intros row; cbn [foldl].
  - intros Hq. right. split; [done|]. intros c v Hin. by apply elem_of_nil in Hin.
  - intros Hq. destruct (IH _ Hq) as [(c' & v' & Hin & Hc & Hy)|[Hrow Hnone]].
    + left. exists c', v'. split; [by right | done].
    + destruct (decide (Z.to_nat c = q)) as [Heq|Hne].
      * left. exists c, v. split; [by left|]. split; [done|].
        subst q. assert (Hlt : (Z.to_nat c < length row)%nat).
        { apply lookup_lt_Some in Hrow. by rewrite length_insert in Hrow. }
        rewrite list_lookup_insert_eq in Hrow by done. congruence.
      * right. rewrite list_lookup_insert_ne in Hrow by done. split; [done|].
        intros c' v' Hin. apply elem_of_cons in Hin as [[= -> ->]|Hin]; [done|].
        by apply (Hnone c' v').
Qed.

Lemma fill_clusters_from summed (start end_ pad : Z) (clusters : list Z) :
  ∀ (k : nat) (x : list (list Z)) (j : nat),
    foldl (fun x '(i, cluster) => fill_cluster summed start end_ pad x i cluster)
          x (imap (fun i c => ((k + i)%nat, c)) clusters) !! j
    = match x !! j with
      | Some row =>
          match (if decide (k <= j)%nat then clusters !! (j - k)%nat else None) with
          | Some cluster =>
              Some (assign_at row
                      (map fst (cluster_cells summed start end_ pad cluster))
                      (map snd (cluster_cells summed start end_ pad cluster)))
          | None => Some row
          end
      | None => None
      end.
Proof.
  induction clusters as [|c clusters IH]; intros k x j.
  - cbn [imap foldl]. destruct (x !! j); [|done]. by destruct (decide _).
  - cbn [imap foldl].
    rewrite (imap_ext _ (fun i c => ((S k + i)%nat, c))).
    2: { intros i c' _. cbn. f_equal. lia. }
    rewrite IH. rewrite fill_cluster_cells, Nat.add_0_r.
    destruct (decide (j = k)) as [->|Hne].
    + rewrite decide_False by lia. rewrite decide_True by lia.
      rewrite Nat.sub_diag. cbn [lookup list_lookup].
      destruct (x !! k) as [row|] eqn:Hk; [|by rewrite Hk].
      rewrite list_lookup_insert_eq by (by apply lookup_lt_Some in Hk). done.
    + assert (Hsame : match x !! k with
                      | Some row =>
                          <[k := assign_at row
                                   (map fst (cluster_cells summed start end_ pad c))
                                   (map snd (cluster_cells summed start end_ pad c))]> x
                      | None => x
                      end !! j = x !! j).
      { destruct (x !! k); [|done]. by rewrite list_lookup_insert_ne. }
      rewrite Hsame. destruct (x !! j) as [row|]; [|done].
      destruct (decide (S k <= j)%nat), (decide (k <= j)%nat); try lia; try done.
      replace (j - k)%nat with (S (j - S k)) by lia. done.
Qed.

Lemma fill_clusters_lookup summed (start end_ pad : Z) (clusters : list Z)
    (x : list (list Z)) (i : nat) (cluster : Z) (row : list Z) :
  clusters !! i = Some cluster → x !! i = Some row →
  fill_clusters summed start end_ pad clusters x !! i
  = Some (assign_at row (map fst (cluster_cells summed start end_ pad cluster))
                        (map snd (cluster_cells summed start end_ pad cluster))).
Proof.
  intros Hc Hrow. unfold fill_clusters.
  rewrite (imap_ext _ (fun i c => ((0 + i)%nat, c))) by done.
  rewrite fill_clusters_from, Hrow. rewrite decide_True by lia.
  by rewrite Nat.sub_0_r, Hc.
Qed.

(** ** The merge of the expanded fragments with [reads] *)

Lemma filter_none {A} (P : A → Prop) `{∀ x, Decision (P x)} (l : list A) :
  Forall (fun x => ¬ P x) l → filter P l = [].
Proof.
  induction 1 as [|x l Hx _ IH]; [done|]. by rewrite filter_cons_False.
Qed.

Lemma length_filter_map {A B} (f : A → B) (P : B → Prop) `{∀ y, Decision (P y)}
    (l : list A) :
  length (filter P (map f l)) = length (filter (fun x => P (f x)) l).
Proof.
  induction l as [|x l IH]; [done|]. cbn [map]. rewrite !filter_cons.
  destruct (decide (P (f x))); cbn [length]; by rewrite IH.
Qed.

(** A row number names one row of [reads]. *)
Lemma filter_row_num (rows : list Reads.row) (r : Reads.row) :
  NoDup (map Reads.row_num rows) → r ∈ rows →
  filter (fun m => Meta.row_num m = Reads.row_num r) (map drop_coords rows)
  = [drop_coords r].
Proof.
  induction rows as [|r' rows IH]; intros Hnd Hin; [by apply elem_of_nil in Hin|].
  cbn [map] in *. apply NoDup_cons in Hnd as [Hnotin Hnd].
  apply elem_of_cons in Hin as [->|Hin].
  - rewrite filter_cons_True by done. f_equal. apply filter_none.
    apply Forall_fmap, Forall_forall. intros r Hr Heq. apply Hnotin.
    cbn in Heq. rewrite <- Heq. apply list_elem_of_fmap. by exists r.
  - rewrite filter_cons_False; [by apply IH|].
    cbn. intros Heq. apply Hnotin. rewrite Heq. apply list_elem_of_fmap. by exists r.
Qed.

Lemma merge_app (rows1 rows2 : list (Z * Z * Z)) (metas : list Meta.row) :
  merge_on_row_num (rows1 ++ rows2) metas
  = merge_on_row_num rows1 metas ++ merge_on_row_num rows2 metas.
Proof. unfold merge_on_row_num. apply flat_map_app. Qed.

(** The unit intervals of the fragments, merged with [reads] on the row
    number, are the bases of the fragments with the fragments' columns. *)
Lemma merge_expansion (all rows : list Reads.row) :
  NoDup (map Reads.row_num all) →
  Forall fragment_row rows → Forall numbered_row rows →
  Forall (fun r => r ∈ all) rows →
  merge_on_row_num
    (expansion (map Reads.start rows) (map Reads.end_ rows) (map Reads.row_num rows))
    (map drop_coords all)
  = merged_rows rows.
Proof.
  intros Hnd Hfrag Hnum Hin.
  induction rows as [|r rows IH]; [done|].
  apply Forall_cons in Hfrag as [(_ & _ & Hlen & _) Hfrag].
  apply Forall_cons in Hnum as [Hr32 Hnum].
  apply Forall_cons in Hin as [Hr Hin].
  cbn [map expansion merged_rows flat_map].
  rewrite merge_app, IH by done. f_equal.
  rewrite wrap32_small by done. rewrite <- Hlen.
  unfold unit_intervals, merge_on_row_num.
  induction (seq 0 (Z.to_nat (Reads.len r))) as [|k l IHl]; [done|].
  cbn [map flat_map]. rewrite IHl, filter_row_num by done. done.
Qed.

(** What the slots that the fragments leave unused are merged into: rows
    with start 0 and end 0. *)
Lemma merge_leftover (n : nat) (metas : list Meta.row) :
  Forall (fun m => Merged.start m = 0 ∧ Merged.end_ m = 0)
    (merge_on_row_num (replicate n (0, 0, 0)) metas).
Proof.
  induction n as [|n IH]; [constructor|].
  cbn [replicate]. unfold merge_on_row_num in *. cbn [flat_map].
  apply Forall_app. split; [|done]. by apply Forall_fmap, Forall_forall.
Qed.

(** ** The size of the groups *)

Lemma covering_offsets (s g : Z) (n : nat) :
  length (filter (fun k : nat => s + Z.of_nat k = g) (seq 0 n))
  = if decide (s <= g < s + Z.of_nat n) then 1%nat else 0%nat.
Proof.
  induction n as [|n IH].
  - cbn. by rewrite decide_False by lia.
  - rewrite seq_S, filter_app, length_app, IH. cbn [plus].
    rewrite filter_singleton by exact [].
    destruct (decide (s + Z.of_nat n = g)), (decide (s <= g < s + Z.of_nat n)),
      (decide (s <= g < s + Z.of_nat (S n))); cbn [length]; lia.
Qed.

Lemma merged_rows_cons (r : Reads.row) (rows : list Reads.row) :
  merged_rows (r :: rows)
  = map (fun k => Merged.Row (Reads.start r + Z.of_nat k)
                             (Reads.start r + Z.of_nat k + 1)
                             (Reads.row_num r) (Reads.chrom r) (Reads.cell r)
                             (Reads.len r) (Reads.cluster r))
        (seq 0 (Z.to_nat (Reads.len r)))
    ++ merged_rows rows.
Proof. done. Qed.

(** The group of a base [g] holds one row per fragment of the chromosome
    and the cluster that covers [g]. *)
Lemma group_size_merged (rows : list Reads.row) (c : string) (g cl : Z) :
  Forall fragment_row rows →
  group_size (merged_rows rows) (c, g, g + 1, cl)
  = Z.of_nat (length (filter
      (fun r => Reads.chrom r = c ∧ Reads.cluster r = cl ∧
                Reads.start r <= g < Reads.end_ r) rows)).
Proof.
  unfold group_size. induction 1 as [|r rows (_ & _ & Hlen & Hnn) _ IH]; [done|].
  f_equal. apply Nat2Z.inj in IH.
  rewrite merged_rows_cons, filter_app, length_app, IH.
  rewrite length_filter_map, filter_cons. unfold group_key.
  cbn [Merged.chrom Merged.start Merged.end_ Merged.cluster].
  destruct (decide (Reads.chrom r = c ∧ Reads.cluster r = cl)) as [[Hc Hcl]|Hno].
  - rewrite (list_filter_iff _ (fun k : nat => Reads.start r + Z.of_nat k = g)).
    2: { intros k. split; [by intros [= _ ? _ _] | intros <-; by rewrite Hc, Hcl]. }
    rewrite covering_offsets.
    destruct (decide _), (decide _); cbn [length]; try lia; exfalso; intuition lia.
  - rewrite filter_none.
    2: { apply Forall_forall. intros k _ [= ? _ _ ?]. by apply Hno. }
    rewrite decide_False by tauto. done.
Qed.

Lemma group_size_app (rows1 rows2 : list Merged.row) (k : string * Z * Z * Z) :
  group_size (rows1 ++ rows2) k = group_size rows1 k + group_size rows2 k.
Proof. unfold group_size. rewrite filter_app, length_app. lia. Qed.

Lemma group_size_leftover (rows : list Merged.row) (c : string) (g cl : Z) :
  Forall (fun m => Merged.start m = 0 ∧ Merged.end_ m = 0) rows →
  group_size rows (c, g, g + 1, cl) = 0.
Proof.
  intros Hall. unfold group_size. rewrite filter_none; [done|].
  eapply Forall_impl; [exact Hall|]. intros m [Hs He] [= _ Hg Hg' _]. lia.
Qed.

(** ** The cells of a cluster *)

Lemma filter_ext_in {A} (P Q : A → Prop) `{∀ x, Decision (P x)} `{∀ x, Decision (Q x)}
    (l : list A) :
  (∀ x, x ∈ l → P x ↔ Q x) → filter P l = filter Q l.
Proof.
  induction l as [|x l IH]; intros Heq; [done|].
  rewrite !filter_cons.
  assert (Hx : P x ↔ Q x) by (apply Heq; by left).
  rewrite IH by (intros y Hy; apply Heq; by right).
  destruct (decide (P x)), (decide (Q x)); tauto.
Qed.

Lemma zip_map_pair {A B C} (f : A → B) (g : A → C) (l : list A) :
  zip (map f l) (map g l) = map (fun a => (f a, g a)) l.
Proof. induction l as [|a l IH]; simpl; [done|]. by rewrite IH. Qed.

Lemma elem_of_merged_rows (rows : list Reads.row) (m : Merged.row) :
  m ∈ merged_rows rows ↔
  ∃ r k, r ∈ rows ∧ 0 <= k < Reads.len r ∧
         m = Merged.Row (Reads.start r + k) (Reads.start r + k + 1)
                        (Reads.row_num r) (Reads.chrom r) (Reads.cell r)
                        (Reads.len r) (Reads.cluster r).
Proof.
  unfold merged_rows. rewrite list_elem_of_In, in_flat_map. split.
  - intros (r & Hr & Hm). apply list_elem_of_In in Hr, Hm.
    apply list_elem_of_fmap in Hm as (k & -> & Hk). apply elem_of_seq in Hk.
    exists r, (Z.of_nat k). split; [done|]. split; [lia | done].
  - intros (r & k & Hr & Hk & ->). exists r. split; [by apply list_elem_of_In|].
    apply list_elem_of_In, list_elem_of_fmap. exists (Z.to_nat k).
    split; [|apply elem_of_seq; lia].
    by replace (Z.of_nat (Z.to_nat k)) with k by lia.
Qed.

Lemma coverage_at_chrom (rows : list Reads.row) (chrom : string) (cl g : Z) :
  Forall (fun r => Reads.chrom r = chrom) rows →
  Z.of_nat (length (filter
    (fun r => Reads.chrom r = chrom ∧ Reads.cluster r = cl ∧
              Reads.start r <= g < Reads.end_ r) rows))
  = coverage_at rows cl g.
Proof.
  intros Hchrom. unfold coverage_at. do 2 f_equal.
  apply filter_ext_in. intros r Hr. rewrite Forall_forall in Hchrom.
  specialize (Hchrom r Hr). tauto.
Qed.

(** Inside the window, the coordinate of a group is its start minus the
    start of the window plus the pad: nothing wraps around. *)
Lemma coordinate_exact (g start pad : Z) :
  is_int32 g → is_int32 start → is_int32 pad →
  wrap64 (wrap64 (g - start) + pad) = g - start + pad.
Proof.
  unfold is_int32. intros Hg Hs Hp.
  rewrite (wrap64_small (g - start)) by (unfold is_int64; lia).
  apply wrap64_small. unfold is_int64. lia.
Qed.

Section Cells.
Variables (rows : list Reads.row) (leftover : list Merged.row).
Variables (chrom : string) (start end_ pad : Z).
Hypothesis fragments_ok : Forall fragment_row rows.
Hypothesis one_chrom : Forall (fun r => Reads.chrom r = chrom) rows.
Hypothesis start_int32 : is_int32 start.
Hypothesis pad_int32 : is_int32 pad.
Hypothesis leftover_zero :
  Forall (fun m => Merged.start m = 0 ∧ Merged.end_ m = 0) leftover.
Hypothesis leftover_outside : leftover = [] ∨ pad < start.

Let summed := groupby_count (merged_rows rows ++ leftover).

Lemma base_int32 (r : Reads.row) (k : Z) :
  r ∈ rows → 0 <= k < Reads.len r → is_int32 (Reads.start r + k).
Proof.
  intros Hr Hk. rewrite Forall_forall in fragments_ok.
  destruct (fragments_ok r Hr) as (Hs & He & Hlen & _).
  unfold is_int32 in *. lia.
Qed.

Lemma elem_of_summed (g : Summed.row) :
  g ∈ summed ↔
  ∃ m, m ∈ merged_rows rows ++ leftover ∧
       g = Summed.Row (Merged.chrom m) (Merged.start m) (Merged.end_ m)
             (Merged.cluster m)
             (group_size (merged_rows rows ++ leftover) (group_key m))
             (group_size (merged_rows rows ++ leftover) (group_key m))
             (group_size (merged_rows rows ++ leftover) (group_key m)).
Proof.
  unfold summed, groupby_count. rewrite list_elem_of_fmap. split.
  - intros ([[[c s] e] cl] & -> & Hkey). rewrite elem_of_remove_dups in Hkey.
    apply list_elem_of_fmap in Hkey as (m & Hkey & Hm). exists m. split; [done|].
    rewrite <- Hkey. unfold group_key in Hkey. by injection Hkey as -> -> -> ->.
  - intros (m & Hm & ->). exists (group_key m). split; [done|].
    rewrite elem_of_remove_dups. apply list_elem_of_fmap. by exists m.
Qed.

Lemma elem_of_cluster_cells (cl c v : Z) :
  (c, v) ∈ cluster_cells summed start end_ pad cl ↔
  0 <= c < end_ - start + 2 * pad ∧
  ∃ g, g ∈ summed ∧ Summed.cluster g = cl ∧
       c = wrap64 (wrap64 (Summed.start g - start) + pad) ∧ v = Summed.row_num g.
Proof.
  unfold cluster_cells. rewrite list_elem_of_filter, zip_map_pair, list_elem_of_fmap.
  cbn [fst]. rewrite andb_true_iff, !bool_decide_eq_true.
  split.
  - intros (Hc & g & [= -> ->] & Hg). apply list_elem_of_filter in Hg as [Hcl Hg].
    split; [lia|]. by exists g.
  - intros (Hc & g & Hg & Hcl & -> & ->). split; [lia|]. exists g. split; [done|].
    by apply list_elem_of_filter.
Qed.

(** Every cell assigned for a cluster holds the number of fragments of the
    cluster that cover its coordinate. *)
Lemma cells_sound (cl c v : Z) :
  (c, v) ∈ cluster_cells summed start end_ pad cl →
  0 <= c ∧ v = coverage_at rows cl (start - pad + c).
Proof.
  intros Hin. apply elem_of_cluster_cells in Hin as (Hc & g & Hg & Hcl & -> & ->).
  split; [lia|].
  apply elem_of_summed in Hg as (m & Hm & ->).
  cbn [Summed.start Summed.cluster Summed.row_num] in *.
  apply elem_of_app in Hm as [Hm|Hm].
  - apply elem_of_merged_rows in Hm as (r & k & Hr & Hk & ->).
    cbn [Merged.start Merged.cluster] in *. unfold group_key.
    cbn [Merged.chrom Merged.start Merged.end_ Merged.cluster].
    rewrite coordinate_exact by (done || by apply base_int32).
    rewrite group_size_app, group_size_merged, group_size_leftover by done.
    assert (Hchrom : Reads.chrom r = chrom).
    { rewrite Forall_forall in one_chrom. by apply one_chrom. }
    rewrite Hchrom, Hcl, coverage_at_chrom by done.
    rewrite Z.add_0_r. f_equal. lia.
  - exfalso. destruct leftover_outside as [Hnil|Hlt].
    + rewrite Hnil in Hm. by apply elem_of_nil in Hm.
    + rewrite Forall_forall in leftover_zero.
      destruct (leftover_zero m Hm) as [Hs _]. rewrite Hs in Hc.
      rewrite coordinate_exact in Hc by (done || (unfold is_int32; lia)). lia.
Qed.

(** Every base inside the window that a fragment of the cluster covers has
    a cell. *)
Lemma cells_complete (cl g : Z) (r : Reads.row) :
  r ∈ rows → Reads.cluster r = cl → Reads.start r <= g < Reads.end_ r →
  0 <= g - start + pad < end_ - start + 2 * pad →
  ∃ v, (g - start + pad, v) ∈ cluster_cells summed start end_ pad cl.
Proof.
  intros Hr Hcl Hg Hin.
  assert (Hlen : Reads.len r = Reads.end_ r - Reads.start r).
  { rewrite Forall_forall in fragments_ok. by destruct (fragments_ok r Hr) as (_ & _ & ? & _). }
  set (m := Merged.Row (Reads.start r + (g - Reads.start r))
                       (Reads.start r + (g - Reads.start r) + 1)
                       (Reads.row_num r) (Reads.chrom r) (Reads.cell r)
                       (Reads.len r) (Reads.cluster r)).
  assert (Hm : m ∈ merged_rows rows ++ leftover).
  { apply elem_of_app. left. apply elem_of_merged_rows.
    exists r, (g - Reads.start r). split; [done|]. split; [lia | done]. }
  eexists. apply elem_of_cluster_cells. split; [done|].
  eexists. split; [apply elem_of_summed; by exists m|].
  cbn [Summed.start Summed.cluster Summed.row_num Merged.start Merged.cluster m].
  split; [done|]. split; [|done].
  rewrite coordinate_exact; [lia| |done..].
  apply base_int32; [done | lia].
Qed.
End Cells.

(** ** The coverage that [get_coverages] returns *)

Lemma merge_no_row (n : nat) (metas : list Meta.row) :
  Forall (fun m => Meta.row_num m ≠ 0) metas →
  merge_on_row_num (replicate n (0, 0, 0)) metas = [].
Proof.
  intros Hall. unfold merge_on_row_num.
  induction n as [|n IH]; [done|].
  cbn [replicate flat_map]. rewrite IH, filter_none by done. done.
Qed.

Lemma coverage_at_perm (rows rows' : list Reads.row) (c g : Z) :
  rows ≡ₚ rows' → coverage_at rows c g = coverage_at rows' c g.
Proof. intros Hperm. unfold coverage_at. by rewrite Hperm. Qed.

(** When the fragments fit the window (their lengths sum to no more than
    the window size), lie on one chromosome and have distinct 32-bit row
    numbers, [get_coverages] returns the coverage: row [i] of the array is
    the track of the [i]-th cluster in ascending order, and its cell [p]
    is the number of fragments of the cluster that cover the base
    [start - pad + p].  The slots that the fragments leave unused must do
    no harm: there are none, or base 0 is before the window, or no row is
    numbered 0. *)
Theorem get_coverages_counts_fragments (tpb : Z) (reads_orig : loc)
    (chrom : string) (start end_ pad : Z) (σ : store) (rows : list Reads.row) :
  0 < tpb →
  σ !! reads_orig = Some (ReadsFrame rows) →
  Forall fragment_row rows → Forall numbered_row rows →
  NoDup (map Reads.row_num rows) →
  Forall (fun r => Reads.chrom r = chrom) rows →
  is_int32 start → is_int32 pad →
  sum_Z (map Reads.len rows) <= end_ - start + 2 * pad < 2 ^ 63 →
  sum_Z (map Reads.len rows) = end_ - start + 2 * pad ∨ pad < start ∨
    Forall (fun r => Reads.row_num r ≠ 0) rows →
  ∃ x σ',
    get_coverages tpb reads_orig chrom start end_ pad σ = Done x σ' ∧
    ∀ i c p,
      sorted_unique (map Reads.cluster rows) !! i = Some c →
      0 <= p < end_ - start + 2 * pad →
      ∃ row, data x !! i = Some row ∧
             row !! Z.to_nat p = Some (coverage_at rows c (start - pad + p)).
Proof.
  intros Htpb Hrows Hfrag Hnum Hnd Hchrom Hs32 Hp32 [Hsum Hw] Hleft.
  rewrite (get_coverages_eq _ _ _ _ _ _ _ rows Hrows).
  pose proof (sort_by_row_num_perm rows) as Hperm.
  set (srt := sort_by_row_num rows) in *.
  set (w := end_ - start + 2 * pad) in *.
  assert (Hfrag' : Forall fragment_row srt) by (by rewrite Hperm).
  assert (Hnum' : Forall numbered_row srt) by (by rewrite Hperm).
  assert (Hchrom' : Forall (fun r => Reads.chrom r = chrom) srt) by (by rewrite Hperm).
  assert (Hnd' : NoDup (map Reads.row_num srt)).
  { assert (Hp : map Reads.row_num srt ≡ₚ map Reads.row_num rows)
      by (by apply fmap_Permutation).
    by rewrite Hp. }
  assert (Hsum' : sum_Z (map Reads.len srt) = sum_Z (map Reads.len rows)).
  { apply sum_Z_perm. by apply fmap_Permutation. }
  assert (Hpos : 0 <= sum_Z (map Reads.len rows)).
  { rewrite <- (psum_ge _ (length (map Reads.len rows))) by lia.
    apply psum_nonneg. apply Forall_fmap.
    eapply Forall_impl; [exact Hfrag|]. by intros r (_ & _ & _ & ?). }
  rewrite np_zeros_ok by lia.
  destruct (launch_zeros tpb w srt Htpb Hfrag') as (cols & -> & Hcols); [lia|].
  rewrite (sorted_unique_perm (map Reads.cluster srt) (map Reads.cluster rows))
    by (by apply fmap_Permutation).
  set (clusters := sorted_unique (map Reads.cluster rows)).
  eexists _, _. split; [done|]. cbn [data].
  intros i c p Hi Hp.
  rewrite Hcols, merge_app, merge_expansion; try done.
  2: { apply Forall_forall. by intros r Hr. }
  set (leftover := merge_on_row_num _ (map drop_coords srt)).
  assert (Hzero : Forall (fun m => Merged.start m = 0 ∧ Merged.end_ m = 0) leftover).
  { apply merge_leftover. }
  assert (Hout : leftover = [] ∨ pad < start).
  { destruct Hleft as [Heq|[Hlt|Hno]]; [left|by right|left].
    - unfold leftover. rewrite Hsum', Heq, Z.sub_diag. done.
    - apply merge_no_row. apply Forall_fmap. rewrite Hperm.
      eapply Forall_impl; [exact Hno|]. done. }
  rewrite (fill_clusters_lookup _ _ _ _ _ _ i c (replicate (Z.to_nat w) 0) Hi).
  2: { apply lookup_replicate_2. by apply lookup_lt_Some in Hi. }
  eexists. split; [done|].
  set (cells := cluster_cells _ start end_ pad c).
  destruct (lookup_lt_is_Some_2 (assign_at (replicate (Z.to_nat w) 0)
                                   (map fst cells) (map snd cells)) (Z.to_nat p))
    as [y Hy].
  { rewrite assign_at_length, length_replicate. lia. }
  rewrite Hy. f_equal.
  rewrite (coverage_at_perm rows srt) by done.
  destruct (assign_at_lookup _ _ _ _ Hy) as [(c' & v & Hin & Hc' & ->)|[Hrow Hnone]].
  - destruct (cells_sound srt leftover chrom start end_ pad Hfrag' Hchrom' Hs32 Hp32
                Hzero Hout c c' v Hin) as [Hc0 ->].
    do 2 f_equal. lia.
  - apply lookup_replicate in Hrow as [-> _].
    unfold coverage_at.
    destruct (filter _ srt) as [|r l] eqn:Hf; [done|]. exfalso.
    assert (Hr : r ∈ r :: l) by (by left). rewrite <- Hf in Hr.
    apply list_elem_of_filter in Hr as [[Hcl Hcov] Hr].
    destruct (cells_complete srt leftover start end_ pad Hfrag' Hs32 Hp32
                c (start - pad + p) r Hr Hcl Hcov) as [v Hv].
    { fold w. lia. }
    apply (Hnone _ _ Hv). f_equal. lia.
Qed.

Lemma get_coverages_counts_fragments_witness :
  ∃ x σ',
    get_coverages 128 0%nat "chr1" 100 110 0
      [ReadsFrame [Reads.Row "chr1" 103 108 "AAAG-1" 1 5 4;
                   Reads.Row "chr1" 100 104 "AAAC-1" 0 4 2]] = Done x σ' ∧
    ∀ i c p,
      sorted_unique (map Reads.cluster
                       [Reads.Row "chr1" 103 108 "AAAG-1" 1 5 4;
                        Reads.Row "chr1" 100 104 "AAAC-1" 0 4 2]) !! i = Some c →
      0 <= p < 110 - 100 + 2 * 0 →
      ∃ row, data x !! i = Some row ∧
             row !! Z.to_nat p
             = Some (coverage_at [Reads.Row "chr1" 103 108 "AAAG-1" 1 5 4;
                                  Reads.Row "chr1" 100 104 "AAAC-1" 0 4 2]
                                 c (100 - 0 + p)).
Proof.
  apply (get_coverages_counts_fragments 128 0%nat "chr1" 100 110 0
           [ReadsFrame [Reads.Row "chr1" 103 108 "AAAG-1" 1 5 4;
                        Reads.Row "chr1" 100 104 "AAAC-1" 0 4 2]]);
    try reflexivity.
  - repeat constructor; unfold is_int32; simpl; lia.
  - repeat constructor; unfold is_int32; simpl; lia.
  - repeat constructor; simpl; intros H; repeat (apply elem_of_cons in H as [H|H]; [lia|]);
      by apply elem_of_nil in H.
  - by repeat constructor.
  - unfold is_int32. lia.
  - unfold is_int32. lia.
  - simpl. lia.
  - right. left. lia.
Defined.

(** ** [query_fragments] and the library's query *)

(** [query_fragments] returns the records that the library's query
    yields, in the order it yields them, and raises what the query
    raises: the loop drops, repeats and reorders nothing. *)
Theorem query_fragments_returns_query
    (querys : string → string → result (list (list string)))
    (fragment_file chrom : string) (start end_ : Z) :
  query_fragments querys fragment_file chrom start end_
  = querys fragment_file (format_region chrom start end_).
Proof.
  unfold query_fragments.
  destruct (querys fragment_file (format_region chrom start end_)) as [results| |];
    [|done..].
  cbn [result_bind]. rewrite foldl_snoc_map. cbn [app]. by rewrite map_id.
Qed.

(** ** The shape of what [reshape_with_padding] returns *)

Lemma for_each_invariant {A S} (P : S → Prop) (body : A → S → result S)
    (xs : list A) :
  (∀ x s s', P s → body x s = Ok s' → P s') →
  ∀ s s', P s → for_each body xs s = Ok s' → P s'.
Proof.
  intros Hbody. induction xs as [|x xs IH]; intros s s' Hs; cbn [for_each].
  - by intros [= <-].
  - destruct (body x s) as [s1| |] eqn:E; [|done..]. cbn [result_bind].
    apply IH. by apply (Hbody x s).
Qed.

Lemma broadcast_rows_shape {V} (c : nat) (rows rows' : list (list V)) :
  broadcast_rows c rows = Ok rows' →
  length rows' = length rows ∧ Forall (fun row => length row = c) rows'.
Proof.
  revert rows'. induction rows as [|row rows IH]; intros rows'; cbn [broadcast_rows].
  - by intros [= <-].
  - destruct (broadcast_row c row) as [row1| |] eqn:E1; [|done..]. cbn [result_bind].
    destruct (broadcast_rows c rows) as [rows1| |]; [|done..]. cbn [result_bind].
    intros [= <-]. destruct (IH rows1 eq_refl) as [Hlen Hall].
    split; [cbn; by rewrite Hlen|]. constructor; [|done].
    unfold broadcast_row in E1. destruct (length row =? c)%nat eqn:El.
    + injection E1 as <-. by apply Nat.eqb_eq.
    + destruct row as [|v [|? ?]]; try done. injection E1 as <-.
      apply length_replicate.
Qed.

Lemma broadcast_to_shape {V} (r c : nat) (value : array2 V) (rows : list (list V)) :
  length (data value) = shape0 value →
  broadcast_to r c value = Ok rows →
  length rows = r ∧ Forall (fun row => length row = c) rows.
Proof.
  intros Hlen. unfold broadcast_to.
  destruct (negb _); [done|].
  destruct (broadcast_rows c (data value)) as [rows1| |] eqn:E; [|done..].
  cbn [result_bind]. apply broadcast_rows_shape in E as [Hl Hall].
  destruct (shape0 value =? r)%nat eqn:Er.
  - intros [= <-]. apply Nat.eqb_eq in Er. split; [congruence | done].
  - destruct rows1 as [|row [|? ?]]; try done. intros [= <-].
    split; [apply length_replicate|]. apply Forall_replicate.
    by apply Forall_cons in Hall as [? _].
Qed.

Lemma clip_bound_range (n x : Z) : 0 <= n → 0 <= clip_bound n x <= n.
Proof.
  intros Hn. unfold clip_bound.
  destruct (x <? 0) eqn:E; [|apply Z.ltb_ge in E]; lia.
Qed.

Lemma assign_rows_shape {V} (target value r : array2 V) (lo hi : Z) :
  well_shaped target → length (data value) = shape0 value →
  assign_rows target lo hi value = Ok r →
  well_shaped r ∧ shape0 r = shape0 target ∧ shape1 r = shape1 target.
Proof.
  intros [Hrows Hcols] Hvalue. unfold assign_rows.
  destruct (broadcast_to _ _ value) as [rows| |] eqn:E; [|done..].
  cbn [result_bind]. intros [= <-]. cbn [shape0 shape1 data].
  apply broadcast_to_shape in E as [Hlen Hall]; [|done].
  pose proof (clip_bound_range (Z.of_nat (shape0 target)) lo ltac:(lia)).
  pose proof (clip_bound_range (Z.of_nat (shape0 target)) hi ltac:(lia)).
  split; [|done]. split; cbn [shape0 shape1 data].
  - rewrite !length_app, length_take, length_drop, Hlen, Hrows. lia.
  - apply Forall_app. split; [by apply Forall_take|].
    apply Forall_app. split; [done | by apply Forall_drop].
Qed.

Lemma np_stack_rows {V} (rows : list (list V)) (a : array2 V) :
  np_stack rows = Ok a → length (data a) = shape0 a.
Proof.
  unfold np_stack. destruct rows as [|r rs]; [done|].
  destruct (forallb _ rs); [|done]. by intros [= <-].
Qed.

(** Whenever [reshape_with_padding] returns, the array has
    [num_clusters * n_intervals] rows of [interval_size + 2*pad] values
    each, [n_intervals] being [(W - 2*pad) / interval_size] rounded
    towards zero. *)
Theorem reshape_with_padding_shape {V} (zero : V) (coverage reshaped : array2 V)
    (interval_size pad : Z) :
  reshape_with_padding zero coverage interval_size pad = Ok reshaped →
  well_shaped reshaped ∧
  Z.of_nat (shape0 reshaped)
    = Z.of_nat (shape0 coverage)
      * Z.quot (Z.of_nat (shape1 coverage) - 2 * pad) interval_size ∧
  Z.of_nat (shape1 reshaped) = interval_size + 2 * pad.
Proof.
  unfold reshape_with_padding, int_div.
  destruct (interval_size =? 0); [done|]. cbn [result_bind].
  set (n := Z.quot (Z.of_nat (shape1 coverage) - 2 * pad) interval_size).
  match goal with
  | |- context [result_bind ?m _] => destruct m as [starts| |]; [|done..]
  end.
  cbn [result_bind]. unfold np_zeros_shape.
  match goal with
  | |- context [if ?b then Raised ValueError else _] => destruct b eqn:Eneg; [done|]
  end.
  match goal with
  | |- context [if ?b then Raised OverflowError else _] => destruct b; [done|]
  end.
  cbn [result_bind].
  apply orb_false_iff in Eneg as [E0 E1]. apply Z.ltb_ge in E0, E1.
  set (P := fun a : array2 V =>
    well_shaped a ∧ Z.of_nat (shape0 a) = Z.of_nat (shape0 coverage) * n ∧
    Z.of_nat (shape1 a) = interval_size + 2 * pad).
  apply (for_each_invariant P).
  - intros i s s' (Hs & H0 & H1).
    destruct (np_stack _) as [stacked| |] eqn:Es; [|done..]. cbn [result_bind].
    intros Ha. apply assign_rows_shape in Ha as (Hs' & E0' & E1'); [|done|].
    + unfold P. by rewrite E0', E1'.
    + by apply np_stack_rows in Es.
  - unfold P. cbn [shape0 shape1 data]. split; [|lia]. split; cbn [shape0 shape1 data].
    + apply length_replicate.
    + apply Forall_replicate, length_replicate.
Qed.

Lemma reshape_with_padding_shape_witness :
  well_shaped (Array2 2 6 [[1; 2; 3; 4; 5; 6]; [1; 2; 3; 4; 5; 6]]) ∧
  Z.of_nat (shape0 (Array2 2 6 [[1; 2; 3; 4; 5; 6]; [1; 2; 3; 4; 5; 6]]))
    = Z.of_nat (shape0 (Array2 1 10 [[1; 2; 3; 4; 5; 6; 7; 8; 9; 10]]))
      * Z.quot (Z.of_nat (shape1 (Array2 1 10 [[1; 2; 3; 4; 5; 6; 7; 8; 9; 10]]))
                - 2 * 1) 4 ∧
  Z.of_nat (shape1 (Array2 2 6 [[1; 2; 3; 4; 5; 6]; [1; 2; 3; 4; 5; 6]])) = 4 + 2 * 1.
Proof.
  apply (reshape_with_padding_shape 0 (Array2 1 10 [[1; 2; 3; 4; 5; 6; 7; 8; 9; 10]])).
  reflexivity.
Defined.

(** ** The shape of what [atacworks_denoise] returns *)

(** Whenever [atacworks_denoise] returns, for a track at least as wide as
    its two pads, the prediction has the shape
    [(num_clusters, W - 2*pad, K)], [K] being the number of heads that the
    model returns for the reshaped track. *)
Theorem atacworks_denoise_shape {V} (zero : V) (coverage : array2 V)
    (model : array2 V → list (array2 V)) (interval_size pad : Z) (pred : array3 V) :
  atacworks_denoise zero coverage model interval_size pad = Ok pred →
  2 * pad <= Z.of_nat (shape1 coverage) →
  ∃ input_arr,
    reshape_with_padding zero coverage interval_size pad = Ok input_arr ∧
    dim0 pred = shape0 coverage ∧
    Z.of_nat (dim1 pred) = Z.of_nat (shape1 coverage) - 2 * pad ∧
    dim2 pred = length (model input_arr).
Proof.
  unfold atacworks_denoise. intros Hrun Hwide.
  destruct (reshape_with_padding zero coverage interval_size pad)
    as [input_arr| |]; [|done..].
  cbn [result_bind] in Hrun. exists input_arr. split; [done|].
  destruct (stack_last (model input_arr)) as [stacked| |] eqn:Es; [|done..].
  cbn [result_bind] in Hrun.
  assert (Hk : dim2 stacked = length (model input_arr)).
  { unfold stack_last in Es. destruct (model input_arr) as [|h hs]; [done|].
    destruct (forallb _ hs); [|done]. by injection Es as <-. }
  destruct (py_range _ _ 1) as [center| |]; [|done..]. cbn [result_bind] in Hrun.
  destruct (take_positions stacked center) as [taken| |] eqn:Et; [|done..].
  cbn [result_bind] in Hrun.
  assert (Hk' : dim2 taken = dim2 stacked).
  { unfold take_positions in Et. destruct (forallb _ center); [|done].
    by injection Et as <-. }
  unfold reshape3 in Hrun.
  replace (Z.of_nat (shape1 coverage) - 2 * pad =? -1) with false in Hrun
    by (symmetry; apply Z.eqb_neq; lia).
  replace (Z.of_nat (shape1 coverage) - 2 * pad <? 0) with false in Hrun
    by (symmetry; apply Z.ltb_ge; lia).
  cbn [result_bind] in Hrun.
  destruct (_ =? _)%nat; [|done]. injection Hrun as <-.
  cbn [dim0 dim1 dim2]. split; [done|]. split; [lia | congruence].
Qed.

Lemma atacworks_denoise_shape_witness :
  ∃ input_arr,
    reshape_with_padding 0 (Array2 1 6 [[1; 2; 3; 4; 5; 6]]) 4 1 = Ok input_arr ∧
    dim0 (Array3 1 4 2 [[[2; 2]; [3; 3]; [4; 4]; [5; 5]]])
      = shape0 (Array2 1 6 [[1; 2; 3; 4; 5; 6]]) ∧
    Z.of_nat (dim1 (Array3 1 4 2 [[[2; 2]; [3; 3]; [4; 4]; [5; 5]]]))
      = Z.of_nat (shape1 (Array2 1 6 [[1; 2; 3; 4; 5; 6]])) - 2 * 1 ∧
    dim2 (Array3 1 4 2 [[[2; 2]; [3; 3]; [4; 4]; [5; 5]]])
      = length ((fun input : array2 Z => [input; input]) input_arr).
Proof.
  apply (atacworks_denoise_shape 0 (Array2 1 6 [[1; 2; 3; 4; 5; 6]])
           (fun input => [input; input]) 4 1
           (Array3 1 4 2 [[[2; 2]; [3; 3]; [4; 4]; [5; 5]]]));
    [reflexivity | simpl; lia].
Defined.

(** ** The rows of the array and the clusters *)











(** ** [reads_orig] across a call of [get_coverages] *)

(** C10: [get_coverages] works on a copy of [reads_orig], but its kernel
    stores outside the columns it was given when the fragment lengths sum
    to more than the window size (the columns are allocated with
    [window_size] rows, not [expanded_coverage_size]).  For the fragments
    [100, 108) and [104, 110) in the window [100, 110) the lengths sum to
    14; row 1 is sent to slots 8 to 13 of columns of 10 rows, and the store
    at slot 10 is outside the column.  What such a store overwrites is not
    defined: the call has no end, returning or raising, at which
    [reads_orig] is what it was. *)
Theorem get_coverages_reads_orig_undefined :
  let reads := [Reads.Row "chr1" 100 108 "AAAC-1" 0 8 0;
                Reads.Row "chr1" 104 110 "AAAG-1" 1 6 1] in
  let σ := [ReadsFrame reads] in
  sum_Z (map Reads.len reads) = 14 ∧
  np_zeros (110 - 100 + 2 * 0) = Ok (replicate 10 0) ∧
  cumsum (map Reads.len reads) = [8; 14] ∧
  array_set (replicate 10 0) 10 106 = Undefined ∧
  get_coverages 128 0%nat "chr1" 100 110 0 σ = Undef ∧
  ¬ (∃ x σ', get_coverages 128 0%nat "chr1" 100 110 0 σ = Done x σ' ∧
             σ' !! 0%nat = σ !! 0%nat) ∧
  ¬ (∃ e σ', get_coverages 128 0%nat "chr1" 100 110 0 σ = Failed e σ' ∧
             σ' !! 0%nat = σ !! 0%nat).
Proof.
  cbv zeta. repeat split; try (vm_compute; reflexivity).
  - intros (x & σ' & H & _). vm_compute in H. discriminate.
  - intros (e & σ' & H & _). vm_compute in H. discriminate.
Qed.

(** Where the fragments fit the window, or the window is refused, the
    call does end, by returning or by raising, and [reads_orig] and every
    other object of the store it started from are then what they were:
    the call works on objects that it allocates. *)
Theorem get_coverages_ends_with_reads_orig (tpb : Z) (reads_orig : loc)
    (chrom : string) (start end_ pad : Z) (σ : store) (rows : list Reads.row) :
  0 < tpb →
  σ !! reads_orig = Some (ReadsFrame rows) →
  Forall fragment_row rows →
  sum_Z (map Reads.len rows) < 2 ^ 63 →
  sum_Z (map Reads.len rows) <= end_ - start + 2 * pad ∨ end_ - start + 2 * pad < 0 →
  ∃ σ',
    ((∃ x, get_coverages tpb reads_orig chrom start end_ pad σ = Done x σ') ∨
     (∃ e, get_coverages tpb reads_orig chrom start end_ pad σ = Failed e σ')) ∧
    σ' !! reads_orig = Some (ReadsFrame rows) ∧ σ `prefix_of` σ'.
Proof.
  intros Htpb Hrows Hfrag H64 Hfit.
  assert (Hext : ∀ ext, (σ ++ ext) !! reads_orig = Some (ReadsFrame rows) ∧
                        σ `prefix_of` σ ++ ext).
  { intros ext. split; [by apply lookup_app_l_Some | by apply prefix_app_r]. }
  rewrite (get_coverages_eq _ _ _ _ _ _ _ rows Hrows).
  destruct (np_zeros (end_ - start + 2 * pad)) as [zs|e|] eqn:Hz.
  - assert (Hw : 0 <= end_ - start + 2 * pad < 2 ^ 63).
    { unfold np_zeros in Hz.
      destruct (end_ - start + 2 * pad <? 0) eqn:E1; [done|].
      destruct (2 ^ 63 <=? end_ - start + 2 * pad) eqn:E2; [done|].
      apply Z.ltb_ge in E1. apply Z.leb_gt in E2. lia. }
    rewrite np_zeros_ok in Hz by done. injection Hz as <-.
    pose proof (sort_by_row_num_perm rows) as Hperm.
    destruct (launch_in_bounds tpb (sort_by_row_num rows)
                (replicate (Z.to_nat (end_ - start + 2 * pad)) 0))
      as (cols & -> & _); try done.
    + by rewrite Hperm.
    + rewrite length_replicate, (sum_Z_perm _ (map Reads.len rows))
        by (by apply fmap_Permutation). lia.
    + by rewrite (sum_Z_perm _ (map Reads.len rows)) by (by apply fmap_Permutation).
    + eexists. split; [left; eauto|]. apply Hext.
  - eexists. split; [right; eauto|]. apply Hext.
  - exfalso. unfold np_zeros in Hz.
    destruct (_ <? 0); [done|]. by destruct (2 ^ 63 <=? _).
Qed.

Lemma get_coverages_ends_with_reads_orig_witness :
  ∃ σ',
    ((∃ x, get_coverages 128 0%nat "chr1" 100 110 0
             [ReadsFrame [Reads.Row "chr1" 103 108 "AAAG-1" 1 5 4;
                          Reads.Row "chr1" 100 104 "AAAC-1" 0 4 2]] = Done x σ') ∨
     (∃ e, get_coverages 128 0%nat "chr1" 100 110 0
             [ReadsFrame [Reads.Row "chr1" 103 108 "AAAG-1" 1 5 4;
                          Reads.Row "chr1" 100 104 "AAAC-1" 0 4 2]] = Failed e σ')) ∧
    σ' !! 0%nat = Some (ReadsFrame [Reads.Row "chr1" 103 108 "AAAG-1" 1 5 4;
                                    Reads.Row "chr1" 100 104 "AAAC-1" 0 4 2]) ∧
    [ReadsFrame [Reads.Row "chr1" 103 108 "AAAG-1" 1 5 4;
                 Reads.Row "chr1" 100 104 "AAAC-1" 0 4 2]] `prefix_of` σ'.
Proof.
  apply (get_coverages_ends_with_reads_orig 128 0%nat "chr1" 100 110 0);
    try reflexivity.
  - repeat constructor; unfold is_int32; simpl; lia.
  - left. simpl. lia.
Defined.
